(** * TabuEqCol: a shallow embedding of the tabu-search heuristic for the
      Equitable Coloring Problem

    The development follows [src/src/main.cpp] (the instance reader and the
    header-only [tabueqcol] namespace that the file carries): [Instance],
    [SolutionManager] with its greedy constructions, the incremental move
    primitives and [run_tabu_search].

    Conventions of the embedding.
    - A C++ [int] / [long long] is a [Z]; the arithmetic of the solver stays far
      from the 32-bit bounds on every instance it can load, and wrap-around is
      not modelled.
    - A [std::vector<T>] is a [list T] indexed by [Z] through [vget] / [vset].
      An out-of-range [operator[]] is undefined behaviour in C++; [vget]
      returns the default there and [vset] leaves the vector alone, and the
      theorems carry the range facts that make every access defined.
    - [double] parameters ([alpha], [perturbation_strength]) are rationals;
      rounding error of the floating-point product is not modelled.
    - [std::mt19937], [std::uniform_int_distribution] and [std::shuffle] are
      the interface [RandomEngine]: a generator state, a bounded draw that
      stays inside its bounds and a shuffle that permutes.
    - [StopCriterion::is_time_up] reads the wall clock; the engine receives it
      as an oracle from the iteration counter at which it polls. *)

From Stdlib Require Import ZArith List Lia Bool QArith Qround Permutation.
Import ListNotations.
Local Open Scope Z_scope.

Set Implicit Arguments.

(** ** Vectors indexed by [int] *)

Section Vectors.
Context {A : Type}.

Definition vget (d : A) (l : list A) (i : Z) : A :=
  if i <? 0 then d else nth (Z.to_nat i) l d.

Fixpoint upd (l : list A) (i : nat) (x : A) : list A :=
  match l, i with
  | [], _ => []
  | _ :: t, O => x :: t
  | h :: t, S j => h :: upd t j x
  end.

Definition vset (l : list A) (i : Z) (x : A) : list A :=
  if i <? 0 then l else upd l (Z.to_nat i) x.

Definition vsize (l : list A) : Z := Z.of_nat (length l).

Lemma upd_length (l : list A) i x : length (upd l i x) = length l.
Proof.
  revert i; induction l as [|h t IH]; intros [|i]; simpl; auto.
Qed.

Lemma nth_upd_same (l : list A) i x d :
  (i < length l)%nat -> nth i (upd l i x) d = x.
Proof.
  revert i; induction l as [|h t IH]; intros [|i] Hi; simpl in *;
    try lia; auto.
  apply IH; lia.
Qed.

Lemma nth_upd_other (l : list A) i j x d :
  i <> j -> nth j (upd l i x) d = nth j l d.
Proof.
  revert i j; induction l as [|h t IH]; intros [|i] [|j] Hij; simpl;
    auto; try congruence.
Qed.

Lemma vsize_vset (l : list A) i x : vsize (vset l i x) = vsize l.
Proof.
  unfold vsize, vset. destruct (i <? 0); auto. now rewrite upd_length.
Qed.

Lemma length_vset (l : list A) i x : length (vset l i x) = length l.
Proof.
  unfold vset. destruct (i <? 0); auto. apply upd_length.
Qed.

Lemma vget_vset_same d (l : list A) i x :
  0 <= i < vsize l -> vget d (vset l i x) i = x.
Proof.
  unfold vget, vset, vsize. intros Hi.
  destruct (Z.ltb_spec i 0); try lia.
  apply nth_upd_same. lia.
Qed.

Lemma vget_vset_other d (l : list A) i j x :
  i <> j -> vget d (vset l i x) j = vget d l j.
Proof.
  unfold vget, vset. intros Hij.
  destruct (Z.ltb_spec j 0); auto.
  destruct (Z.ltb_spec i 0); auto.
  apply nth_upd_other. lia.
Qed.

Lemma vget_out d (l : list A) i :
  i < 0 \/ vsize l <= i -> vget d l i = d.
Proof.
  unfold vget, vsize. intros Hi.
  destruct (Z.ltb_spec i 0); auto.
  apply nth_overflow. lia.
Qed.

Lemma vset_out (l : list A) i x :
  i < 0 \/ vsize l <= i -> vset l i x = l.
Proof.
  unfold vset, vsize. intros Hi.
  destruct (Z.ltb_spec i 0); auto.
  assert (Hn : (length l <= Z.to_nat i)%nat) by lia.
  clear Hi H. revert Hn. generalize (Z.to_nat i) as m.
  induction l as [|h t IH]; intros [|m] Hm; simpl in *; auto; try lia.
  f_equal. apply IH. lia.
Qed.

Lemma vget_snoc_old d (l : list A) x i :
  i < vsize l -> vget d (l ++ [x]) i = vget d l i.
Proof.
  unfold vget, vsize. intros Hi.
  destruct (Z.ltb_spec i 0); auto.
  apply app_nth1. lia.
Qed.

Lemma vget_snoc_new d (l : list A) x : vget d (l ++ [x]) (vsize l) = x.
Proof.
  unfold vget, vsize.
  destruct (Z.ltb_spec (Z.of_nat (length l)) 0); try lia.
  rewrite Nat2Z.id, app_nth2, Nat.sub_diag; auto.
Qed.

Lemma vsize_snoc (l : list A) x : vsize (l ++ [x]) = vsize l + 1.
Proof. unfold vsize. rewrite length_app. simpl. lia. Qed.

Lemma vsize_removelast (l : list A) :
  l <> [] -> vsize (removelast l) = vsize l - 1.
Proof.
  unfold vsize. intros Hl.
  destruct (exists_last Hl) as (l' & a & ->).
  rewrite removelast_last, length_app. simpl. lia.
Qed.

Lemma vget_removelast d (l : list A) i :
  i < vsize l - 1 -> vget d (removelast l) i = vget d l i.
Proof.
  intros Hi. destruct l as [|h t].
  - reflexivity.
  - destruct (@exists_last _ (h :: t)) as (l' & a & E); [discriminate|].
    rewrite E in *. rewrite removelast_last.
    rewrite vsize_snoc in Hi. symmetry. apply vget_snoc_old. lia.
Qed.

Lemma last_vget d (l : list A) : last l d = vget d l (vsize l - 1).
Proof.
  destruct l as [|h t].
  - reflexivity.
  - destruct (@exists_last _ (h :: t)) as (l' & a & E); [discriminate|].
    rewrite E. rewrite last_last, vsize_snoc.
    replace (vsize l' + 1 - 1) with (vsize l') by lia.
    now rewrite vget_snoc_new.
Qed.

Lemma vget_In d (l : list A) i : 0 <= i < vsize l -> In (vget d l i) l.
Proof.
  unfold vget, vsize. intros Hi.
  destruct (Z.ltb_spec i 0); try lia.
  apply nth_In. lia.
Qed.

Lemma In_vget d (l : list A) x :
  In x l -> exists i, 0 <= i < vsize l /\ vget d l i = x.
Proof.
  intros Hx. destruct (In_nth _ _ d Hx) as (m & Hm & E).
  exists (Z.of_nat m). unfold vget, vsize. split; [lia|].
  destruct (Z.ltb_spec (Z.of_nat m) 0); try lia.
  now rewrite Nat2Z.id.
Qed.

Lemma vsize_nonneg (l : list A) : 0 <= vsize l.
Proof. unfold vsize. lia. Qed.

Lemma vsize_repeat (x : A) m : vsize (repeat x m) = Z.of_nat m.
Proof. unfold vsize. now rewrite repeat_length. Qed.

Lemma vget_repeat d (x : A) m i :
  0 <= i < Z.of_nat m -> vget d (repeat x m) i = x.
Proof.
  intros Hi. apply (repeat_spec m x). apply vget_In.
  rewrite vsize_repeat. lia.
Qed.
End Vectors.

(** [for (int i = 0; i < m; ++i)] ranges over [range m]. *)
Definition range (m : Z) : list Z := map Z.of_nat (seq 0 (Z.to_nat m)).

Lemma In_range m i : In i (range m) <-> 0 <= i < m.
Proof.
  unfold range. rewrite in_map_iff. split.
  - intros (j & <- & Hj). apply in_seq in Hj. lia.
  - intros Hi. exists (Z.to_nat i). split; [lia|]. apply in_seq. lia.
Qed.

Lemma length_range m : length (range m) = Z.to_nat m.
Proof. unfold range. now rewrite length_map, length_seq. Qed.

Lemma NoDup_range m : NoDup (range m).
Proof.
  unfold range. apply Finite.Injective_map_NoDup.
  - intros a b. lia.
  - apply seq_NoDup.
Qed.

Lemma range_succ m : 0 <= m -> range (m + 1) = range m ++ [m].
Proof.
  intros Hm. unfold range.
  replace (Z.to_nat (m + 1)) with (Z.to_nat m + 1)%nat by lia.
  rewrite seq_app, map_app. simpl. f_equal. f_equal. lia.
Qed.

(** Sums and counts over vectors of [int]. *)
Definition zsum (l : list Z) : Z := fold_right Z.add 0 l.

Definition countb {A} (p : A -> bool) (l : list A) : Z :=
  zsum (map (fun x => if p x then 1 else 0) l).

Lemma zsum_app l1 l2 : zsum (l1 ++ l2) = zsum l1 + zsum l2.
Proof. induction l1 as [|h t IH]; simpl; lia. Qed.

Lemma countb_nil {A} (p : A -> bool) : countb p [] = 0.
Proof. reflexivity. Qed.

Lemma countb_cons {A} (p : A -> bool) x l :
  countb p (x :: l) = (if p x then 1 else 0) + countb p l.
Proof. reflexivity. Qed.

Lemma countb_app {A} (p : A -> bool) l1 l2 :
  countb p (l1 ++ l2) = countb p l1 + countb p l2.
Proof. unfold countb. now rewrite map_app, zsum_app. Qed.

Lemma countb_nonneg {A} (p : A -> bool) l : 0 <= countb p l.
Proof.
  induction l as [|h t IH]; [unfold countb; simpl; lia|].
  rewrite countb_cons. destruct (p h); lia.
Qed.

Lemma countb_ext {A} (p q : A -> bool) l :
  (forall x, In x l -> p x = q x) -> countb p l = countb q l.
Proof.
  induction l as [|h t IH]; intros H; [reflexivity|].
  rewrite !countb_cons, IH, (H h); auto; simpl; auto.
  intros x Hx. apply H. now right.
Qed.

(** ** Outcomes of the loader

    [Done] is a normal return.  [Exit1] is the process leaving with exit code 1
    ([die], or an exception caught by [main]).  [Undefined] marks undefined
    behaviour of the C++ program (a vector indexed out of range, an [int] read
    after a failed extraction). *)
Inductive outcome (A : Type) : Type :=
| Done (a : A)
| Exit1
| Undefined.
Arguments Exit1 {A}.
Arguments Undefined {A}.

(** ** Instance *)

Record Instance : Type := mkInstance {
  inst_n : Z;
  edges : list (Z * Z);
  adj : list (list Z);
  degree : list Z;
  max_degree : Z }.

Definition in_bounds (m a : Z) : bool := (0 <=? a) && (a <? m).

(** One turn of the loop of [Instance::build_adj]. *)
Definition add_edge (acc : outcome Instance) (e : Z * Z) : outcome Instance :=
  match acc with
  | Done ins =>
      let a := fst e in
      let b := snd e in
      if in_bounds (inst_n ins) a && in_bounds (inst_n ins) b then
        let adj1 := vset (adj ins) a (vget [] (adj ins) a ++ [b]) in
        let adj2 := vset adj1 b (vget [] adj1 b ++ [a]) in
        let deg1 := vset (degree ins) a (vget 0 (degree ins) a + 1) in
        let deg2 := vset deg1 b (vget 0 deg1 b + 1) in
        let md1 := if vget 0 deg2 a >? max_degree ins
                   then vget 0 deg2 a else max_degree ins in
        let md2 := if vget 0 deg2 b >? md1 then vget 0 deg2 b else md1 in
        Done (mkInstance (inst_n ins) (edges ins) adj2 deg2 md2)
      else Undefined
  | Exit1 => Exit1
  | Undefined => Undefined
  end.

(** [Instance::build_adj].  [adj.assign(n, {})] with a negative [n] asks for
    more than [max_size()] elements and throws [std::length_error], which
    [main] catches. *)
Definition build_adj (ins : Instance) : outcome Instance :=
  if inst_n ins <? 0 then Exit1
  else
    let m := Z.to_nat (inst_n ins) in
    fold_left add_edge (edges ins)
      (Done (mkInstance (inst_n ins) (edges ins) (repeat [] m) (repeat 0 m)
               (max_degree ins))).

(** The instance file as the stream extractions see it: the two integers of
    the header ([None] when they cannot be read) and the pairs that follow. *)
Record InstanceFile : Type := mkFile {
  header : option (Z * Z);
  body : list (Z * Z) }.

Definition to_zero_based (e : Z * Z) : Z * Z := (fst e - 1, snd e - 1).

(** [read_instance]; the argument is [None] when the file cannot be opened. *)
Definition read_instance (f : option InstanceFile) : outcome Instance :=
  match f with
  | None => Exit1
  | Some file =>
      match header file with
      | None => Exit1
      | Some (n0, kpairs) =>
          if kpairs <? 0 then Exit1
          else if Z.of_nat (length (body file)) <? kpairs then Undefined
          else
            build_adj
              (mkInstance n0
                 (map to_zero_based (firstn (Z.to_nat kpairs) (body file)))
                 [] [] 0)
      end
  end.

(** Two pairs denote the same undirected edge. *)
Definition same_edge (e1 e2 : Z * Z) : bool :=
  ((fst e1 =? fst e2) && (snd e1 =? snd e2))
  || ((fst e1 =? snd e2) && (snd e1 =? fst e2)).

Fixpoint no_duplicate_edges (l : list (Z * Z)) : bool :=
  match l with
  | [] => true
  | e :: t => negb (existsb (same_edge e) t) && no_duplicate_edges t
  end.

Definition no_self_loops (l : list (Z * Z)) : bool :=
  forallb (fun e => negb (fst e =? snd e)) l.

(** The neighbours that the edge list gives to [v], in the order in which
    [build_adj] appends them. *)
Definition nbrs_of (v : Z) (E : list (Z * Z)) : list Z :=
  flat_map (fun e => (if fst e =? v then [snd e] else [])
                     ++ (if snd e =? v then [fst e] else [])) E.

(** ** Randomness

    [mt19937 seed] is [std::mt19937 rng(seed)], [uniform_int lo hi g] is one
    draw of [std::uniform_int_distribution<int>(lo, hi)] from [g], and
    [shuffle l g] is [std::shuffle] over the whole of [l].  The two laws are
    the contracts of the standard library. *)
Class RandomEngine : Type := mkRandomEngine {
  Rng : Type;
  mt19937 : Z -> Rng;
  uniform_int : Z -> Z -> Rng -> Z * Rng;
  shuffle : list Z -> Rng -> list Z * Rng;
  uniform_int_range :
    forall lo hi g, lo <= hi -> lo <= fst (uniform_int lo hi g) <= hi;
  shuffle_perm : forall l g, Permutation (fst (shuffle l g)) l }.

(** ** Configuration, candidates and results *)

Record TabuConfig : Type := mkTabuConfig {
  max_iter : Z;
  alpha : Q;
  beta : Z;
  perturbation_limit : Z;
  perturbation_strength : Q;
  aspiration : Z }.

(** [cm_type] is 0 for a move (transfer) and 1 for a swap; [cm_target] is the
    colour of a move and the partner vertex of a swap. *)
Record CandidateMove : Type := mkCandidate {
  cm_type : Z;
  cm_v : Z;
  cm_target : Z }.

Record TabuResult : Type := mkResult {
  solved : bool;
  iterations : Z;
  final_obj : Z }.

(** ** SolutionManager *)

Record SolutionManager : Type := mkSM {
  n : Z;
  k : Z;
  color : list Z;
  classSize : list Z;
  conflicts : list Z;
  conflictingVertices : list Z;
  conflictingIndex : list Z;
  obj : Z;
  floor_size : Z;
  big_size : Z;
  tabu_matrix : list (list Z) }.

Definition set_color (s : SolutionManager) (x : list Z) : SolutionManager :=
  mkSM (n s) (k s) x (classSize s) (conflicts s) (conflictingVertices s)
    (conflictingIndex s) (obj s) (floor_size s) (big_size s) (tabu_matrix s).

Definition set_classSize (s : SolutionManager) (x : list Z) : SolutionManager :=
  mkSM (n s) (k s) (color s) x (conflicts s) (conflictingVertices s)
    (conflictingIndex s) (obj s) (floor_size s) (big_size s) (tabu_matrix s).

Definition set_conflicts (s : SolutionManager) (x : list Z) : SolutionManager :=
  mkSM (n s) (k s) (color s) (classSize s) x (conflictingVertices s)
    (conflictingIndex s) (obj s) (floor_size s) (big_size s) (tabu_matrix s).

Definition set_conflictingList (s : SolutionManager) (cv ci : list Z)
  : SolutionManager :=
  mkSM (n s) (k s) (color s) (classSize s) (conflicts s) cv ci (obj s)
    (floor_size s) (big_size s) (tabu_matrix s).

Definition set_obj (s : SolutionManager) (x : Z) : SolutionManager :=
  mkSM (n s) (k s) (color s) (classSize s) (conflicts s)
    (conflictingVertices s) (conflictingIndex s) x (floor_size s)
    (big_size s) (tabu_matrix s).

Definition set_tabu_matrix (s : SolutionManager) (x : list (list Z))
  : SolutionManager :=
  mkSM (n s) (k s) (color s) (classSize s) (conflicts s)
    (conflictingVertices s) (conflictingIndex s) (obj s) (floor_size s)
    (big_size s) x.

(** [SolutionManager::init]; [/] of C++ truncates, hence [Z.quot]. *)
Definition init (ins : Instance) (K : Z) : SolutionManager :=
  let n0 := inst_n ins in
  let k0 := if K =? -1 then max_degree ins + 1 else K in
  mkSM n0 k0
    (repeat (-1) (Z.to_nat n0))
    (repeat 0 (Z.to_nat k0))
    (repeat 0 (Z.to_nat n0))
    []
    (repeat (-1) (Z.to_nat n0))
    0
    (Z.quot n0 k0)
    (Z.quot n0 k0 + 1)
    [].

(** [std::fill(v.begin(), v.end(), x)]. *)
Definition fill {A} (l : list A) (x : A) : list A := repeat x (length l).

(** The first statements of both constructions: every vector is cleared. *)
Definition clear_state (s : SolutionManager) : SolutionManager :=
  mkSM (n s) (k s) (fill (color s) (-1)) (fill (classSize s) 0)
    (fill (conflicts s) 0) [] (fill (conflictingIndex s) (-1)) 0
    (floor_size s) (big_size s) (tabu_matrix s).

(** [init_tabu]: an [n] by [k] table of zeros. *)
Definition init_tabu (s : SolutionManager) : SolutionManager :=
  set_tabu_matrix s (repeat (repeat 0 (Z.to_nat (k s))) (Z.to_nat (n s))).

Definition tabu_at (s : SolutionManager) (v c : Z) : Z :=
  vget 0 (vget [] (tabu_matrix s) v) c.

(** [tabu_matrix[v][c] = x]. *)
Definition tabu_write (s : SolutionManager) (v c x : Z) : SolutionManager :=
  set_tabu_matrix s
    (vset (tabu_matrix s) v (vset (vget [] (tabu_matrix s) v) c x)).

(** [update_conflict_status]: constant-time insertion into and removal from
    [conflictingVertices]. *)
Definition update_conflict_status (s : SolutionManager) (x : Z)
  : SolutionManager :=
  if vget 0 (conflicts s) x >? 0 then
    if vget 0 (conflictingIndex s) x =? -1 then
      set_conflictingList s
        (conflictingVertices s ++ [x])
        (vset (conflictingIndex s) x (vsize (conflictingVertices s)))
    else s
  else
    if negb (vget 0 (conflictingIndex s) x =? -1) then
      let idx := vget 0 (conflictingIndex s) x in
      let lastVal := last (conflictingVertices s) 0 in
      let cv1 := vset (conflictingVertices s) idx lastVal in
      let ci1 := vset (conflictingIndex s) lastVal idx in
      set_conflictingList s (removelast cv1) (vset ci1 x (-1))
    else s.

(** The body shared by the two loops of [apply_move] once the colour test
    has passed: [d] is [-1] in the first loop and [+1] in the second. *)
Definition bump_edge (d v : Z) (s : SolutionManager) (u : Z)
  : SolutionManager :=
  let s1 := set_obj s (obj s + d) in
  let s2 := set_conflicts s1 (vset (conflicts s1) v (vget 0 (conflicts s1) v + d)) in
  let s3 := update_conflict_status s2 v in
  let s4 := set_conflicts s3 (vset (conflicts s3) u (vget 0 (conflicts s3) u + d)) in
  update_conflict_status s4 u.

Definition bump_loop (d v c : Z) (nbrs : list Z) (s : SolutionManager)
  : SolutionManager :=
  fold_left
    (fun a u => if vget 0 (color a) u =? c then bump_edge d v a u else a)
    nbrs s.

Section Solver.
Context {RE : RandomEngine}.
Variable inst : Instance.

Definition adj_of (v : Z) : list Z := vget [] (adj inst) v.

(** [recompute_objective_slow]. *)
Definition recompute_objective_slow (s : SolutionManager) : Z :=
  Z.quot
    (zsum (map (fun v =>
                  countb (fun u => vget 0 (color s) v =? vget 0 (color s) u)
                    (adj_of v))
             (range (n s))))
    2.

(** [get_move_delta]. *)
Definition get_move_delta (s : SolutionManager) (v old_c new_c : Z) : Z :=
  fold_left
    (fun delta u =>
       let c_u := vget 0 (color s) u in
       if c_u =? -1 then delta
       else if c_u =? old_c then delta - 1
       else if c_u =? new_c then delta + 1
       else delta)
    (adj_of v) 0.

(** [get_swap_delta]. *)
Definition get_swap_delta (s : SolutionManager) (v u : Z) : Z :=
  let c_v := vget 0 (color s) v in
  let c_u := vget 0 (color s) u in
  if c_v =? c_u then 0
  else
    let delta1 :=
      fold_left
        (fun delta w =>
           if w =? u then delta
           else
             let c_w := vget 0 (color s) w in
             if c_w =? c_v then delta - 1
             else if c_w =? c_u then delta + 1
             else delta)
        (adj_of v) 0 in
    fold_left
      (fun delta w =>
         if w =? v then delta
         else
           let c_w := vget 0 (color s) w in
           if c_w =? c_u then delta - 1
           else if c_w =? c_v then delta + 1
           else delta)
      (adj_of u) delta1.

(** [apply_move]. *)
Definition apply_move (s : SolutionManager) (v new_c : Z) : SolutionManager :=
  let old_c := vget 0 (color s) v in
  let s1 := set_color s (vset (color s) v new_c) in
  let s2 :=
    set_classSize s1
      (vset (classSize s1) old_c (vget 0 (classSize s1) old_c - 1)) in
  let s3 :=
    set_classSize s2
      (vset (classSize s2) new_c (vget 0 (classSize s2) new_c + 1)) in
  let s4 := bump_loop (-1) v old_c (adj_of v) s3 in
  bump_loop 1 v new_c (adj_of v) s4.

(** [apply_swap_safe]. *)
Definition apply_swap_safe (s : SolutionManager) (v u : Z) : SolutionManager :=
  let c_v := vget 0 (color s) v in
  let c_u := vget 0 (color s) u in
  apply_move (apply_move s v c_u) u c_v.

(** *** Greedy constructions *)

(** [conflictingIndex[x] = conflictingVertices.size();
     conflictingVertices.push_back(x)], guarded as in the constructions. *)
Definition greedy_enlist (s : SolutionManager) (x : Z) : SolutionManager :=
  if (vget 0 (conflicts s) x =? 1) && (vget 0 (conflictingIndex s) x =? -1)
  then
    set_conflictingList s
      (conflictingVertices s ++ [x])
      (vset (conflictingIndex s) x (vsize (conflictingVertices s)))
  else s.

(** The incremental conflict update for the freshly coloured [v], one
    neighbour [u] at a time. *)
Definition greedy_link (v chosenColor : Z) (s : SolutionManager) (u : Z)
  : SolutionManager :=
  if negb (vget 0 (color s) u =? -1) then
    if vget 0 (color s) u =? chosenColor then
      let s1 := set_obj s (obj s + 1) in
      let s2 :=
        set_conflicts s1 (vset (conflicts s1) v (vget 0 (conflicts s1) v + 1)) in
      let s3 :=
        set_conflicts s2 (vset (conflicts s2) u (vget 0 (conflicts s2) u + 1)) in
      greedy_enlist (greedy_enlist s3 v) u
    else s
  else s.

(** The set [I] of classes that may still grow under the cap [M]. *)
Definition candidate_classes (s : SolutionManager) (M : Z) : list Z :=
  filter (fun c => vget 0 (classSize s) c <=? M - 1) (range (k s)).

(** The smallest colour of [I] that no neighbour of [v] carries. *)
Definition first_fit (s : SolutionManager) (v : Z) (I0 : list Z) : option Z :=
  find (fun c => negb (existsb (fun u => vget 0 (color s) u =? c) (adj_of v)))
    I0.

(** The fallback of [construct_greedy_initial] when [I] is empty: the first
    class of least size. *)
Definition smallest_class (s : SolutionManager) : Z :=
  fold_left
    (fun chosen c =>
       if vget 0 (classSize s) c <? vget 0 (classSize s) chosen
       then c else chosen)
    (tl (range (k s))) 0.

(** The fallback of [construct_greedy_from_previous]. *)
Definition class_zero (s : SolutionManager) : Z := 0.

(** The colour that a turn of the loop chooses for [v] under the cap [M]:
    the first fit in [I], else a random element of [I], else the fallback. *)
Definition choose_color (fallback : SolutionManager -> Z)
  (s : SolutionManager) (v M : Z) (g : Rng) : Z * Rng :=
  let I0 := candidate_classes s M in
  match first_fit s v I0 with
  | Some c => (c, g)
  | None =>
      match I0 with
      | [] => (fallback s, g)
      | _ :: _ =>
          let '(i, g1) := uniform_int 0 (vsize I0 - 1) g in
          (vget 0 I0 i, g1)
      end
  end.

(** [color[v] = chosenColor; classSize[chosenColor]++]. *)
Definition assign_color (s : SolutionManager) (v chosenColor : Z)
  : SolutionManager :=
  let s1 := set_color s (vset (color s) v chosenColor) in
  set_classSize s1
    (vset (classSize s1) chosenColor
       (vget 0 (classSize s1) chosenColor + 1)).

(** One turn of the loop over the vertices still to colour.  The accumulator
    is the state, [current_r] and the generator. *)
Definition greedy_place (fallback : SolutionManager -> Z) (floor_nk max_r : Z)
  (acc : SolutionManager * Z * Rng) (v : Z) : SolutionManager * Z * Rng :=
  let '(s, current_r, g) := acc in
  let M := if current_r <? max_r then floor_nk + 1 else floor_nk in
  let '(chosenColor, g') := choose_color fallback s v M g in
  let s2 := assign_color s v chosenColor in
  let current_r' :=
    if vget 0 (classSize s2) chosenColor =? floor_nk + 1
    then current_r + 1 else current_r in
  (fold_left (greedy_link v chosenColor) (adj_of v) s2, current_r', g').

(** [construct_greedy_initial]. *)
Definition construct_greedy_initial (s : SolutionManager) (seed : Z)
  : SolutionManager :=
  let s0 := clear_state s in
  let floor_nk := Z.quot (n s0) (k s0) in
  let max_r := n s0 - k s0 * floor_nk in
  let '(vertices, g1) := shuffle (range (n s0)) (mt19937 seed) in
  fst (fst (fold_left (greedy_place smallest_class floor_nk max_r) vertices
              (s0, 0, g1))).

(** Step 3 of the warm start: survivors keep their class under the new
    numbering, the vertices of the removed class are set aside. *)
Definition transfer_vertex (prevSol : SolutionManager) (removed_color : Z)
  (color_map : list Z) (acc : SolutionManager * list Z) (v : Z)
  : SolutionManager * list Z :=
  let '(s, uncolored_vertices) := acc in
  let old_c := vget 0 (color prevSol) v in
  if old_c =? removed_color then (s, uncolored_vertices ++ [v])
  else
    let new_c := vget 0 color_map old_c in
    let s1 := set_color s (vset (color s) v new_c) in
    (set_classSize s1
       (vset (classSize s1) new_c (vget 0 (classSize s1) new_c + 1)),
     uncolored_vertices).

(** Step 4 of the warm start: conflicts are inherited, and the edges inside
    the removed class leave the objective, once each. *)
Definition inherit_conflicts (prevSol : SolutionManager) (removed_color : Z)
  (s : SolutionManager) (v : Z) : SolutionManager :=
  let old_c := vget 0 (color prevSol) v in
  if old_c =? removed_color then
    let s1 :=
      if vget 0 (conflicts prevSol) v >? 0 then
        fold_left
          (fun a u =>
             if (u >? v) && (vget 0 (color prevSol) u =? removed_color)
             then set_obj a (obj a - 1) else a)
          (adj_of v) s
      else s in
    let s2 := set_conflicts s1 (vset (conflicts s1) v 0) in
    set_conflictingList s2 (conflictingVertices s2)
      (vset (conflictingIndex s2) v (-1))
  else
    let s1 :=
      set_conflicts s (vset (conflicts s) v (vget 0 (conflicts prevSol) v)) in
    if vget 0 (conflicts s1) v >? 0 then
      set_conflictingList s1
        (conflictingVertices s1 ++ [v])
        (vset (conflictingIndex s1) v (vsize (conflictingVertices s1)))
    else
      set_conflictingList s1 (conflictingVertices s1)
        (vset (conflictingIndex s1) v (-1)).

(** [construct_greedy_from_previous]; [s] is [*this], already initialised
    for the target [k]. *)
Definition construct_greedy_from_previous (s prevSol : SolutionManager)
  (seed : Z) : SolutionManager :=
  let s0 := clear_state s in
  let prev_k := k prevSol in
  let '(perm, g1) := shuffle (range prev_k) (mt19937 seed) in
  let removed_color := vget 0 perm (prev_k - 1) in
  let color_map :=
    fold_left (fun m i => vset m (vget 0 perm i) i) (range (prev_k - 1))
      (repeat (-1) (Z.to_nat prev_k)) in
  let '(s1, uncolored_vertices) :=
    fold_left (transfer_vertex prevSol removed_color color_map)
      (range (n s0)) (s0, []) in
  let s2 := set_obj s1 (obj prevSol) in
  let s3 :=
    fold_left (inherit_conflicts prevSol removed_color) (range (n s0)) s2 in
  let floor_nk := Z.quot (n s0) (k s0) in
  let max_r := n s0 - k s0 * floor_nk in
  let current_r :=
    countb (fun c => vget 0 (classSize s3) c >=? floor_nk + 1)
      (range (k s0)) in
  let '(order, g2) := shuffle uncolored_vertices g1 in
  fst (fst (fold_left (greedy_place class_zero floor_nk max_r) order
              (s3, current_r, g2))).

(** *** The tabu engine *)

(** The loop variables of [run_tabu_search]; [st] is [*this]. *)
Record LoopState : Type := mkLoop {
  st : SolutionManager;
  rng : Rng;
  best_obj_found : Z;
  iter : Z;
  no_improve_iter : Z }.

(** The tie pool: [best_delta] and [candidates].  ([move_type], [best_v] and
    [best_u_or_color] are overwritten from the chosen candidate before they
    are read, so the scan does not carry them.) *)
Definition offer (delta : Z) (c : CandidateMove)
  (pool : Z * list CandidateMove) : Z * list CandidateMove :=
  let '(best_delta, candidates) := pool in
  if delta <? best_delta then (delta, [c])
  else if delta =? best_delta then (best_delta, candidates ++ [c])
  else pool.

(** [is_tabu] of a transfer of [v] to class [j]. *)
Definition transfer_is_tabu (s : SolutionManager) (it v j : Z) : bool :=
  tabu_at s v j >? it.

(** [is_tabu] of a swap of [v] and [u]. *)
Definition swap_is_tabu (s : SolutionManager) (it v u : Z) : bool :=
  let c_v := vget 0 (color s) v in
  let c_u := vget 0 (color s) u in
  (tabu_at s v c_u >? it) || (tabu_at s u c_v >? it).

(** The test in front of the pool for a transfer:
    [!is_tabu || (aspiration && config.aspiration)]. *)
Definition transfer_admitted (cfg : TabuConfig) (s : SolutionManager)
  (it best : Z) (v j : Z) : bool :=
  let delta := get_move_delta s v (vget 0 (color s) v) j in
  let asp := obj s + delta <? best in
  negb (transfer_is_tabu s it v j) || (asp && negb (aspiration cfg =? 0)).

(** The test in front of the pool for a swap: [!is_tabu || aspiration]. *)
Definition swap_admitted (cfg : TabuConfig) (s : SolutionManager)
  (it best : Z) (v u : Z) : bool :=
  let delta := get_swap_delta s v u in
  let asp := obj s + delta <? best in
  negb (swap_is_tabu s it v u) || asp.

Definition scan_transfers (cfg : TabuConfig) (s : SolutionManager)
  (it best : Z) (pool : Z * list CandidateMove) : Z * list CandidateMove :=
  fold_left
    (fun pool_v v =>
       let c_v := vget 0 (color s) v in
       if vget 0 (classSize s) c_v =? big_size s then
         fold_left
           (fun pool_j j =>
              if vget 0 (classSize s) j =? floor_size s then
                if transfer_admitted cfg s it best v j
                then offer (get_move_delta s v c_v j) (mkCandidate 0 v j) pool_j
                else pool_j
              else pool_j)
           (range (k s)) pool_v
       else pool_v)
    (conflictingVertices s) pool.

(** The three [continue] tests of the swap scan, negated. *)
Definition swap_considered (s : SolutionManager) (v u : Z) : bool :=
  let c_v := vget 0 (color s) v in
  let c_u := vget 0 (color s) u in
  negb (v =? u) && negb (c_v =? c_u)
  && negb ((vget 0 (conflicts s) u >? 0) && (c_u >? c_v)).

Definition scan_swaps (cfg : TabuConfig) (s : SolutionManager)
  (it best : Z) (pool : Z * list CandidateMove) : Z * list CandidateMove :=
  fold_left
    (fun pool_v v =>
       fold_left
         (fun pool_u u =>
            if swap_considered s v u then
              if swap_admitted cfg s it best v u
              then offer (get_swap_delta s v u) (mkCandidate 1 v u) pool_u
              else pool_u
            else pool_u)
         (range (n s)) pool_v)
    (conflictingVertices s) pool.

(** [(int)x] for a [double] [x]: truncation towards zero. *)
Definition Qtrunc (q : Q) : Z := Z.quot (Qnum q) (Z.pos (Qden q)).

(** The number of turns of [for (int p = 0; p < n * strength; ++p)]. *)
Definition perturbation_attempts (n0 : Z) (strength : Q) : nat :=
  Z.to_nat (Qceiling (inject_Z n0 * strength)).

(** One turn of the perturbation loop. *)
Definition perturb_attempt (acc : SolutionManager * Rng)
  : SolutionManager * Rng :=
  let '(s, g) := acc in
  let '(v1, g1) := uniform_int 0 (n s - 1) g in
  let '(v2, g2) := uniform_int 0 (n s - 1) g1 in
  if negb (v1 =? v2) && negb (vget 0 (color s) v1 =? vget 0 (color s) v2)
  then (apply_swap_safe s v1 v2, g2)
  else (s, g2).

Definition perturb (cfg : TabuConfig) (s : SolutionManager) (g : Rng)
  : SolutionManager * Rng :=
  Nat.iter (perturbation_attempts (n s) (perturbation_strength cfg))
    perturb_attempt (s, g).

(** The perturbation test at the head of an iteration. *)
Definition perturbation_due (cfg : TabuConfig) (L : LoopState) : bool :=
  (no_improve_iter L >=? perturbation_limit cfg)
  && negb (Qle_bool (perturbation_strength cfg) 0).

(** The neighbourhood scan of one iteration. *)
Definition scan (cfg : TabuConfig) (L : LoopState) : Z * list CandidateMove :=
  let s := st L in
  let pool0 := (99999999, []) in
  let pool1 :=
    if negb (Z.rem (n s) (k s) =? 0)
    then scan_transfers cfg s (iter L) (best_obj_found L) pool0
    else pool0 in
  scan_swaps cfg s (iter L) (best_obj_found L) pool1.

(** Section 3 of the loop body: the chosen candidate is applied and its
    reversal is written into the tabu table. *)
Definition execute (s : SolutionManager) (it tenure : Z)
  (chosen : CandidateMove) : SolutionManager :=
  if cm_type chosen =? 0 then
    let v := cm_v chosen in
    let old_c := vget 0 (color s) v in
    let new_c := cm_target chosen in
    tabu_write (apply_move s v new_c) v old_c (it + tenure)
  else
    let v := cm_v chosen in
    let u := cm_target chosen in
    let c_v_old := vget 0 (color s) v in
    let c_u_old := vget 0 (color s) u in
    tabu_write
      (tabu_write (apply_swap_safe s v u) v c_v_old (it + tenure))
      u c_u_old (it + tenure).

Inductive IterationOutcome : Type :=
| TimeIsUp
| NoCandidate
| Continue (L : LoopState).

(** The body of the [while] loop. *)
Definition iteration (cfg : TabuConfig) (is_time_up : Z -> bool)
  (L : LoopState) : IterationOutcome :=
  let s := st L in
  if (Z.rem (iter L) 128 =? 0) && is_time_up (iter L) then TimeIsUp
  else if perturbation_due cfg L then
    let '(s1, g1) := perturb cfg s (rng L) in
    Continue (mkLoop (init_tabu s1) g1 (best_obj_found L) (iter L + 1) 0)
  else
    let candidates := snd (scan cfg L) in
    match candidates with
    | [] => NoCandidate
    | _ :: _ =>
        let '(i, g1) := uniform_int 0 (vsize candidates - 1) (rng L) in
        let chosen := vget (mkCandidate (-1) (-1) (-1)) candidates i in
        let '(d, g2) := uniform_int 0 (beta cfg) g1 in
        let tenure :=
          Qtrunc (alpha cfg * inject_Z (vsize (conflictingVertices s))) + d in
        let s' := execute s (iter L) tenure chosen in
        if obj s' <? best_obj_found L
        then Continue (mkLoop s' g2 (obj s') (iter L + 1) 0)
        else Continue (mkLoop s' g2 (best_obj_found L) (iter L + 1)
                         (no_improve_iter L + 1))
    end.

(** How [run_tabu_search] came to return; a label of the model, not a value
    of the program. *)
Inductive ExitPath : Type :=
| AlreadyOptimal
| PollTimeUp
| Stuck
| LoopConditionFalse.

(** What a call leaves behind: the returned [TabuResult], [*this], and, as
    labels of the model, the exit path and the value of [iter] on return. *)
Record RunOutput : Type := mkOut {
  exit_path : ExitPath;
  result : TabuResult;
  final_state : SolutionManager;
  executed_iter : Z }.

(** The statements after the loop. *)
Definition finish (path : ExitPath) (L : LoopState) : RunOutput :=
  mkOut path
    (mkResult (best_obj_found L =? 0) (iter L) (best_obj_found L))
    (st L) (iter L).

(** The [while] loop; [None] only when the fuel runs out. *)
Fixpoint tabu_loop (cfg : TabuConfig) (is_time_up : Z -> bool)
  (result0 : TabuResult) (fuel : nat) (L : LoopState) : option RunOutput :=
  if (iter L <? max_iter cfg) && (obj (st L) >? 0) then
    match fuel with
    | O => None
    | S fuel' =>
        match iteration cfg is_time_up L with
        | TimeIsUp => Some (mkOut PollTimeUp result0 (st L) (iter L))
        | NoCandidate => Some (finish Stuck L)
        | Continue L' => tabu_loop cfg is_time_up result0 fuel' L'
        end
    end
  else Some (finish LoopConditionFalse L).

(** [run_tabu_search]. *)
Definition run_tabu_search (cfg : TabuConfig) (is_time_up : Z -> bool)
  (seed : Z) (s : SolutionManager) : option RunOutput :=
  let result0 := mkResult false 0 (obj s) in
  if obj s =? 0 then Some (mkOut AlreadyOptimal (mkResult true 0 (obj s)) s 0)
  else
    let s1 := init_tabu s in
    tabu_loop cfg is_time_up result0 (Z.to_nat (max_iter cfg))
      (mkLoop s1 (mt19937 seed) (obj s1) 0 0).

End Solver.

(** ** A scripted random engine

    The generator state is the tape of raw values still to come (an exhausted
    tape yields zeros).  A bounded draw reduces the next raw value into its
    range; the shuffle draws, one after the other, the position of the next
    element among those not yet taken.  Every sequence of in-range draws and
    every permutation arises from some tape. *)

Definition scripted_draw (lo hi : Z) (g : list Z) : Z * list Z :=
  (lo + Z.modulo (hd 0 g) (hi - lo + 1), tl g).

Fixpoint scripted_pick (fuel : nat) (rest : list Z) (g : list Z)
  : list Z * list Z :=
  match fuel, rest with
  | S fuel', _ :: _ =>
      let i := Z.to_nat (Z.modulo (hd 0 g) (Z.of_nat (length rest))) in
      let '(out, g') :=
        scripted_pick fuel' (firstn i rest ++ skipn (S i) rest) (tl g) in
      (nth i rest 0 :: out, g')
  | _, _ => ([], g)
  end.

Definition scripted_shuffle (l : list Z) (g : list Z) : list Z * list Z :=
  scripted_pick (length l) l g.

Lemma scripted_draw_range lo hi g :
  lo <= hi -> lo <= fst (scripted_draw lo hi g) <= hi.
Proof.
  intros H. unfold scripted_draw. simpl.
  pose proof (Z.mod_pos_bound (hd 0 g) (hi - lo + 1)). lia.
Qed.

Lemma take_out_perm (l : list Z) : forall i,
  (i < length l)%nat ->
  Permutation (nth i l 0 :: firstn i l ++ skipn (S i) l) l.
Proof.
  induction l as [|h t IH]; intros [|i] Hi; simpl in *; try lia.
  - apply Permutation_refl.
  - eapply perm_trans; [apply perm_swap|].
    apply perm_skip. apply IH. lia.
Qed.

Lemma scripted_pick_perm fuel : forall rest g,
  length rest = fuel -> Permutation (fst (scripted_pick fuel rest g)) rest.
Proof.
  induction fuel as [|fuel IH]; intros rest g Hlen.
  - destruct rest; [constructor|discriminate].
  - destruct rest as [|x rest]; [discriminate|].
    cbn [scripted_pick].
    remember (Z.to_nat (Z.modulo (hd 0 g) (Z.of_nat (length (x :: rest)))))
      as i eqn:Ei.
    assert (Hi : (i < length (x :: rest))%nat).
    { subst i.
      pose proof (Z.mod_pos_bound (hd 0 g) (Z.of_nat (length (x :: rest)))).
      simpl length in *. lia. }
    assert (Hlen' :
      length (firstn i (x :: rest) ++ skipn (S i) (x :: rest)) = fuel).
    { rewrite length_app, length_firstn, length_skipn.
      simpl length in *. lia. }
    specialize (IH _ (tl g) Hlen').
    destruct (scripted_pick fuel
                (firstn i (x :: rest) ++ skipn (S i) (x :: rest)) (tl g))
      as [out g'] eqn:E.
    simpl fst in *.
    eapply perm_trans; [apply perm_skip; exact IH|].
    exact (take_out_perm (x :: rest) Hi).
Qed.

Lemma scripted_shuffle_perm l g : Permutation (fst (scripted_shuffle l g)) l.
Proof. apply scripted_pick_perm. reflexivity. Qed.

(** The engine whose generator, whatever the seed, plays [tape]. *)
Definition Scripted (tape : list Z) : RandomEngine :=
  mkRandomEngine (fun _ => tape) scripted_draw scripted_shuffle
    scripted_draw_range scripted_shuffle_perm.

(** * The loader *)

Lemma fold_add_edge_Exit1 es : fold_left add_edge es Exit1 = Exit1.
Proof. induction es; simpl; auto. Qed.

Lemma fold_add_edge_Undefined es : fold_left add_edge es Undefined = Undefined.
Proof. induction es; simpl; auto. Qed.

Lemma in_bounds_spec m a : in_bounds m a = true <-> 0 <= a < m.
Proof. unfold in_bounds. rewrite andb_true_iff. lia. Qed.

(** What the loop of [build_adj] computes from a well-sized adjacency: the
    header is untouched, every edge was in range, and each row grows by the
    neighbours that the edges give it, in order. *)
Lemma fold_add_edge_spec es : forall i0 i1,
  vsize (adj i0) = inst_n i0 ->
  fold_left add_edge es (Done i0) = Done i1 ->
  inst_n i1 = inst_n i0 /\ edges i1 = edges i0
  /\ vsize (adj i1) = inst_n i0
  /\ (forall e, In e es -> 0 <= fst e < inst_n i0 /\ 0 <= snd e < inst_n i0)
  /\ (forall v, 0 <= v < inst_n i0 ->
        vget [] (adj i1) v = vget [] (adj i0) v ++ nbrs_of v es).
Proof.
  induction es as [|[a b] es IH]; intros i0 i1 Hsz H.
  - simpl in H. injection H as <-.
    split; [|split; [|split; [|split]]]; auto.
    + intros e [].
    + intros v _. simpl. now rewrite app_nil_r.
  - simpl in H.
    destruct (in_bounds (inst_n i0) a && in_bounds (inst_n i0) b) eqn:Eb.
    2:{ rewrite fold_add_edge_Undefined in H. discriminate. }
    apply andb_true_iff in Eb as [Ha Hb].
    apply in_bounds_spec in Ha, Hb.
    apply IH in H; simpl; [|now rewrite !vsize_vset].
    simpl in H. destruct H as (Hn & He & Hs & Hin & Hadj).
    split; [|split; [|split; [|split]]]; auto.
    + intros e [<-|H]; simpl; [lia|]. now apply Hin.
    + intros v Hv. rewrite (Hadj v Hv). simpl.
      rewrite app_assoc. f_equal.
      destruct (Z.eqb_spec b v) as [->|Hbv].
      * rewrite vget_vset_same by (rewrite vsize_vset; lia).
        destruct (Z.eqb_spec a v) as [->|Hav].
        -- rewrite vget_vset_same by lia. now rewrite <- app_assoc.
        -- rewrite vget_vset_other by auto. reflexivity.
      * rewrite vget_vset_other by auto.
        destruct (Z.eqb_spec a v) as [->|Hav].
        -- rewrite vget_vset_same by lia. now rewrite app_nil_r.
        -- rewrite vget_vset_other by auto. now rewrite !app_nil_r.
Qed.

Lemma build_adj_spec i0 i1 :
  build_adj i0 = Done i1 ->
  0 <= inst_n i1 /\ inst_n i1 = inst_n i0 /\ edges i1 = edges i0
  /\ vsize (adj i1) = inst_n i1
  /\ (forall e, In e (edges i1) ->
        0 <= fst e < inst_n i1 /\ 0 <= snd e < inst_n i1)
  /\ (forall v, 0 <= v < inst_n i1 ->
        vget [] (adj i1) v = nbrs_of v (edges i1)).
Proof.
  unfold build_adj.
  destruct (Z.ltb_spec (inst_n i0) 0) as [|Hn]; [discriminate|].
  intros H. apply fold_add_edge_spec in H.
  2:{ simpl. rewrite vsize_repeat. lia. }
  simpl in H. destruct H as (Hn1 & He & Hs & Hin & Hadj).
  rewrite Hn1, He.
  split; [|split; [|split; [|split; [|split]]]]; auto; try lia.
  intros v Hv. rewrite (Hadj v Hv).
  rewrite vget_repeat by lia. reflexivity.
Qed.

Lemma same_edge_to_zero_based e1 e2 :
  same_edge (to_zero_based e1) (to_zero_based e2) = same_edge e1 e2.
Proof.
  unfold same_edge, to_zero_based. simpl.
  repeat match goal with
         | |- context [?x - 1 =? ?y - 1] =>
             replace (x - 1 =? y - 1) with (x =? y)
               by (destruct (Z.eqb_spec x y), (Z.eqb_spec (x - 1) (y - 1));
                   auto; lia)
         end.
  reflexivity.
Qed.

Lemma no_duplicate_edges_to_zero_based l :
  no_duplicate_edges (map to_zero_based l) = no_duplicate_edges l.
Proof.
  induction l as [|e t IH]; simpl; auto.
  rewrite IH. f_equal. f_equal.
  clear IH. induction t as [|e' t IH]; simpl; auto.
  now rewrite same_edge_to_zero_based, IH.
Qed.

Lemma no_self_loops_to_zero_based l :
  no_self_loops (map to_zero_based l) = no_self_loops l.
Proof.
  unfold no_self_loops. induction l as [|e t IH]; simpl; auto.
  rewrite IH. f_equal. f_equal.
  destruct (Z.eqb_spec (fst e - 1) (snd e - 1)), (Z.eqb_spec (fst e) (snd e));
    auto; lia.
Qed.

(** The loop of [build_adj] either runs through, every edge having both ends
    in range, or indexes a vector out of range at some edge; it never leaves
    with exit code 1. *)
Lemma fold_add_edge_outcome es : forall i0,
  (exists i1, fold_left add_edge es (Done i0) = Done i1
              /\ forall e, In e es ->
                   0 <= fst e < inst_n i0 /\ 0 <= snd e < inst_n i0)
  \/ (fold_left add_edge es (Done i0) = Undefined
      /\ exists e, In e es
                   /\ ~ (0 <= fst e < inst_n i0 /\ 0 <= snd e < inst_n i0)).
Proof.
  induction es as [|e es IH]; intros i0.
  - left. exists i0. split; [reflexivity|]. intros e [].
  - cbn [fold_left add_edge].
    destruct (in_bounds (inst_n i0) (fst e) && in_bounds (inst_n i0) (snd e))
      eqn:Eb.
    + apply andb_true_iff in Eb as [Ha Hb]. apply in_bounds_spec in Ha, Hb.
      match goal with
      | |- context [fold_left add_edge es (Done ?i)] =>
          destruct (IH i) as [(i1 & E & Hall)|(E & e' & He' & Hout)];
            cbn [inst_n] in *
      end.
      * left. exists i1. split; [exact E|].
        intros e' [<-|He']; [split; assumption|now apply Hall].
      * right. split; [exact E|]. exists e'. split; [now right|exact Hout].
    + right. split; [apply fold_add_edge_Undefined|].
      exists e. split; [now left|]. intros [Ha Hb].
      apply in_bounds_spec in Ha, Hb. rewrite Ha, Hb in Eb. discriminate.
Qed.

(** The three outcomes of [read_instance] on a file whose header was read. *)
Lemma read_instance_outcome file n0 kpairs :
  header file = Some (n0, kpairs) ->
  let counted := firstn (Z.to_nat kpairs) (body file) in
  (read_instance (Some file) = Exit1
   /\ (kpairs < 0
       \/ (0 <= kpairs <= Z.of_nat (length (body file)) /\ n0 < 0)))
  \/ ((exists ins, read_instance (Some file) = Done ins)
      /\ 0 <= n0 /\ 0 <= kpairs <= Z.of_nat (length (body file))
      /\ forall e, In e counted -> 1 <= fst e <= n0 /\ 1 <= snd e <= n0)
  \/ (read_instance (Some file) = Undefined
      /\ 0 <= kpairs
      /\ (Z.of_nat (length (body file)) < kpairs
          \/ (kpairs <= Z.of_nat (length (body file)) /\ 0 <= n0
              /\ exists e, In e counted
                           /\ ~ (1 <= fst e <= n0 /\ 1 <= snd e <= n0)))).
Proof.
  intros Eh counted. unfold read_instance. rewrite Eh.
  destruct (Z.ltb_spec kpairs 0) as [Hk|Hk]; [left; split; [reflexivity|lia]|].
  destruct (Z.ltb_spec (Z.of_nat (length (body file))) kpairs) as [Hl|Hl].
  { right. right. split; [reflexivity|]. split; [lia|]. now left. }
  unfold build_adj. cbn [inst_n edges max_degree].
  destruct (Z.ltb_spec n0 0) as [Hn|Hn]; [left; split; [reflexivity|lia]|].
  fold counted.
  match goal with
  | |- context [fold_left add_edge ?es (Done ?i)] =>
      destruct (fold_add_edge_outcome es i)
        as [(i1 & E & Hall)|(E & e' & He' & Hout)];
        cbn [inst_n] in *; rewrite E
  end.
  - right. left. split; [eauto|]. split; [lia|]. split; [lia|].
    intros e He.
    specialize (Hall (to_zero_based e) (in_map _ _ _ He)).
    unfold to_zero_based in Hall. cbn [fst snd] in Hall. lia.
  - right. right. split; [reflexivity|]. split; [lia|]. right.
    split; [lia|]. split; [lia|].
    apply in_map_iff in He' as (e & <- & He).
    exists e. split; [exact He|].
    unfold to_zero_based in Hout. cbn [fst snd] in Hout. lia.
Qed.

(** C6, as the code has it.  The loader leaves with exit code 1 exactly when
    the file cannot be opened, the header cannot be read, the pair count is
    negative, or [n] is negative (the counted pairs being present); nothing
    else is tested.  A file that holds the [m] pairs it announces, all with
    both ends in [1 .. n], and has [n >= 0] is loaded.  Whenever
    [read_instance] returns an instance, its vertex count is the header's
    and its edge list is exactly the first [m] pairs of the file, each
    endpoint lowered by one, in the order of the file: nothing is removed
    and nothing is rejected, so the instance is free of duplicate edges (of
    self-loops) exactly when those input lines are. *)
Theorem read_instance_keeps_the_input (file : InstanceFile) :
  read_instance None = Exit1
  /\ (read_instance (Some file) = Exit1 <->
      header file = None
      \/ exists n0 kpairs,
           header file = Some (n0, kpairs)
           /\ (kpairs < 0
               \/ (0 <= kpairs <= Z.of_nat (length (body file)) /\ n0 < 0)))
  /\ (forall n0 kpairs,
        header file = Some (n0, kpairs) ->
        0 <= n0 -> 0 <= kpairs <= Z.of_nat (length (body file)) ->
        (forall e, In e (firstn (Z.to_nat kpairs) (body file)) ->
           1 <= fst e <= n0 /\ 1 <= snd e <= n0) ->
        exists ins,
          read_instance (Some file) = Done ins
          /\ inst_n ins = n0
          /\ edges ins
             = map to_zero_based (firstn (Z.to_nat kpairs) (body file))
          /\ no_duplicate_edges (edges ins)
             = no_duplicate_edges (firstn (Z.to_nat kpairs) (body file))
          /\ no_self_loops (edges ins)
             = no_self_loops (firstn (Z.to_nat kpairs) (body file)))
  /\ (forall ins,
        read_instance (Some file) = Done ins ->
        exists n0 kpairs,
          header file = Some (n0, kpairs)
          /\ inst_n ins = n0
          /\ edges ins
             = map to_zero_based (firstn (Z.to_nat kpairs) (body file))
          /\ no_duplicate_edges (edges ins)
             = no_duplicate_edges (firstn (Z.to_nat kpairs) (body file))
          /\ no_self_loops (edges ins)
             = no_self_loops (firstn (Z.to_nat kpairs) (body file))).
Proof.
  assert (Hkeep : forall ins,
             read_instance (Some file) = Done ins ->
             exists n0 kpairs,
               header file = Some (n0, kpairs)
               /\ inst_n ins = n0
               /\ edges ins
                  = map to_zero_based (firstn (Z.to_nat kpairs) (body file))
               /\ no_duplicate_edges (edges ins)
                  = no_duplicate_edges (firstn (Z.to_nat kpairs) (body file))
               /\ no_self_loops (edges ins)
                  = no_self_loops (firstn (Z.to_nat kpairs) (body file))).
  { unfold read_instance.
    destruct (header file) as [[n0 kpairs]|]; [|discriminate].
    destruct (kpairs <? 0); [discriminate|].
    destruct (Z.of_nat (length (body file)) <? kpairs); [discriminate|].
    intros ins H. apply build_adj_spec in H. simpl in H.
    destruct H as (_ & Hn & He & _).
    exists n0, kpairs. rewrite He.
    repeat split; auto.
    - apply no_duplicate_edges_to_zero_based.
    - apply no_self_loops_to_zero_based. }
  split; [reflexivity|]. split; [|split; [|exact Hkeep]].
  - destruct (header file) as [[n0 kpairs]|] eqn:Eh.
    + destruct (@read_instance_outcome file n0 kpairs Eh)
        as [[E H]|[[[ins E] H]|[E H]]]; cbv zeta in *.
      * split; [|intros _; exact E].
        intros _. right. exists n0, kpairs. split; [reflexivity|exact H].
      * rewrite E. split; [discriminate|].
        intros [H'|(n1 & k1 & E' & H')]; [discriminate|].
        injection E' as <- <-. lia.
      * rewrite E. split; [discriminate|].
        intros [H'|(n1 & k1 & E' & H')]; [discriminate|].
        injection E' as <- <-. lia.
    + unfold read_instance. rewrite Eh. split; [now left|reflexivity].
  - intros n0 kpairs Eh Hn Hk Hall.
    destruct (@read_instance_outcome file n0 kpairs Eh)
      as [[_ H]|[[[ins E] _]|[_ H]]]; cbv zeta in *.
    + lia.
    + exists ins. split; [exact E|].
      destruct (Hkeep ins E) as (n1 & k1 & E' & H').
      rewrite Eh in E'. injection E' as <- <-. exact H'.
    + destruct H as [_ [H|(_ & _ & e & He & Hout)]]; [lia|].
      contradiction Hout. now apply Hall.
Qed.

Lemma read_instance_keeps_the_input_witness :
  exists n0 kpairs,
    header (mkFile (Some (4, 1)) [(1, 2)]) = Some (n0, kpairs)
    /\ inst_n (mkInstance 4 [(0, 1)] [[1]; [0]; []; []] [1; 1; 0; 0] 1) = n0
    /\ edges (mkInstance 4 [(0, 1)] [[1]; [0]; []; []] [1; 1; 0; 0] 1)
       = map to_zero_based
           (firstn (Z.to_nat kpairs) (body (mkFile (Some (4, 1)) [(1, 2)])))
    /\ no_duplicate_edges
         (edges (mkInstance 4 [(0, 1)] [[1]; [0]; []; []] [1; 1; 0; 0] 1))
       = no_duplicate_edges
           (firstn (Z.to_nat kpairs) (body (mkFile (Some (4, 1)) [(1, 2)])))
    /\ no_self_loops
         (edges (mkInstance 4 [(0, 1)] [[1]; [0]; []; []] [1; 1; 0; 0] 1))
       = no_self_loops
           (firstn (Z.to_nat kpairs) (body (mkFile (Some (4, 1)) [(1, 2)]))).
Proof.
  apply (proj2 (proj2 (proj2
           (@read_instance_keeps_the_input (mkFile (Some (4, 1)) [(1, 2)]))))).
  vm_compute. reflexivity.
Defined.

(** C6 as stated fails.  A file that repeats an edge (in both orientations) and
    carries a self-loop is loaded without complaint, and the instance keeps
    both flaws; a file with [n = 0] is loaded as well. *)
Lemma read_instance_keeps_flaws :
  exists ins,
    read_instance (Some (mkFile (Some (2, 3)) [(1, 2); (2, 1); (1, 1)]))
    = Done ins
    /\ edges ins = [(0, 1); (1, 0); (0, 0)]
    /\ no_duplicate_edges (edges ins) = false
    /\ no_self_loops (edges ins) = false
    /\ read_instance (Some (mkFile (Some (0, 0)) []))
       = Done (mkInstance 0 [] [] [] 0).
Proof.
  exists (mkInstance 2 [(0, 1); (1, 0); (0, 0)] [[1; 1; 0; 0]; [0; 0]]
            [4; 2] 4).
  vm_compute. repeat split.
Qed.

(** * Graphs that the loader builds *)

Lemma zsum_map_add {A} (f h : A -> Z) l :
  zsum (map (fun x => f x + h x) l) = zsum (map f l) + zsum (map h l).
Proof. induction l as [|x t IH]; simpl; lia. Qed.

Lemma zsum_map_ext {A} (f h : A -> Z) l :
  (forall x, In x l -> f x = h x) -> zsum (map f l) = zsum (map h l).
Proof.
  induction l as [|x t IH]; intros H; simpl; auto.
  rewrite (H x), IH; auto; simpl; auto.
  intros y Hy. apply H. now right.
Qed.

Lemma zsum_map_zero {A} (f : A -> Z) l :
  (forall x, In x l -> f x = 0) -> zsum (map f l) = 0.
Proof.
  induction l as [|x t IH]; intros H; simpl; auto.
  rewrite (H x), IH; simpl; auto. intros y Hy. apply H. now right.
Qed.

Lemma zsum_pick (a : Z) (F : Z -> Z) l :
  NoDup l -> In a l ->
  zsum (map (fun v => if a =? v then F v else 0) l) = F a.
Proof.
  induction 1 as [|x t Hx Hnd IH]; intros Ha; [destruct Ha|].
  simpl. destruct Ha as [->|Ha].
  - rewrite Z.eqb_refl. rewrite zsum_map_zero; [lia|].
    intros y Hy. destruct (Z.eqb_spec a y); auto. subst. contradiction.
  - rewrite IH by auto. destruct (Z.eqb_spec a x); auto.
    subst. contradiction.
Qed.

(** The number of occurrences of [u] in a neighbour list. *)
Definition mult (u : Z) (l : list Z) : Z := countb (fun w => w =? u) l.

Definition b2z (b : bool) : Z := if b then 1 else 0.

Lemma countb_as_b2z {A} (p : A -> bool) l : countb p l = zsum (map (fun x => b2z (p x)) l).
Proof. reflexivity. Qed.

(** An instance as [build_adj] leaves it when no edge is a self-loop:
    [adj[v]] lists the other endpoints of the edges at [v]. *)
Record simple_graph (inst : Instance) : Prop := mkSimple {
  sg_n : 0 <= inst_n inst;
  sg_size : vsize (adj inst) = inst_n inst;
  sg_range : forall e, In e (edges inst) ->
             0 <= fst e < inst_n inst /\ 0 <= snd e < inst_n inst;
  sg_adj : forall v, 0 <= v < inst_n inst ->
           adj_of inst v = nbrs_of v (edges inst);
  sg_loops : no_self_loops (edges inst) = true;
  sg_degree : 0 <= max_degree inst }.

Lemma max_degree_step m x y :
  m <= (if y >? (if x >? m then x else m) then y
        else if x >? m then x else m).
Proof.
  rewrite !Z.gtb_ltb.
  destruct (Z.ltb_spec m x) as [H|H];
    [destruct (Z.ltb_spec x y)|destruct (Z.ltb_spec m y)]; lia.
Qed.

Lemma fold_add_edge_max_degree es : forall i0 i1,
  fold_left add_edge es (Done i0) = Done i1 ->
  max_degree i0 <= max_degree i1.
Proof.
  induction es as [|e es IH]; intros i0 i1 H.
  - simpl in H. injection H as <-. lia.
  - simpl in H.
    destruct (in_bounds (inst_n i0) (fst e) && in_bounds (inst_n i0) (snd e)).
    2:{ rewrite fold_add_edge_Undefined in H. discriminate. }
    apply IH in H. simpl in H.
    eapply Z.le_trans; [|exact H]. apply max_degree_step.
Qed.

Lemma build_adj_simple_graph i0 inst :
  build_adj i0 = Done inst ->
  no_self_loops (edges i0) = true ->
  0 <= max_degree i0 ->
  simple_graph inst.
Proof.
  intros H Hl Hd. pose proof (build_adj_spec _ H) as (Hn & Hn' & He & Hs & Hr & Ha).
  constructor; auto.
  - now rewrite He.
  - unfold build_adj in H. destruct (inst_n i0 <? 0); [discriminate|].
    apply fold_add_edge_max_degree in H. simpl in H. lia.
Qed.

Lemma read_instance_simple_graph f inst :
  read_instance f = Done inst ->
  no_self_loops (edges inst) = true ->
  simple_graph inst.
Proof.
  intros H Hl. unfold read_instance in H.
  destruct f as [file|]; [|discriminate].
  destruct (header file) as [[n0 kpairs]|]; [|discriminate].
  destruct (kpairs <? 0); [discriminate|].
  destruct (Z.of_nat (length (body file)) <? kpairs); [discriminate|].
  pose proof (build_adj_spec _ H) as (_ & _ & He & _).
  eapply build_adj_simple_graph; eauto; simpl; try lia.
  simpl in He. now rewrite <- He.
Qed.

Section Graph.
Variable inst : Instance.
Hypothesis SG : simple_graph inst.

Lemma adj_of_out v : ~ (0 <= v < inst_n inst) -> adj_of inst v = [].
Proof.
  intros Hv. unfold adj_of. apply vget_out. rewrite (sg_size SG). lia.
Qed.

Lemma In_nbrs_of u v E :
  In u (nbrs_of v E) <->
  exists e, In e E /\ ((fst e = v /\ snd e = u) \/ (snd e = v /\ fst e = u)).
Proof.
  unfold nbrs_of. rewrite in_flat_map. split.
  - intros (e & He & Hu). exists e. split; auto.
    apply in_app_or in Hu as [Hu|Hu].
    + destruct (Z.eqb_spec (fst e) v); [|destruct Hu].
      destruct Hu as [<-|[]]. auto.
    + destruct (Z.eqb_spec (snd e) v); [|destruct Hu].
      destruct Hu as [<-|[]]. auto.
  - intros (e & He & [[H1 H2]|[H1 H2]]); exists e; split; auto;
      apply in_or_app.
    + left. rewrite H1, Z.eqb_refl. now left.
    + right. rewrite H1, Z.eqb_refl. now left.
Qed.

(** Neighbours are vertices, and no vertex is its own neighbour. *)
Lemma adj_of_In v u :
  In u (adj_of inst v) ->
  0 <= v < inst_n inst /\ 0 <= u < inst_n inst /\ u <> v.
Proof.
  intros Hu.
  assert (Hv : 0 <= v < inst_n inst).
  { destruct (Z_le_dec 0 v), (Z_lt_dec v (inst_n inst)); try lia;
      rewrite adj_of_out in Hu by lia; destruct Hu. }
  split; auto.
  rewrite (sg_adj SG) in Hu by auto.
  apply In_nbrs_of in Hu as (e & He & Hcase).
  pose proof (sg_range SG _ He) as Hr.
  pose proof (sg_loops SG) as Hl. unfold no_self_loops in Hl.
  rewrite forallb_forall in Hl. specialize (Hl _ He).
  apply negb_true_iff in Hl. apply Z.eqb_neq in Hl.
  destruct Hcase as [[H1 H2]|[H1 H2]]; subst; lia.
Qed.

Lemma mult_not_In u l : ~ In u l -> mult u l = 0.
Proof.
  unfold mult. induction l as [|h t IH]; intros H; [reflexivity|].
  rewrite countb_cons, IH by (intros Hc; apply H; now right).
  destruct (Z.eqb_spec h u); auto. subst. exfalso. apply H. now left.
Qed.

Lemma mult_self v : mult v (adj_of inst v) = 0.
Proof.
  apply mult_not_In. intros H. apply adj_of_In in H. lia.
Qed.

Lemma mult_nbrs_of_sym u v E : mult u (nbrs_of v E) = mult v (nbrs_of u E).
Proof.
  unfold mult. induction E as [|e E IH]; [reflexivity|].
  simpl. rewrite !countb_app, IH.
  destruct (Z.eqb_spec (fst e) v), (Z.eqb_spec (snd e) v),
    (Z.eqb_spec (fst e) u), (Z.eqb_spec (snd e) u); subst;
    unfold countb; simpl; rewrite ?Z.eqb_refl;
    repeat match goal with
           | |- context [?x =? ?y] => destruct (Z.eqb_spec x y)
           end; try lia.
Qed.

(** Adjacency is symmetric, multiplicities included. *)
Lemma mult_sym u v : mult u (adj_of inst v) = mult v (adj_of inst u).
Proof.
  destruct (Z_le_dec 0 v), (Z_lt_dec v (inst_n inst)),
    (Z_le_dec 0 u), (Z_lt_dec u (inst_n inst));
    try (rewrite !(sg_adj SG) by lia; apply mult_nbrs_of_sym);
    (transitivity 0; [|symmetry]; apply mult_not_In; intros H;
     apply adj_of_In in H; lia).
Qed.

(** Double counting: a sum over the adjacency lists is a sum over the edges,
    each seen from both ends. *)
Lemma sum_over_adj (Q : Z -> Z -> bool) :
  zsum (map (fun v => countb (Q v) (adj_of inst v)) (range (inst_n inst)))
  = zsum (map (fun e => b2z (Q (fst e) (snd e)) + b2z (Q (snd e) (fst e)))
            (edges inst)).
Proof.
  rewrite (zsum_map_ext _ (fun v => countb (Q v) (nbrs_of v (edges inst)))).
  2:{ intros v Hv. apply In_range in Hv. now rewrite (sg_adj SG). }
  pose proof (sg_range SG) as Hr.
  induction (edges inst) as [|e E IH].
  - simpl. apply zsum_map_zero. reflexivity.
  - simpl map at 2. simpl zsum at 2.
    rewrite <- IH by (intros e' He'; apply Hr; now right).
    destruct (Hr e (or_introl eq_refl)) as [Ha Hb].
    rewrite <- (zsum_pick (fst e) (fun v => b2z (Q v (snd e)))
                  (NoDup_range (inst_n inst))) by (now apply In_range).
    rewrite <- (zsum_pick (snd e) (fun v => b2z (Q v (fst e)))
                  (NoDup_range (inst_n inst))) by (now apply In_range).
    rewrite <- !zsum_map_add. apply zsum_map_ext. intros v _.
    simpl. rewrite !countb_app.
    destruct (fst e =? v), (snd e =? v); unfold countb, b2z; simpl; lia.
Qed.

End Graph.

(** * The list of conflicting vertices *)

(** Projections of updated records, reduced without touching arithmetic. *)
Ltac sm_simpl :=
  cbn [set_color set_classSize set_conflicts set_conflictingList set_obj
       set_tabu_matrix n k color classSize conflicts conflictingVertices
       conflictingIndex obj floor_size big_size tabu_matrix] in *.

(** Case analysis on the first integer comparison of the goal. *)
Ltac zcase :=
  rewrite ?Z.gtb_ltb, ?Z.geb_leb in *;
  match goal with
  | |- context [?a =? ?b] => destruct (Z.eqb_spec a b)
  | |- context [?a <? ?b] => destruct (Z.ltb_spec a b)
  | |- context [?a <=? ?b] => destruct (Z.leb_spec a b)
  end.

(** [conflictingVertices] and [conflictingIndex] are inverse to each other,
    and a vertex is listed exactly when it has a conflict.  The last clause
    may be suspended at one vertex [x], between a change of [conflicts[x]]
    and the call of [update_conflict_status(x)] that follows it. *)
Record ListInvExcept (x : option Z) (s : SolutionManager) : Prop := mkListInv {
  li_conflicts_size : vsize (conflicts s) = n s;
  li_index_size : vsize (conflictingIndex s) = n s;
  li_in : forall i, 0 <= i < vsize (conflictingVertices s) ->
    0 <= vget 0 (conflictingVertices s) i < n s
    /\ vget 0 (conflictingIndex s) (vget 0 (conflictingVertices s) i) = i;
  li_idx : forall v, 0 <= v < n s ->
    vget 0 (conflictingIndex s) v = -1
    \/ (0 <= vget 0 (conflictingIndex s) v < vsize (conflictingVertices s)
        /\ vget 0 (conflictingVertices s) (vget 0 (conflictingIndex s) v) = v);
  li_iff : forall v, 0 <= v < n s -> Some v <> x ->
    (vget 0 (conflictingIndex s) v <> -1 <-> vget 0 (conflicts s) v > 0) }.

Definition ListInv : SolutionManager -> Prop := ListInvExcept None.

Lemma ListInv_weaken x s : ListInv s -> ListInvExcept x s.
Proof.
  intros [H1 H2 H3 H4 H5]. constructor; auto.
  intros v Hv _. apply H5; auto. discriminate.
Qed.

(** Changing [conflicts[x]] suspends the last clause at [x] only. *)
Lemma ListInv_set_conflicts s x y :
  ListInv s ->
  ListInvExcept (Some x) (set_conflicts s (vset (conflicts s) x y)).
Proof.
  intros [H1 H2 H3 H4 H5]. constructor; simpl; auto.
  - now rewrite vsize_vset.
  - intros v Hv Hx. rewrite vget_vset_other by congruence.
    apply H5; auto. discriminate.
Qed.

Lemma ListInv_same s s' x :
  n s' = n s -> conflicts s' = conflicts s ->
  conflictingVertices s' = conflictingVertices s ->
  conflictingIndex s' = conflictingIndex s ->
  ListInvExcept x s -> ListInvExcept x s'.
Proof.
  intros E1 E2 E3 E4 [H1 H2 H3 H4 H5].
  constructor; rewrite ?E1, ?E2, ?E3, ?E4; auto.
Qed.

Lemma ListInv_set_obj x s y : ListInvExcept x s -> ListInvExcept x (set_obj s y).
Proof. intros [H1 H2 H3 H4 H5]. constructor; simpl; auto. Qed.

Lemma ucs_frame s x :
  let s' := update_conflict_status s x in
  n s' = n s /\ k s' = k s /\ color s' = color s
  /\ classSize s' = classSize s /\ conflicts s' = conflicts s
  /\ obj s' = obj s /\ floor_size s' = floor_size s
  /\ big_size s' = big_size s /\ tabu_matrix s' = tabu_matrix s.
Proof.
  unfold update_conflict_status.
  destruct (vget 0 (conflicts s) x >? 0);
    destruct (vget 0 (conflictingIndex s) x =? -1); simpl; repeat split.
Qed.

(** [update_conflict_status(x)] restores the suspended clause. *)
Lemma update_conflict_status_restores s x :
  ListInvExcept (Some x) s -> 0 <= x < n s ->
  ListInv (update_conflict_status s x).
Proof.
  intros [H1 H2 H3 H4 H5] Hx. unfold update_conflict_status.
  assert (H5' : forall v, 0 <= v < n s -> v <> x ->
            (vget 0 (conflictingIndex s) v <> -1
             <-> vget 0 (conflicts s) v > 0)).
  { intros v Hv Hvx. apply H5; auto. congruence. }
  clear H5.
  rewrite Z.gtb_ltb.
  destruct (Z.ltb_spec 0 (vget 0 (conflicts s) x)) as [Hc|Hc];
    destruct (Z.eqb_spec (vget 0 (conflictingIndex s) x) (-1)) as [Hi|Hi];
    simpl negb; cbv iota.
  - (* insertion *)
    constructor; simpl; auto.
    + now rewrite vsize_vset.
    + intros i Hi'. rewrite vsize_snoc in Hi'.
      destruct (Z.eq_dec i (vsize (conflictingVertices s))) as [->|Hne].
      * rewrite vget_snoc_new. split; auto.
        apply vget_vset_same. lia.
      * rewrite vget_snoc_old by lia.
        destruct (H3 i) as [Hr Hinv]; [lia|]. split; auto.
        rewrite vget_vset_other; auto.
        intros E. rewrite <- E in Hinv. lia.
    + intros v Hv. rewrite vsize_snoc.
      destruct (Z.eq_dec v x) as [->|Hvx].
      * right. rewrite vget_vset_same by lia.
        pose proof (vsize_nonneg (conflictingVertices s)).
        split; [lia|]. apply vget_snoc_new.
      * rewrite vget_vset_other by auto.
        destruct (H4 v Hv) as [E|[Hr E]]; [now left|right].
        split; [lia|]. rewrite vget_snoc_old by lia. exact E.
    + intros v Hv _.
      destruct (Z.eq_dec v x) as [->|Hvx].
      * rewrite vget_vset_same by lia.
        pose proof (vsize_nonneg (conflictingVertices s)). lia.
      * rewrite vget_vset_other by auto. now apply H5'.
  - (* already listed *)
    constructor; auto.
    intros v Hv _. destruct (Z.eq_dec v x) as [->|Hvx]; [lia|].
    now apply H5'.
  - (* not listed and no conflict *)
    constructor; auto.
    intros v Hv _. destruct (Z.eq_dec v x) as [->|Hvx]; [lia|].
    now apply H5'.
  - (* removal: the last entry takes the place of [x] *)
    set (cv := conflictingVertices s) in *.
    set (ci := conflictingIndex s) in *.
    set (len := vsize cv) in *.
    set (i0 := vget 0 ci x) in *.
    destruct (H4 x Hx) as [E|[Hi0 Ex]]; [contradiction|].
    change (vget 0 ci x) with i0 in Hi0, Ex.
    rewrite last_vget. fold len.
    set (y := vget 0 cv (len - 1)) in *.
    destruct (H3 (len - 1)) as [Hy Eiy]; [lia|]. fold y in Hy, Eiy.
    assert (Hlen1 : vsize (vset cv i0 y) = len) by apply vsize_vset.
    assert (Hne : vset cv i0 y <> []).
    { intros E. rewrite E in Hlen1. unfold vsize in Hlen1. simpl in Hlen1. lia. }
    assert (Hget : forall i, 0 <= i < len - 1 ->
              vget 0 (removelast (vset cv i0 y)) i
              = if i =? i0 then y else vget 0 cv i).
    { intros i Hi'. rewrite vget_removelast by lia.
      destruct (Z.eqb_spec i i0) as [->|Hne'].
      - apply vget_vset_same. lia.
      - apply vget_vset_other. auto. }
    constructor; simpl; auto.
    + now rewrite !vsize_vset.
    + intros i Hi'. rewrite vsize_removelast in Hi' by auto.
      rewrite Hlen1 in Hi'. rewrite Hget by lia.
      destruct (Z.eqb_spec i i0) as [->|Hne'].
      * split; auto.
        assert (y <> x) by (intros ->; lia).
        rewrite vget_vset_other by auto.
        apply vget_vset_same. lia.
      * destruct (H3 i) as [Hr Hinv]; [lia|]. split; auto.
        rewrite !vget_vset_other; auto.
        -- intros E. fold cv ci in Hinv. rewrite <- E in Hinv. lia.
        -- intros E. fold cv ci in Hinv. rewrite <- E in Hinv.
           fold i0 in Hinv. lia.
    + intros v Hv. rewrite vsize_removelast by auto. rewrite Hlen1.
      destruct (Z.eq_dec v x) as [->|Hvx].
      * left. apply vget_vset_same. rewrite vsize_vset. lia.
      * rewrite vget_vset_other by auto.
        destruct (Z.eq_dec v y) as [->|Hvy].
        -- right. rewrite vget_vset_same by lia.
           assert (i0 <> len - 1).
           { intros E. apply Hvx. unfold y. rewrite <- E. now rewrite Ex. }
           split; [lia|]. rewrite Hget by lia. now rewrite Z.eqb_refl.
        -- rewrite vget_vset_other by auto.
           destruct (H4 v Hv) as [E|[Hr E]]; [now left|right].
           fold cv ci len in Hr, E.
           assert (vget 0 ci v <> len - 1).
           { intros E'. apply Hvy. unfold y. rewrite <- E'. now rewrite E. }
           assert (vget 0 ci v <> i0).
           { intros E'. apply Hvx. rewrite <- E, E'. exact Ex. }
           split; [lia|]. rewrite Hget by lia.
           destruct (Z.eqb_spec (vget 0 ci v) i0); [contradiction|]. exact E.
    + intros v Hv _.
      destruct (Z.eq_dec v x) as [->|Hvx].
      * rewrite vget_vset_same by (rewrite vsize_vset; lia). lia.
      * rewrite vget_vset_other by auto.
        destruct (Z.eq_dec v y) as [->|Hvy].
        -- rewrite vget_vset_same by lia.
           rewrite <- (H5' y Hy Hvx). fold ci. lia.
        -- rewrite vget_vset_other by auto. now apply H5'.
Qed.

(** * The two loops of [apply_move] *)

Lemma zsum_vset l i x :
  0 <= i < vsize l -> zsum (vset l i x) = zsum l - vget 0 l i + x.
Proof.
  unfold vset, vget, vsize. intros Hi.
  destruct (Z.ltb_spec i 0); [lia|].
  assert (Hn : (Z.to_nat i < length l)%nat) by lia.
  clear Hi H. revert Hn. generalize (Z.to_nat i) as m.
  induction l as [|h t IH]; intros [|m] Hm; simpl in *; try lia.
  rewrite IH by lia. lia.
Qed.

Section Moves.
Variable inst : Instance.

Lemma bump_edge_frame d v s u :
  let s' := bump_edge d v s u in
  n s' = n s /\ k s' = k s /\ color s' = color s
  /\ classSize s' = classSize s /\ floor_size s' = floor_size s
  /\ big_size s' = big_size s /\ tabu_matrix s' = tabu_matrix s
  /\ obj s' = obj s + d
  /\ conflicts s' =
     vset (vset (conflicts s) v (vget 0 (conflicts s) v + d)) u
       (vget 0 (vset (conflicts s) v (vget 0 (conflicts s) v + d)) u + d).
Proof.
  unfold bump_edge. cbv zeta.
  set (s2 := set_conflicts (set_obj s (obj s + d)) _).
  pose proof (ucs_frame s2 v) as F1. cbv zeta in F1.
  set (s3 := update_conflict_status s2 v) in *.
  set (s4 := set_conflicts s3 _).
  pose proof (ucs_frame s4 u) as F2. cbv zeta in F2.
  set (s5 := update_conflict_status s4 u) in *.
  destruct F1 as (A1&A2&A3&A4&A5&A6&A7&A8&A9).
  destruct F2 as (B1&B2&B3&B4&B5&B6&B7&B8&B9).
  subst s4 s2. simpl in *.
  repeat split; congruence.
Qed.

Lemma bump_edge_ListInv d v s u :
  ListInv s -> 0 <= v < n s -> 0 <= u < n s ->
  ListInv (bump_edge d v s u).
Proof.
  intros HL Hv Hu. unfold bump_edge.
  apply update_conflict_status_restores.
  2:{ simpl. now rewrite (proj1 (ucs_frame _ _)). }
  apply ListInv_set_conflicts.
  apply update_conflict_status_restores; [|exact Hv].
  apply (@ListInv_set_conflicts (set_obj s (obj s + d))).
  now apply ListInv_set_obj.
Qed.

Lemma bump_loop_frame d v c nbrs : forall s,
  let s' := bump_loop d v c nbrs s in
  n s' = n s /\ k s' = k s /\ color s' = color s
  /\ classSize s' = classSize s /\ floor_size s' = floor_size s
  /\ big_size s' = big_size s /\ tabu_matrix s' = tabu_matrix s
  /\ obj s' = obj s + d * countb (fun u => vget 0 (color s) u =? c) nbrs.
Proof.
  induction nbrs as [|u nbrs IH]; intros s; cbv zeta.
  - simpl. rewrite countb_nil. repeat split; lia.
  - unfold bump_loop in *. simpl fold_left. rewrite countb_cons.
    destruct (vget 0 (color s) u =? c).
    + specialize (IH (bump_edge d v s u)). cbv zeta in IH.
      pose proof (bump_edge_frame d v s u) as F. cbv zeta in F.
      destruct F as (F1&F2&F3&F4&F5&F6&F7&F8&_).
      destruct IH as (I1&I2&I3&I4&I5&I6&I7&I8).
      rewrite F3 in I8.
      repeat split; try congruence. rewrite I8, F8. lia.
    + specialize (IH s). cbv zeta in IH.
      destruct IH as (I1&I2&I3&I4&I5&I6&I7&I8).
      repeat split; auto.
Qed.

Lemma bump_loop_conflicts d v c nbrs : forall s,
  0 <= v < n s -> vsize (conflicts s) = n s ->
  (forall u, In u nbrs -> 0 <= u < n s) ->
  let s' := bump_loop d v c nbrs s in
  vsize (conflicts s') = n s
  /\ forall w, 0 <= w < n s ->
       vget 0 (conflicts s') w
       = vget 0 (conflicts s) w
         + d * (b2z (w =? v)
                * countb (fun u => vget 0 (color s) u =? c) nbrs
                + countb (fun u => (u =? w) && (vget 0 (color s) u =? c))
                    nbrs).
Proof.
  induction nbrs as [|u nbrs IH]; intros s Hv Hsz Hr; cbv zeta.
  - simpl. split; auto. intros w Hw. rewrite !countb_nil. lia.
  - unfold bump_loop in *. simpl fold_left. rewrite !countb_cons.
    assert (Hu : 0 <= u < n s) by (apply Hr; now left).
    assert (Hr' : forall u', In u' nbrs -> 0 <= u' < n s)
      by (intros u' H'; apply Hr; now right).
    destruct (vget 0 (color s) u =? c) eqn:Ec.
    + pose proof (bump_edge_frame d v s u) as F. cbv zeta in F.
      destruct F as (F1&_&F3&_&_&_&_&_&F9).
      destruct (IH (bump_edge d v s u)) as [I1 I2]; try rewrite F1; auto.
      { rewrite F9, !vsize_vset. exact Hsz. }
      rewrite F1 in I1, I2.
      split; [exact I1|]. intros w Hw. rewrite (I2 w Hw), F3, F9.
      replace (vget 0 (vset (vset (conflicts s) v (vget 0 (conflicts s) v + d))
                         u (vget 0 (vset (conflicts s) v
                                      (vget 0 (conflicts s) v + d)) u + d)) w)
        with (vget 0 (conflicts s) w + d * b2z (w =? v) + d * b2z (u =? w)).
      2:{ destruct (Z.eqb_spec u w) as [->|Huw].
          - rewrite vget_vset_same by (rewrite vsize_vset; lia).
            destruct (Z.eqb_spec w v) as [->|Hwv].
            + rewrite vget_vset_same by lia. simpl. lia.
            + rewrite vget_vset_other by auto. simpl. lia.
          - rewrite vget_vset_other by auto.
            destruct (Z.eqb_spec w v) as [->|Hwv].
            + rewrite vget_vset_same by lia. simpl. lia.
            + rewrite vget_vset_other by auto. simpl. lia. }
      rewrite ?countb_cons. cbv beta. rewrite ?Ec, ?andb_true_r.
      unfold b2z. destruct (w =? v), (u =? w); lia.
    + destruct (IH s) as [I1 I2]; auto.
      split; [exact I1|]. intros w Hw. rewrite (I2 w Hw).
      rewrite ?countb_cons. cbv beta. rewrite ?Ec, ?andb_false_r. lia.
Qed.

Lemma bump_loop_inv d v c nbrs : forall s,
  0 <= v < n s -> vsize (conflicts s) = n s ->
  (forall u, In u nbrs -> 0 <= u < n s) ->
  let s' := bump_loop d v c nbrs s in
  (2 * obj s = zsum (conflicts s) -> 2 * obj s' = zsum (conflicts s'))
  /\ (ListInv s -> ListInv s').
Proof.
  induction nbrs as [|u nbrs IH]; intros s Hv Hsz Hr; cbv zeta.
  - simpl. auto.
  - unfold bump_loop in *. simpl fold_left.
    assert (Hu : 0 <= u < n s) by (apply Hr; now left).
    assert (Hr' : forall u', In u' nbrs -> 0 <= u' < n s)
      by (intros u' H'; apply Hr; now right).
    destruct (vget 0 (color s) u =? c) eqn:Ec; [|now apply IH].
    pose proof (bump_edge_frame d v s u) as F. cbv zeta in F.
    destruct F as (F1&_&_&_&_&_&_&F8&F9).
    destruct (IH (bump_edge d v s u)) as [I1 I2]; try rewrite F1; auto.
    { rewrite F9, !vsize_vset. exact Hsz. }
    split.
    + intros Hsum. apply I1. rewrite F8, F9.
      rewrite !zsum_vset by (rewrite ?vsize_vset; lia). lia.
    + intros HL. apply I2. now apply bump_edge_ListInv.
Qed.

End Moves.

(** * Consistency of the incremental data *)

(** The number of neighbours of [v] that carry the colour of [v]. *)
Definition same_color_nbrs (inst : Instance) (s : SolutionManager) (v : Z) : Z :=
  countb (fun u => vget 0 (color s) u =? vget 0 (color s) v) (adj_of inst v).

(** Invariants 2 to 4 of the data model, for a state that may still have
    uncoloured vertices (colour [-1], no conflict counted). *)
Record Consistent (inst : Instance) (s : SolutionManager) : Prop := mkConsistent {
  cs_n : n s = inst_n inst;
  cs_color_size : vsize (color s) = n s;
  cs_conflicts : forall v, 0 <= v < n s ->
    vget 0 (conflicts s) v
    = if vget 0 (color s) v =? -1 then 0 else same_color_nbrs inst s v;
  cs_obj : 2 * obj s = zsum (conflicts s);
  cs_list : ListInv s }.

(** Every vertex has a colour of [0 .. k-1]. *)
Definition fully_colored (s : SolutionManager) : Prop :=
  forall v, 0 <= v < n s -> 0 <= vget 0 (color s) v < k s.

Lemma mult_cons u h l : mult u (h :: l) = b2z (h =? u) + mult u l.
Proof. reflexivity. Qed.

Lemma countb_recolor col v x c l :
  0 <= v < vsize col ->
  countb (fun u => vget 0 (vset col v x) u =? c) l
  = countb (fun u => vget 0 col u =? c) l
    + (b2z (x =? c) - b2z (vget 0 col v =? c)) * mult v l.
Proof.
  intros Hv. induction l as [|h t IH].
  - rewrite !countb_nil. unfold mult. rewrite countb_nil. lia.
  - rewrite !countb_cons, mult_cons, IH. cbv beta. unfold b2z.
    destruct (Z.eqb_spec h v) as [->|Hne].
    + rewrite vget_vset_same by auto.
      destruct (x =? c), (vget 0 col v =? c); lia.
    + rewrite vget_vset_other by auto.
      destruct (vget 0 col h =? c), (x =? c), (vget 0 col v =? c); lia.
Qed.

Lemma countb_at (f : Z -> Z) w c l :
  countb (fun u => (u =? w) && (f u =? c)) l = b2z (f w =? c) * mult w l.
Proof.
  induction l as [|h t IH].
  - rewrite countb_nil. unfold mult. rewrite countb_nil. lia.
  - rewrite countb_cons, mult_cons, IH. cbv beta. unfold b2z.
    destruct (Z.eqb_spec h w) as [->|Hne]; simpl andb.
    + destruct (f w =? c); lia.
    + destruct (f w =? c); lia.
Qed.

Lemma countb_recolor_absent col v x c l :
  ~ In v l ->
  countb (fun u => vget 0 (vset col v x) u =? c) l
  = countb (fun u => vget 0 col u =? c) l.
Proof.
  intros H. apply countb_ext. intros u Hu.
  rewrite vget_vset_other; auto. intros ->. contradiction.
Qed.

Section ApplyMove.
Variable inst : Instance.
Hypothesis SG : simple_graph inst.

Lemma adj_not_self v : ~ In v (adj_of inst v).
Proof. intros H. apply (adj_of_In SG) in H. lia. Qed.

(** What [apply_move] does to everything but the conflict data. *)
Lemma apply_move_frame s v new_c :
  let s' := apply_move inst s v new_c in
  let old_c := vget 0 (color s) v in
  n s' = n s /\ k s' = k s
  /\ color s' = vset (color s) v new_c
  /\ classSize s' =
     vset (vset (classSize s) old_c (vget 0 (classSize s) old_c - 1)) new_c
       (vget 0 (vset (classSize s) old_c (vget 0 (classSize s) old_c - 1))
          new_c + 1)
  /\ floor_size s' = floor_size s /\ big_size s' = big_size s
  /\ tabu_matrix s' = tabu_matrix s
  /\ obj s' = obj s
              - countb (fun u => vget 0 (color s) u =? old_c) (adj_of inst v)
              + countb (fun u => vget 0 (color s) u =? new_c) (adj_of inst v).
Proof.
  cbv zeta. unfold apply_move.
  set (old_c := vget 0 (color s) v).
  set (s3 := set_classSize _ _).
  pose proof (bump_loop_frame (-1) v old_c (adj_of inst v) s3) as F1.
  cbv zeta in F1. set (s4 := bump_loop (-1) v old_c (adj_of inst v) s3) in *.
  pose proof (bump_loop_frame 1 v new_c (adj_of inst v) s4) as F2.
  cbv zeta in F2. set (s5 := bump_loop 1 v new_c (adj_of inst v) s4) in *.
  destruct F1 as (A1&A2&A3&A4&A5&A6&A7&A8).
  destruct F2 as (B1&B2&B3&B4&B5&B6&B7&B8).
  rewrite A3 in B8. subst s3. sm_simpl.
  rewrite !countb_recolor_absent in * by apply adj_not_self.
  repeat split; try congruence. lia.
Qed.

(** [apply_move] keeps the incremental data consistent. *)
Lemma apply_move_Consistent s v new_c :
  Consistent inst s -> 0 <= v < n s ->
  vget 0 (color s) v <> -1 -> new_c <> -1 ->
  Consistent inst (apply_move inst s v new_c).
Proof.
  intros [Hn Hcs Hcf Hobj HL] Hv Hold Hnew.
  pose proof (apply_move_frame s v new_c) as F. cbv zeta in F.
  destruct F as (F1&_&F3&_&_&_&_&_).
  unfold apply_move in *.
  set (old_c := vget 0 (color s) v) in *.
  set (s3 := set_classSize _ _) in *.
  assert (E3n : n s3 = n s) by reflexivity.
  assert (E3c : color s3 = vset (color s) v new_c) by reflexivity.
  assert (E3f : conflicts s3 = conflicts s) by reflexivity.
  assert (E3o : obj s3 = obj s) by reflexivity.
  assert (HL3 : ListInv s3) by (apply ListInv_same with (s := s); auto).
  clearbody s3.
  set (s4 := bump_loop (-1) v old_c (adj_of inst v) s3) in *.
  set (s5 := bump_loop 1 v new_c (adj_of inst v) s4) in *.
  assert (Hr : forall u, In u (adj_of inst v) -> 0 <= u < n s).
  { intros u Hu. apply (adj_of_In SG) in Hu. lia. }
  assert (Hsz : vsize (conflicts s) = n s) by apply (li_conflicts_size HL).
  pose proof (bump_loop_frame (-1) v old_c (adj_of inst v) s3) as G1.
  cbv zeta in G1. fold s4 in G1. destruct G1 as (G1&_&G3&_).
  destruct (@bump_loop_conflicts (-1) v old_c (adj_of inst v) s3)
    as [C1 C2]; try rewrite E3n; try rewrite E3f; auto.
  fold s4 in C1, C2. rewrite E3n in C1, C2.
  destruct (@bump_loop_inv (-1) v old_c (adj_of inst v) s3)
    as [S1 L1]; try rewrite E3n; try rewrite E3f; auto.
  fold s4 in S1, L1.
  destruct (@bump_loop_conflicts 1 v new_c (adj_of inst v) s4)
    as [C3 C4]; try rewrite G1; try rewrite E3n; auto.
  fold s5 in C3, C4. rewrite G1, E3n in C3, C4.
  destruct (@bump_loop_inv 1 v new_c (adj_of inst v) s4)
    as [S2 L2]; try rewrite G1; try rewrite E3n; auto.
  fold s5 in S2, L2.
  constructor.
  - congruence.
  - rewrite F3, vsize_vset. congruence.
  - rewrite F1. intros w Hw. rewrite (C4 w Hw), (C2 w Hw), G3, E3c, E3f.
    unfold same_color_nbrs. rewrite F3.
    rewrite !countb_at.
    rewrite (@countb_recolor_absent (color s) v new_c old_c _ (adj_not_self v)).
    rewrite (@countb_recolor_absent (color s) v new_c new_c _ (adj_not_self v)).
    destruct (Z.eqb_spec w v) as [->|Hwv].
    + rewrite (mult_self SG), vget_vset_same by lia.
      destruct (Z.eqb_spec new_c (-1)); [contradiction|].
      rewrite (Hcf v Hv). fold old_c.
      destruct (Z.eqb_spec old_c (-1)); [contradiction|].
      unfold same_color_nbrs. fold old_c.
      rewrite (@countb_recolor_absent (color s) v new_c new_c _ (adj_not_self v)).
      unfold b2z. lia.
    + rewrite vget_vset_other by auto.
      rewrite countb_recolor by lia. fold old_c.
      rewrite (mult_sym SG w v), (Hcf w Hw). unfold same_color_nbrs.
      set (cw := vget 0 (color s) w).
      rewrite (Z.eqb_sym new_c cw), (Z.eqb_sym old_c cw).
      destruct (Z.eqb_spec cw (-1)) as [E|E].
      * destruct (Z.eqb_spec cw old_c); [congruence|].
        destruct (Z.eqb_spec cw new_c); [congruence|].
        unfold b2z. lia.
      * unfold b2z. destruct (cw =? old_c), (cw =? new_c); lia.
  - apply S2, S1. rewrite E3o, E3f. exact Hobj.
  - apply L2, L1. exact HL3.
Qed.

Lemma apply_move_fully_colored s v new_c :
  fully_colored s -> vsize (color s) = n s -> 0 <= new_c < k s ->
  fully_colored (apply_move inst s v new_c).
Proof.
  intros Hfc Hsz Hc w.
  pose proof (apply_move_frame s v new_c) as F. cbv zeta in F.
  destruct F as (F1&F2&F3&_). rewrite F1, F2, F3. intros Hw.
  destruct (Z.eq_dec w v) as [->|Hne].
  - rewrite vget_vset_same by lia. exact Hc.
  - rewrite vget_vset_other by auto. now apply Hfc.
Qed.

End ApplyMove.

(** * The deltas predict the objective (C3) *)

Section Deltas.
Variable inst : Instance.
Hypothesis SG : simple_graph inst.

(** The loop of [get_move_delta] when neither colour is [-1]. *)
Lemma move_delta_fold (col : Z -> Z) a b l : forall acc,
  a <> -1 -> b <> -1 -> a <> b ->
  fold_left
    (fun delta u =>
       if col u =? -1 then delta
       else if col u =? a then delta - 1
       else if col u =? b then delta + 1
       else delta)
    l acc
  = acc - countb (fun u => col u =? a) l + countb (fun u => col u =? b) l.
Proof.
  induction l as [|h t IH]; intros acc Ha Hb Hab.
  - simpl. rewrite !countb_nil. lia.
  - simpl fold_left. rewrite IH, !countb_cons by auto. cbv beta.
    destruct (Z.eqb_spec (col h) (-1)) as [E|E].
    + destruct (Z.eqb_spec (col h) a); [congruence|].
      destruct (Z.eqb_spec (col h) b); [congruence|]. lia.
    + destruct (Z.eqb_spec (col h) a) as [E1|E1].
      * destruct (Z.eqb_spec (col h) b); [congruence|]. lia.
      * destruct (Z.eqb_spec (col h) b); lia.
Qed.

(** Either loop of [get_swap_delta]: the skipped partner is counted back. *)
Lemma swap_delta_fold (col : Z -> Z) skip a b l : forall acc,
  a <> b ->
  fold_left
    (fun delta w =>
       if w =? skip then delta
       else if col w =? a then delta - 1
       else if col w =? b then delta + 1
       else delta)
    l acc
  = acc - countb (fun w => col w =? a) l + countb (fun w => col w =? b) l
    + (b2z (col skip =? a) - b2z (col skip =? b)) * mult skip l.
Proof.
  induction l as [|h t IH]; intros acc Hab.
  - simpl. rewrite !countb_nil. unfold mult. rewrite countb_nil. lia.
  - simpl fold_left. rewrite IH, !countb_cons, mult_cons by auto. cbv beta.
    unfold b2z.
    destruct (Z.eqb_spec h skip) as [->|E].
    + destruct (Z.eqb_spec (col skip) a) as [E1|E1];
        destruct (Z.eqb_spec (col skip) b); try congruence; lia.
    + destruct (Z.eqb_spec (col h) a) as [E1|E1];
        destruct (Z.eqb_spec (col h) b);
        destruct (col skip =? a), (col skip =? b); try congruence; lia.
Qed.

Lemma apply_move_obj s v c_new :
  vget 0 (color s) v <> -1 -> c_new <> -1 ->
  c_new <> vget 0 (color s) v ->
  obj (apply_move inst s v c_new)
  = obj s + get_move_delta inst s v (vget 0 (color s) v) c_new.
Proof.
  intros Hold Hnew Hne.
  pose proof (apply_move_frame SG s v c_new) as F. cbv zeta in F.
  destruct F as (_&_&_&_&_&_&_&F8). rewrite F8.
  unfold get_move_delta.
  rewrite (move_delta_fold (fun u => vget 0 (color s) u)) by auto. lia.
Qed.

Lemma apply_swap_safe_obj s v u :
  0 <= v < vsize (color s) ->
  vget 0 (color s) u <> vget 0 (color s) v ->
  obj (apply_swap_safe inst s v u) = obj s + get_swap_delta inst s v u.
Proof.
  intros Hv Hne. unfold apply_swap_safe, get_swap_delta.
  set (c_v := vget 0 (color s) v) in *.
  set (c_u := vget 0 (color s) u) in *.
  assert (Huv : u <> v) by (intros ->; apply Hne; reflexivity).
  destruct (Z.eqb_spec c_v c_u) as [E|_]; [congruence|].
  pose proof (apply_move_frame SG s v c_u) as F. cbv zeta in F.
  destruct F as (_&_&F3&_&_&_&_&F8). fold c_v in F8.
  set (s1 := apply_move inst s v c_u) in *.
  pose proof (apply_move_frame SG s1 u c_v) as G. cbv zeta in G.
  destruct G as (_&_&_&_&_&_&_&G8).
  rewrite G8, F8, F3. rewrite vget_vset_other by auto. fold c_u.
  rewrite !countb_recolor by auto. fold c_v.
  rewrite !(swap_delta_fold (fun w => vget 0 (color s) w)) by auto.
  fold c_v c_u. rewrite (mult_sym SG u v).
  unfold b2z. rewrite !Z.eqb_refl.
  destruct (Z.eqb_spec c_u c_v); [congruence|].
  destruct (Z.eqb_spec c_v c_u); [congruence|]. lia.
Qed.

End Deltas.

(** C3.  On an instance without self-loops, in a consistent and fully
    coloured state, [get_move_delta] is the change of [obj] that
    [apply_move] makes, and [get_swap_delta] the change that
    [apply_swap_safe] makes. *)
Theorem deltas_predict_objective (inst : Instance) (s : SolutionManager)
  (v u c_new : Z) :
  simple_graph inst -> Consistent inst s -> fully_colored s ->
  0 <= v < n s -> 0 <= u < n s ->
  (0 <= c_new < k s -> c_new <> vget 0 (color s) v ->
   obj (apply_move inst s v c_new)
   = obj s + get_move_delta inst s v (vget 0 (color s) v) c_new)
  /\ (vget 0 (color s) u <> vget 0 (color s) v ->
      obj (apply_swap_safe inst s v u) = obj s + get_swap_delta inst s v u).
Proof.
  intros SG HC Hfc Hv Hu. split.
  - intros Hc Hne. apply apply_move_obj; auto.
    + specialize (Hfc v Hv). lia.
    + lia.
  - intros Hne. apply apply_swap_safe_obj; auto.
    rewrite (cs_color_size HC). exact Hv.
Qed.

(** * Undoing a move (C9) *)

Lemma vget_ext (l1 l2 : list Z) :
  vsize l1 = vsize l2 ->
  (forall i, 0 <= i < vsize l1 -> vget 0 l1 i = vget 0 l2 i) ->
  l1 = l2.
Proof.
  unfold vsize. intros Hlen H.
  apply (nth_ext l1 l2 0 0); [lia|].
  intros m Hm. specialize (H (Z.of_nat m)). unfold vget in H.
  destruct (Z.ltb_spec (Z.of_nat m) 0); [lia|].
  rewrite Nat2Z.id in H. apply H. lia.
Qed.

Lemma vset_vset_back (l : list Z) i x : vset (vset l i x) i (vget 0 l i) = l.
Proof.
  apply vget_ext; [now rewrite !vsize_vset|].
  intros j Hj. rewrite !vsize_vset in Hj.
  destruct (Z.eq_dec j i) as [->|Hne].
  - apply vget_vset_same. now rewrite vsize_vset.
  - now rewrite !vget_vset_other by auto.
Qed.

(** [x] loses one and [y] gains one. *)
Definition shift_one (l : list Z) (x y : Z) : list Z :=
  vset (vset l x (vget 0 l x - 1)) y (vget 0 (vset l x (vget 0 l x - 1)) y + 1).

Lemma vsize_shift_one l x y : vsize (shift_one l x y) = vsize l.
Proof. unfold shift_one. now rewrite !vsize_vset. Qed.

Lemma vget_shift_one l x y i :
  0 <= x < vsize l -> 0 <= y < vsize l ->
  vget 0 (shift_one l x y) i
  = vget 0 l i - b2z (i =? x) + b2z (i =? y).
Proof.
  intros Hx Hy. unfold shift_one, b2z.
  destruct (Z.eqb_spec i y) as [->|Hiy].
  - rewrite vget_vset_same by (now rewrite vsize_vset).
    destruct (Z.eqb_spec y x) as [->|Hyx].
    + rewrite vget_vset_same by auto. lia.
    + rewrite vget_vset_other by auto. lia.
  - rewrite vget_vset_other by auto.
    destruct (Z.eqb_spec i x) as [->|Hix].
    + rewrite vget_vset_same by auto. lia.
    + rewrite vget_vset_other by auto. lia.
Qed.

Lemma shift_one_back l x y :
  0 <= x < vsize l -> 0 <= y < vsize l ->
  shift_one (shift_one l x y) y x = l.
Proof.
  intros Hx Hy. apply vget_ext; [now rewrite !vsize_shift_one|].
  intros i Hi.
  rewrite !vget_shift_one by (rewrite ?vsize_shift_one; auto).
  unfold b2z. destruct (i =? x), (i =? y); lia.
Qed.

(** What the list invariant says about the list itself. *)
Lemma ListInv_NoDup s : ListInv s -> NoDup (conflictingVertices s).
Proof.
  intros HL. apply (NoDup_nth _ 0). intros i j Hi Hj E.
  pose proof (@li_in _ _ HL (Z.of_nat i)) as Hii.
  pose proof (@li_in _ _ HL (Z.of_nat j)) as Hjj.
  unfold vsize, vget in Hii, Hjj.
  destruct (Z.ltb_spec (Z.of_nat i) 0); [lia|].
  destruct (Z.ltb_spec (Z.of_nat j) 0); [lia|].
  rewrite Nat2Z.id in Hii, Hjj.
  destruct Hii as [_ Hii]; [lia|]. destruct Hjj as [_ Hjj]; [lia|].
  rewrite E in Hii. rewrite Hii in Hjj. lia.
Qed.

Lemma ListInv_In s x :
  ListInv s ->
  (In x (conflictingVertices s)
   <-> 0 <= x < n s /\ vget 0 (conflicts s) x > 0).
Proof.
  intros HL. split.
  - intros Hx. apply (In_vget 0) in Hx as (i & Hi & <-).
    destruct (li_in HL Hi) as [Hr Hinv]. split; auto.
    apply (li_iff HL); auto; [discriminate|]. rewrite Hinv. lia.
  - intros [Hr Hc].
    apply (li_iff HL) in Hc; auto; [|discriminate].
    destruct (li_idx HL Hr) as [E|[Hi E]]; [contradiction|].
    rewrite <- E. now apply vget_In.
Qed.

(** Two consistent colourings of the same vertices agree on all that the
    colours determine; the lists may differ in order only. *)
Lemma Consistent_same_colors inst s s' :
  Consistent inst s -> Consistent inst s' -> color s' = color s ->
  conflicts s' = conflicts s /\ obj s' = obj s
  /\ Permutation (conflictingVertices s') (conflictingVertices s).
Proof.
  intros HC HC' Ecol.
  assert (En : n s' = n s) by (rewrite (cs_n HC), (cs_n HC'); reflexivity).
  assert (Ecf : conflicts s' = conflicts s).
  { apply vget_ext.
    - rewrite (li_conflicts_size (cs_list HC)),
        (li_conflicts_size (cs_list HC')). exact En.
    - intros i Hi. rewrite (li_conflicts_size (cs_list HC')) in Hi.
      rewrite (cs_conflicts HC') by auto.
      rewrite (cs_conflicts HC) by lia.
      unfold same_color_nbrs. now rewrite Ecol. }
  split; [exact Ecf|]. split.
  - pose proof (cs_obj HC). pose proof (cs_obj HC'). rewrite Ecf in *. lia.
  - apply NoDup_Permutation.
    + apply ListInv_NoDup, (cs_list HC').
    + apply ListInv_NoDup, (cs_list HC).
    + intros x. rewrite (ListInv_In x (cs_list HC')),
        (ListInv_In x (cs_list HC)), Ecf, En. reflexivity.
Qed.

Section RoundTrip.
Variable inst : Instance.
Hypothesis SG : simple_graph inst.

Lemma apply_swap_safe_frame s v u :
  vget 0 (color s) v <> vget 0 (color s) u ->
  let s' := apply_swap_safe inst s v u in
  n s' = n s /\ k s' = k s
  /\ color s'
     = vset (vset (color s) v (vget 0 (color s) u)) u (vget 0 (color s) v)
  /\ floor_size s' = floor_size s /\ big_size s' = big_size s
  /\ tabu_matrix s' = tabu_matrix s.
Proof.
  intros Hne. cbv zeta. unfold apply_swap_safe.
  pose proof (apply_move_frame SG s v (vget 0 (color s) u)) as F.
  cbv zeta in F. destruct F as (F1&F2&F3&_&F5&F6&F7&_).
  pose proof (apply_move_frame SG
                (apply_move inst s v (vget 0 (color s) u)) u
                (vget 0 (color s) v)) as G.
  cbv zeta in G. destruct G as (G1&G2&G3&_&G5&G6&G7&_).
  rewrite G1, G2, G3, G5, G6, G7, F1, F2, F3, F5, F6, F7. repeat split.
Qed.

Lemma apply_swap_safe_Consistent s v u :
  Consistent inst s -> fully_colored s ->
  0 <= v < n s -> 0 <= u < n s ->
  vget 0 (color s) v <> vget 0 (color s) u ->
  Consistent inst (apply_swap_safe inst s v u)
  /\ fully_colored (apply_swap_safe inst s v u).
Proof.
  intros HC Hfc Hv Hu Hne. unfold apply_swap_safe.
  pose proof (Hfc v Hv) as Hcv. pose proof (Hfc u Hu) as Hcu.
  pose proof (apply_move_frame SG s v (vget 0 (color s) u)) as F.
  cbv zeta in F. destruct F as (F1&F2&F3&_).
  assert (HC1 : Consistent inst (apply_move inst s v (vget 0 (color s) u)))
    by (apply apply_move_Consistent; auto; lia).
  assert (Hfc1 : fully_colored (apply_move inst s v (vget 0 (color s) u)))
    by (apply apply_move_fully_colored; auto; apply (cs_color_size HC)).
  split.
  - apply apply_move_Consistent; auto; try lia.
    rewrite F3, vget_vset_other by congruence. lia.
  - apply apply_move_fully_colored; auto.
    + apply (cs_color_size HC1).
    + rewrite F2. lia.
Qed.

End RoundTrip.

(** [s'] is [s] except, possibly, for the order of [conflictingVertices]
    (and with it the positions stored in [conflictingIndex], which remain the
    inverse of the list). *)
Definition equal_up_to_list_order (s' s : SolutionManager) : Prop :=
  n s' = n s /\ k s' = k s /\ color s' = color s
  /\ classSize s' = classSize s /\ conflicts s' = conflicts s
  /\ obj s' = obj s /\ floor_size s' = floor_size s
  /\ big_size s' = big_size s /\ tabu_matrix s' = tabu_matrix s
  /\ Permutation (conflictingVertices s') (conflictingVertices s)
  /\ ListInv s'.

Section Undo.
Variable inst : Instance.
Hypothesis SG : simple_graph inst.

Lemma apply_move_classSize s v new_c :
  classSize (apply_move inst s v new_c)
  = shift_one (classSize s) (vget 0 (color s) v) new_c.
Proof.
  pose proof (apply_move_frame SG s v new_c) as F. cbv zeta in F.
  destruct F as (_&_&_&F4&_). exact F4.
Qed.

Lemma apply_swap_safe_classSize s v u :
  0 <= vget 0 (color s) v < vsize (classSize s) ->
  0 <= vget 0 (color s) u < vsize (classSize s) ->
  vget 0 (color s) v <> vget 0 (color s) u ->
  classSize (apply_swap_safe inst s v u) = classSize s.
Proof.
  intros Hcv Hcu Hne. unfold apply_swap_safe.
  rewrite !apply_move_classSize.
  pose proof (apply_move_frame SG s v (vget 0 (color s) u)) as F.
  cbv zeta in F. destruct F as (_&_&F3&_). rewrite F3.
  rewrite vget_vset_other by congruence.
  now apply shift_one_back.
Qed.

Lemma undo_move s v c_new :
  Consistent inst s -> fully_colored s -> vsize (classSize s) = k s ->
  0 <= v < n s -> 0 <= c_new < k s ->
  equal_up_to_list_order
    (apply_move inst (apply_move inst s v c_new) v (vget 0 (color s) v)) s.
Proof.
  intros HC Hfc Hk Hv Hc.
  pose proof (Hfc v Hv) as Hcv.
  set (s1 := apply_move inst s v c_new).
  pose proof (apply_move_frame SG s v c_new) as F. cbv zeta in F.
  fold s1 in F. destruct F as (F1&F2&F3&F4&F5&F6&F7&_).
  assert (HC1 : Consistent inst s1)
    by (apply apply_move_Consistent; auto; lia).
  assert (E1 : vget 0 (color s1) v = c_new).
  { rewrite F3. apply vget_vset_same. rewrite (cs_color_size HC). exact Hv. }
  set (s2 := apply_move inst s1 v (vget 0 (color s) v)).
  pose proof (apply_move_frame SG s1 v (vget 0 (color s) v)) as G.
  cbv zeta in G. fold s2 in G. destruct G as (G1&G2&G3&G4&G5&G6&G7&_).
  assert (HC2 : Consistent inst s2).
  { apply apply_move_Consistent; auto; lia. }
  assert (Ecol : color s2 = color s).
  { rewrite G3, F3. apply vset_vset_back. }
  destruct (Consistent_same_colors HC HC2 Ecol) as (Ecf & Eobj & Hperm).
  unfold equal_up_to_list_order.
  split; [congruence|]. split; [congruence|]. split; [exact Ecol|].
  split; [|split; [exact Ecf|split; [exact Eobj|]]].
  - unfold s2, s1. rewrite !apply_move_classSize. fold s1. rewrite E1.
    apply shift_one_back; lia.
  - split; [congruence|]. split; [congruence|]. split; [congruence|].
    split; [exact Hperm|apply (cs_list HC2)].
Qed.

Lemma undo_swap s v u :
  Consistent inst s -> fully_colored s -> vsize (classSize s) = k s ->
  0 <= v < n s -> 0 <= u < n s ->
  vget 0 (color s) v <> vget 0 (color s) u ->
  equal_up_to_list_order
    (apply_swap_safe inst (apply_swap_safe inst s v u) v u) s.
Proof.
  intros HC Hfc Hk Hv Hu Hne.
  pose proof (Hfc v Hv) as Hcv. pose proof (Hfc u Hu) as Hcu.
  assert (Huv : v <> u) by (intros ->; apply Hne; reflexivity).
  set (s1 := apply_swap_safe inst s v u).
  pose proof (@apply_swap_safe_frame inst SG s v u Hne) as F. cbv zeta in F.
  fold s1 in F. destruct F as (F1&F2&F3&F5&F6&F7).
  destruct (apply_swap_safe_Consistent SG HC Hfc Hv Hu Hne) as [HC1 Hfc1].
  fold s1 in HC1, Hfc1.
  assert (Hsz : vsize (color s) = n s) by apply (cs_color_size HC).
  assert (E1v : vget 0 (color s1) v = vget 0 (color s) u).
  { rewrite F3, vget_vset_other by auto. apply vget_vset_same. lia. }
  assert (E1u : vget 0 (color s1) u = vget 0 (color s) v).
  { rewrite F3. apply vget_vset_same. rewrite vsize_vset. lia. }
  assert (Hne1 : vget 0 (color s1) v <> vget 0 (color s1) u) by congruence.
  set (s2 := apply_swap_safe inst s1 v u).
  pose proof (@apply_swap_safe_frame inst SG s1 v u Hne1) as G.
  cbv zeta in G. fold s2 in G. destruct G as (G1&G2&G3&G5&G6&G7).
  assert (Hv1 : 0 <= v < n s1) by (rewrite F1; exact Hv).
  assert (Hu1 : 0 <= u < n s1) by (rewrite F1; exact Hu).
  destruct (apply_swap_safe_Consistent SG HC1 Hfc1 Hv1 Hu1 Hne1)
    as [HC2 Hfc2]. fold s2 in HC2, Hfc2.
  assert (Ecs1 : classSize s1 = classSize s).
  { apply apply_swap_safe_classSize; auto; lia. }
  assert (Ecol : color s2 = color s).
  { rewrite G3, E1v, E1u, F3. apply vget_ext; [now rewrite !vsize_vset|].
    intros i Hi. rewrite !vsize_vset in Hi.
    destruct (Z.eq_dec i u) as [->|Hiu].
    - apply vget_vset_same. rewrite !vsize_vset. lia.
    - rewrite vget_vset_other by auto.
      destruct (Z.eq_dec i v) as [->|Hiv].
      + apply vget_vset_same. rewrite !vsize_vset. lia.
      + now rewrite !vget_vset_other by auto. }
  destruct (Consistent_same_colors HC HC2 Ecol) as (Ecf & Eobj & Hperm).
  unfold equal_up_to_list_order.
  split; [congruence|]. split; [congruence|]. split; [exact Ecol|].
  split; [|split; [exact Ecf|split; [exact Eobj|]]].
  - unfold s2. rewrite apply_swap_safe_classSize; auto.
    + rewrite Ecs1, E1v. lia.
    + rewrite Ecs1, E1u. lia.
  - split; [congruence|]. split; [congruence|]. split; [congruence|].
    split; [exact Hperm|apply (cs_list HC2)].
Qed.

End Undo.

(** C9, as the code has it.  On an instance without self-loops, in a
    consistent, fully coloured state, moving [v] to another class and back,
    or swapping [v] and [u] twice, restores the colours, the class sizes, the
    conflict counts, the objective and everything else of the state, and
    restores [conflictingVertices] as a set: it is a permutation of the
    former list, with [conflictingIndex] again its inverse. *)
Theorem undo_restores_up_to_list_order (inst : Instance)
  (s : SolutionManager) (v u c_new : Z) :
  simple_graph inst -> Consistent inst s -> fully_colored s ->
  vsize (classSize s) = k s -> 0 <= v < n s -> 0 <= u < n s ->
  (0 <= c_new < k s -> c_new <> vget 0 (color s) v ->
   equal_up_to_list_order
     (apply_move inst (apply_move inst s v c_new) v (vget 0 (color s) v)) s)
  /\ (vget 0 (color s) v <> vget 0 (color s) u ->
      equal_up_to_list_order
        (apply_swap_safe inst (apply_swap_safe inst s v u) v u) s).
Proof.
  intros SG HC Hfc Hk Hv Hu. split.
  - intros Hc _. now apply undo_move.
  - intros Hne. now apply undo_swap.
Qed.

(** * Class sizes under the greedy cap *)

Lemma Forall_vget (P : Z -> Prop) (l : list Z) :
  (forall c, 0 <= c < vsize l -> P (vget 0 l c)) -> Forall P l.
Proof.
  intros H. apply Forall_forall. intros x Hx.
  apply (In_vget 0) in Hx as (i & Hi & <-). now apply H.
Qed.

Lemma Forall_vget_inv (P : Z -> Prop) (l : list Z) c :
  Forall P l -> 0 <= c < vsize l -> P (vget 0 l c).
Proof.
  intros H Hc. rewrite Forall_forall in H. apply H. now apply vget_In.
Qed.

Lemma Forall_vset (P : Z -> Prop) (l : list Z) c y :
  Forall P l -> P y -> Forall P (vset l c y).
Proof.
  intros Hl Hy. unfold vset. destruct (c <? 0); auto.
  generalize (Z.to_nat c) as m. induction Hl as [|h t Hh Ht IH]; intros [|m];
    simpl; constructor; auto.
Qed.

Lemma countb_vset (p : Z -> bool) (l : list Z) c y :
  0 <= c < vsize l ->
  countb p (vset l c y) = countb p l - b2z (p (vget 0 l c)) + b2z (p y).
Proof.
  unfold vset, vget, vsize, b2z. intros Hc.
  destruct (Z.ltb_spec c 0); [lia|].
  assert (Hn : (Z.to_nat c < length l)%nat) by lia.
  clear Hc H. revert Hn. generalize (Z.to_nat c) as m.
  induction l as [|h t IH]; intros [|m] Hm; simpl in *; try lia.
  - rewrite !countb_cons. destruct (p h), (p y); lia.
  - rewrite !countb_cons, IH by lia. lia.
Qed.

Section Sizes.
Variables F : Z.

(** Every class between [0] and [F + 1]. *)
Definition capped (l : list Z) : Prop := Forall (fun x => 0 <= x <= F + 1) l.

Definition bigs (l : list Z) : Z := countb (fun x => x =? F + 1) l.

Lemma zsum_upper l : capped l -> zsum l <= F * vsize l + bigs l.
Proof.
  unfold capped, bigs, vsize. induction 1 as [|h t Hh Ht IH].
  - rewrite countb_nil. simpl. lia.
  - rewrite countb_cons. simpl zsum. simpl length.
    destruct (Z.eqb_spec h (F + 1)); lia.
Qed.

Lemma zsum_lower l :
  Forall (fun x => F <= x) l -> F * vsize l + bigs l <= zsum l.
Proof.
  unfold bigs, vsize. induction 1 as [|h t Hh Ht IH].
  - rewrite countb_nil. simpl. lia.
  - rewrite countb_cons. simpl zsum. simpl length.
    destruct (Z.eqb_spec h (F + 1)); lia.
Qed.

Lemma bigs_all l : Forall (fun x => F + 1 <= x) l -> capped l -> bigs l = vsize l.
Proof.
  unfold bigs, vsize, capped. induction 1 as [|h t Hh Ht IH]; intros Hc.
  - reflexivity.
  - inversion Hc; subst. rewrite countb_cons, IH by auto. simpl length.
    destruct (Z.eqb_spec h (F + 1)); lia.
Qed.

Lemma capped_tight l :
  capped l -> zsum l = F * vsize l + bigs l ->
  Forall (fun x => x = F \/ x = F + 1) l.
Proof.
  unfold capped. induction 1 as [|h t Hh Ht IH]; intros E; constructor.
  - pose proof (zsum_upper Ht) as Hu. unfold bigs, vsize in *.
    rewrite countb_cons in E. simpl zsum in E. simpl length in E.
    destruct (Z.eqb_spec h (F + 1)); lia.
  - apply IH. pose proof (zsum_upper Ht) as Hu. unfold bigs, vsize in *.
    rewrite countb_cons in E. simpl zsum in E. simpl length in E.
    destruct (Z.eqb_spec h (F + 1)); lia.
Qed.

End Sizes.

Lemma quot_facts n0 k0 :
  0 <= n0 -> 1 <= k0 ->
  0 <= Z.quot n0 k0 /\ 0 <= n0 - k0 * Z.quot n0 k0 < k0.
Proof.
  intros Hn Hk. rewrite Z.quot_div_nonneg by lia.
  pose proof (Z.div_mod n0 k0 ltac:(lia)).
  pose proof (Z.mod_pos_bound n0 k0 ltac:(lia)).
  pose proof (Z.div_pos n0 k0 Hn ltac:(lia)). lia.
Qed.

(** The equity invariant: every class of size [floor_size] or [big_size], and
    exactly [r = n - k * floor(n / k)] of them of size [big_size]. *)
Record equity (s : SolutionManager) : Prop := mkEquity {
  eq_k : 1 <= k s;
  eq_n : 0 <= n s;
  eq_size : vsize (classSize s) = k s;
  eq_floor : floor_size s = Z.quot (n s) (k s);
  eq_big : big_size s = floor_size s + 1;
  eq_classes : forall c, 0 <= c < k s ->
    vget 0 (classSize s) c = floor_size s
    \/ vget 0 (classSize s) c = big_size s;
  eq_count :
    countb (fun c => vget 0 (classSize s) c =? big_size s) (range (k s))
    = n s - k s * Z.quot (n s) (k s) }.

Lemma countb_range (p : Z -> bool) (l : list Z) :
  countb (fun c => p (vget 0 l c)) (range (vsize l)) = countb p l.
Proof.
  induction l as [|h t IH] using rev_ind.
  - reflexivity.
  - rewrite vsize_snoc, range_succ by apply vsize_nonneg.
    rewrite !countb_app, <- IH. f_equal.
    + apply countb_ext. intros c Hc. apply In_range in Hc.
      now rewrite vget_snoc_old by lia.
    + unfold countb. simpl. now rewrite vget_snoc_new.
Qed.

Lemma zsum_range (l : list Z) :
  zsum (map (vget 0 l) (range (vsize l))) = zsum l.
Proof.
  induction l as [|h t IH] using rev_ind.
  - reflexivity.
  - rewrite vsize_snoc, range_succ by apply vsize_nonneg.
    rewrite map_app, !zsum_app, <- IH. f_equal.
    + apply zsum_map_ext. intros c Hc. apply In_range in Hc.
      now rewrite vget_snoc_old by lia.
    + simpl. now rewrite vget_snoc_new.
Qed.

(** * The greedy constructions *)

Definition nonneg_conflicts (s : SolutionManager) : Prop :=
  forall x, 0 <= x < n s -> 0 <= vget 0 (conflicts s) x.

(** Where a vertex has a conflict and, if unlisted, exactly one, the guarded
    insertion of the constructions is [update_conflict_status]. *)
Lemma greedy_enlist_ucs s x :
  vget 0 (conflicts s) x > 0 ->
  (vget 0 (conflictingIndex s) x = -1 -> vget 0 (conflicts s) x = 1) ->
  greedy_enlist s x = update_conflict_status s x.
Proof.
  intros Hpos H1. unfold greedy_enlist, update_conflict_status.
  rewrite Z.gtb_ltb.
  destruct (Z.ltb_spec 0 (vget 0 (conflicts s) x)); [|lia].
  destruct (Z.eqb_spec (vget 0 (conflictingIndex s) x) (-1)) as [E|E].
  - rewrite (H1 E). reflexivity.
  - now rewrite andb_false_r.
Qed.

Lemma ucs_set_conflicts_comm s u v y :
  u <> v ->
  update_conflict_status (set_conflicts s (vset (conflicts s) u y)) v
  = set_conflicts (update_conflict_status s v) (vset (conflicts s) u y).
Proof.
  intros Huv. unfold update_conflict_status. sm_simpl.
  rewrite vget_vset_other by auto.
  destruct (vget 0 (conflicts s) v >? 0);
    destruct (vget 0 (conflictingIndex s) v =? -1); reflexivity.
Qed.

Lemma ucs_index_positive s x y :
  vget 0 (conflicts s) x > 0 -> y <> x ->
  vget 0 (conflictingIndex (update_conflict_status s x)) y
  = vget 0 (conflictingIndex s) y.
Proof.
  intros Hpos Hne. unfold update_conflict_status. rewrite Z.gtb_ltb.
  destruct (Z.ltb_spec 0 (vget 0 (conflicts s) x)); [|lia].
  destruct (vget 0 (conflictingIndex s) x =? -1); sm_simpl; auto.
  now rewrite vget_vset_other by auto.
Qed.

Lemma ListInv_unlisted s x :
  ListInv s -> nonneg_conflicts s -> 0 <= x < n s ->
  vget 0 (conflictingIndex s) x = -1 -> vget 0 (conflicts s) x = 0.
Proof.
  intros HL Hnn Hx E. specialize (Hnn x Hx).
  destruct (Z_gt_dec (vget 0 (conflicts s) x) 0) as [Hp|Hp]; [|lia].
  apply (li_iff HL) in Hp; auto; [contradiction|discriminate].
Qed.

(** The neighbour step of the constructions is the step of the second loop
    of [apply_move]. *)
Lemma greedy_link_bump v c s u :
  ListInv s -> nonneg_conflicts s ->
  0 <= v < n s -> 0 <= u < n s -> u <> v -> c <> -1 ->
  greedy_link v c s u
  = if vget 0 (color s) u =? c then bump_edge 1 v s u else s.
Proof.
  intros HL Hnn Hv Hu Huv Hc. unfold greedy_link.
  destruct (Z.eqb_spec (vget 0 (color s) u) c) as [Ec|Ec].
  2:{ destruct (vget 0 (color s) u =? -1); reflexivity. }
  destruct (Z.eqb_spec (vget 0 (color s) u) (-1)) as [E|E]; [congruence|].
  simpl negb. cbv iota zeta. unfold bump_edge. cbv zeta.
  set (A := set_obj s (obj s + 1)).
  set (B := set_conflicts A (vset (conflicts A) v (vget 0 (conflicts A) v + 1))).
  set (s3 := set_conflicts B (vset (conflicts B) u (vget 0 (conflicts B) u + 1))).
  assert (Hsz : vsize (conflicts s) = n s) by apply (li_conflicts_size HL).
  assert (EBv : vget 0 (conflicts B) v = vget 0 (conflicts s) v + 1).
  { subst B A. sm_simpl. apply vget_vset_same. lia. }
  assert (EBu : vget 0 (conflicts B) u = vget 0 (conflicts s) u).
  { subst B A. sm_simpl. apply vget_vset_other. auto. }
  assert (E3v : vget 0 (conflicts s3) v = vget 0 (conflicts s) v + 1).
  { subst s3. sm_simpl. rewrite vget_vset_other by auto. exact EBv. }
  assert (E3u : vget 0 (conflicts s3) u = vget 0 (conflicts s) u + 1).
  { subst s3. sm_simpl. rewrite vget_vset_same; [lia|].
    subst B A. sm_simpl. rewrite vsize_vset. lia. }
  pose proof (Hnn v Hv) as Hnv. pose proof (Hnn u Hu) as Hnu.
  rewrite (@greedy_enlist_ucs s3 v).
  2:{ lia. }
  2:{ intros Ei. rewrite E3v.
      rewrite (@ListInv_unlisted s v HL Hnn Hv Ei). reflexivity. }
  assert (Ecomm : update_conflict_status s3 v
                  = set_conflicts (update_conflict_status B v)
                      (vset (conflicts B) u (vget 0 (conflicts B) u + 1))).
  { subst s3. apply ucs_set_conflicts_comm. auto. }
  rewrite (@greedy_enlist_ucs (update_conflict_status s3 v) u).
  - rewrite Ecomm.
    destruct (ucs_frame B v) as (_&_&_&_&Ecf&_). cbv zeta in Ecf.
    rewrite Ecf. reflexivity.
  - destruct (ucs_frame s3 v) as (_&_&_&_&Ecf&_). cbv zeta in Ecf.
    rewrite Ecf. lia.
  - intros Ei. destruct (ucs_frame s3 v) as (_&_&_&_&Ecf&_).
    cbv zeta in Ecf. rewrite Ecf, E3u.
    rewrite ucs_index_positive in Ei by (auto; lia).
    rewrite (@ListInv_unlisted s u HL Hnn Hu Ei). reflexivity.
Qed.

Lemma bump_edge_nonneg v s u :
  nonneg_conflicts s -> vsize (conflicts s) = n s ->
  nonneg_conflicts (bump_edge 1 v s u).
Proof.
  intros Hnn Hsz x.
  destruct (bump_edge_frame 1 v s u) as (F1&_&_&_&_&_&_&_&F9).
  cbv zeta in F1, F9. rewrite F1, F9. intros Hx. specialize (Hnn x Hx).
  destruct (Z.eq_dec x u) as [->|Hxu].
  - rewrite vget_vset_same by (rewrite vsize_vset; lia).
    destruct (Z.eq_dec u v) as [->|Huv].
    + rewrite vget_vset_same by lia. lia.
    + rewrite vget_vset_other by auto. lia.
  - rewrite vget_vset_other by auto.
    destruct (Z.eq_dec x v) as [->|Hxv].
    + rewrite vget_vset_same by lia. lia.
    + rewrite vget_vset_other by auto. lia.
Qed.

Lemma greedy_fold_bump v c nbrs : forall s,
  ListInv s -> nonneg_conflicts s -> 0 <= v < n s ->
  (forall u, In u nbrs -> 0 <= u < n s /\ u <> v) -> c <> -1 ->
  fold_left (greedy_link v c) nbrs s = bump_loop 1 v c nbrs s.
Proof.
  induction nbrs as [|u nbrs IH]; intros s HL Hnn Hv Hr Hc; [reflexivity|].
  unfold bump_loop in *. simpl fold_left.
  destruct (Hr u (or_introl eq_refl)) as [Hu Huv].
  rewrite greedy_link_bump by auto.
  destruct (vget 0 (color s) u =? c).
  - destruct (bump_edge_frame 1 v s u) as (F1&_). cbv zeta in F1.
    apply IH; auto; try rewrite F1; auto.
    + now apply bump_edge_ListInv.
    + apply bump_edge_nonneg; auto. apply (li_conflicts_size HL).
    + intros u' Hu'. apply Hr. now right.
  - apply IH; auto. intros u' Hu'. apply Hr. now right.
Qed.

(** Every vertex is uncoloured or has a colour of [0 .. k-1]. *)
Definition partially_colored (s : SolutionManager) : Prop :=
  forall v, 0 <= v < n s ->
    vget 0 (color s) v = -1 \/ 0 <= vget 0 (color s) v < k s.

(** Invariant 1 of the data model: [classSize[c]] counts the vertices of
    colour [c]. *)
Definition sizes_match (s : SolutionManager) : Prop :=
  vsize (classSize s) = k s
  /\ forall c, 0 <= c < k s ->
       vget 0 (classSize s) c
       = countb (fun v => vget 0 (color s) v =? c) (range (n s)).

Lemma mult_NoDup v l : NoDup l -> In v l -> mult v l = 1.
Proof.
  induction 1 as [|h t Hh Hnd IH]; intros Hv; [destruct Hv|].
  rewrite mult_cons. destruct Hv as [->|Hv].
  - rewrite Z.eqb_refl, mult_not_In by auto. reflexivity.
  - rewrite IH by auto. destruct (Z.eqb_spec h v); [subst; contradiction|].
    reflexivity.
Qed.

Lemma mult_range v m : 0 <= v < m -> mult v (range m) = 1.
Proof.
  intros Hv. apply mult_NoDup; [apply NoDup_range|now apply In_range].
Qed.

Lemma Consistent_nonneg inst s : Consistent inst s -> nonneg_conflicts s.
Proof.
  intros HC x Hx. rewrite (cs_conflicts HC) by auto.
  destruct (vget 0 (color s) x =? -1); [lia|apply countb_nonneg].
Qed.

Section Placement.
Variable inst : Instance.
Hypothesis SG : simple_graph inst.

Lemma assign_color_frame s v c :
  let s2 := assign_color s v c in
  n s2 = n s /\ k s2 = k s /\ color s2 = vset (color s) v c
  /\ classSize s2 = vset (classSize s) c (vget 0 (classSize s) c + 1)
  /\ conflicts s2 = conflicts s /\ obj s2 = obj s
  /\ conflictingVertices s2 = conflictingVertices s
  /\ conflictingIndex s2 = conflictingIndex s
  /\ floor_size s2 = floor_size s /\ big_size s2 = big_size s
  /\ tabu_matrix s2 = tabu_matrix s.
Proof. cbv zeta. unfold assign_color. sm_simpl. repeat split. Qed.

(** Colouring a fresh vertex and linking it to its coloured neighbours keeps
    the data consistent. *)
Lemma place_Consistent s v c :
  Consistent inst s -> 0 <= v < n s ->
  vget 0 (color s) v = -1 -> c <> -1 ->
  let s' := fold_left (greedy_link v c) (adj_of inst v) (assign_color s v c) in
  Consistent inst s'
  /\ n s' = n s /\ k s' = k s /\ color s' = vset (color s) v c
  /\ classSize s' = vset (classSize s) c (vget 0 (classSize s) c + 1)
  /\ floor_size s' = floor_size s /\ big_size s' = big_size s
  /\ tabu_matrix s' = tabu_matrix s.
Proof.
  intros HC Hv Hun Hc. cbv zeta.
  destruct (assign_color_frame s v c)
    as (A1&A2&A3&A4&A5&A6&A7&A8&A9&A10&A11).
  set (s2 := assign_color s v c) in *.
  assert (HL2 : ListInv s2)
    by (apply ListInv_same with (s := s); auto; apply (cs_list HC)).
  assert (Hnn2 : nonneg_conflicts s2).
  { intros x Hx. rewrite A5. apply (Consistent_nonneg HC). congruence. }
  assert (Hr : forall u, In u (adj_of inst v) -> 0 <= u < n s2 /\ u <> v).
  { intros u Hu. apply (adj_of_In SG) in Hu. rewrite A1, (cs_n HC). lia. }
  rewrite greedy_fold_bump; auto.
  destruct (bump_loop_frame 1 v c (adj_of inst v) s2)
    as (B1&B2&B3&B4&B5&B6&B7&_).
  cbv zeta in *.
  assert (Hsz : vsize (conflicts s2) = n s2).
  { rewrite A5, A1. apply (li_conflicts_size (cs_list HC)). }
  destruct (@bump_loop_conflicts 1 v c (adj_of inst v) s2) as [C1 C2];
    auto; try (intros u Hu; now apply Hr).
  destruct (@bump_loop_inv 1 v c (adj_of inst v) s2) as [S1 L1];
    auto; try (intros u Hu; now apply Hr).
  set (s' := bump_loop 1 v c (adj_of inst v) s2) in *.
  split; [|repeat split; congruence].
  constructor.
  - rewrite B1, A1. apply (cs_n HC).
  - rewrite B3, A3, vsize_vset, B1, A1. apply (cs_color_size HC).
  - rewrite B1. intros w Hw. rewrite (C2 w Hw), A5, B3, A3.
    rewrite A1 in Hw. unfold same_color_nbrs. rewrite B3, A3.
    rewrite countb_at.
    assert (Hvc : 0 <= v < vsize (color s))
      by (rewrite (cs_color_size HC); exact Hv).
    destruct (Z.eqb_spec w v) as [->|Hwv].
    + rewrite (mult_self SG), vget_vset_same by auto.
      rewrite (cs_conflicts HC), Hun by auto. simpl (-1 =? -1).
      destruct (Z.eqb_spec c (-1)); [contradiction|]. unfold b2z. lia.
    + rewrite vget_vset_other by auto.
      rewrite (mult_sym SG w v), (cs_conflicts HC Hw).
      unfold same_color_nbrs. set (cw := vget 0 (color s) w).
      rewrite (@countb_recolor (color s) v c cw (adj_of inst w) Hvc), Hun.
      rewrite (Z.eqb_sym c cw).
      destruct (Z.eqb_spec cw (-1)) as [E|E].
      * destruct (Z.eqb_spec cw c); [congruence|]. unfold b2z. lia.
      * destruct (Z.eqb_spec (-1) cw); [congruence|].
        unfold b2z. destruct (cw =? c); lia.
  - apply S1. rewrite A5, A6. apply (cs_obj HC).
  - apply L1. exact HL2.
Qed.

Lemma place_sizes_match s v c :
  sizes_match s -> vsize (color s) = n s -> 0 <= v < n s ->
  vget 0 (color s) v = -1 -> 0 <= c < k s ->
  forall s', n s' = n s -> k s' = k s -> color s' = vset (color s) v c ->
    classSize s' = vset (classSize s) c (vget 0 (classSize s) c + 1) ->
    sizes_match s'.
Proof.
  intros [Hsz Hm] Hcs Hv Hun Hc s' En Ek Ecol Ecls. split.
  - rewrite Ecls, vsize_vset, Ek. exact Hsz.
  - rewrite Ek, En, Ecol, Ecls. intros c' Hc'.
    rewrite countb_recolor, Hun, mult_range, <- Hm by (auto; lia).
    unfold b2z. destruct (Z.eqb_spec (-1) c'); [lia|].
    destruct (Z.eqb_spec c c') as [->|Hne].
    + rewrite vget_vset_same by lia. lia.
    + rewrite vget_vset_other by auto. lia.
Qed.

End Placement.

Section GreedyLoop.
Context {RE : RandomEngine}.
Variable inst : Instance.
Hypothesis SG : simple_graph inst.

Lemma In_candidate_classes s M c :
  In c (candidate_classes s M)
  <-> 0 <= c < k s /\ vget 0 (classSize s) c <= M - 1.
Proof.
  unfold candidate_classes. rewrite filter_In, In_range.
  destruct (Z.leb_spec (vget 0 (classSize s) c) (M - 1)); intuition lia.
Qed.

Lemma choose_color_candidate fallback s v M g :
  candidate_classes s M <> [] ->
  In (fst (choose_color inst fallback s v M g)) (candidate_classes s M).
Proof.
  intros Hne. unfold choose_color, first_fit.
  destruct (find _ (candidate_classes s M)) as [c|] eqn:Ef.
  - apply find_some in Ef. apply Ef.
  - destruct (candidate_classes s M) as [|c0 rest] eqn:EI; [contradiction|].
    pose proof (@uniform_int_range RE 0 (vsize (c0 :: rest) - 1) g) as Hr.
    destruct (uniform_int 0 (vsize (c0 :: rest) - 1) g) as [i g1].
    simpl fst in *. apply vget_In.
    assert (0 <= vsize (c0 :: rest) - 1).
    { unfold vsize. simpl length. lia. }
    lia.
Qed.

(** The invariant of the loop over the vertices still to colour: [rest] are
    those vertices, [cr] is [current_r], [F] is [floor_nk] and [R] is
    [max_r]. *)
Record GreedyInv (F R : Z) (rest : list Z) (s : SolutionManager) (cr : Z)
  : Prop := mkGreedyInv {
  gi_cons : Consistent inst s;
  gi_part : partially_colored s;
  gi_match : sizes_match s;
  gi_capped : capped F (classSize s);
  gi_bigs : bigs F (classSize s) = cr;
  gi_cr : cr <= R;
  gi_sum : zsum (classSize s) + Z.of_nat (length rest) = n s;
  gi_nodup : NoDup rest;
  gi_rest : forall v, In v rest
                      <-> 0 <= v < n s /\ vget 0 (color s) v = -1 }.

Lemma candidates_exist F R v rest s cr :
  1 <= k s -> 0 <= n s ->
  F = Z.quot (n s) (k s) -> R = n s - k s * F ->
  GreedyInv F R (v :: rest) s cr ->
  candidate_classes s (if cr <? R then F + 1 else F) <> [].
Proof.
  intros Hk Hn EF ER HG Hempty.
  destruct (quot_facts Hn Hk) as [HF HR]. rewrite <- EF in HF, HR.
  rewrite <- ER in HR.
  destruct (gi_match HG) as [Hsz _].
  assert (Hall : forall c, 0 <= c < vsize (classSize s) ->
            (if cr <? R then F + 1 else F) <= vget 0 (classSize s) c).
  { intros c Hc. rewrite Hsz in Hc.
    destruct (Z_le_dec (if cr <? R then F + 1 else F)
                (vget 0 (classSize s) c)) as [|Hlt]; auto.
    assert (Hin : In c (candidate_classes s (if cr <? R then F + 1 else F)))
      by (apply In_candidate_classes; lia).
    rewrite Hempty in Hin. destruct Hin. }
  pose proof (gi_sum HG) as Hsum. simpl length in Hsum.
  pose proof (gi_bigs HG) as Hb. pose proof (gi_cr HG) as Hcr.
  destruct (Z.ltb_spec cr R) as [Hlt|Hge].
  - pose proof (bigs_all (Forall_vget _ _ Hall) (gi_capped HG)). lia.
  - pose proof (zsum_lower (Forall_vget _ _ Hall)) as Hlow.
    rewrite Hsz in Hlow. nia.
Qed.

(** One turn of the loop keeps the invariant. *)
Lemma greedy_place_step fallback F R v rest s cr g :
  1 <= k s -> 0 <= n s ->
  F = Z.quot (n s) (k s) -> R = n s - k s * F ->
  GreedyInv F R (v :: rest) s cr ->
  let '(s', cr', _) := greedy_place inst fallback F R (s, cr, g) v in
  GreedyInv F R rest s' cr'
  /\ n s' = n s /\ k s' = k s /\ floor_size s' = floor_size s
  /\ big_size s' = big_size s /\ tabu_matrix s' = tabu_matrix s.
Proof.
  intros Hk Hn EF ER HG. unfold greedy_place.
  pose proof (candidates_exist Hk Hn EF ER HG) as Hne.
  pose proof (@choose_color_candidate fallback s v _ g Hne) as Hin.
  set (M := if cr <? R then F + 1 else F) in *.
  destruct (choose_color inst fallback s v M g) as [c g'].
  simpl fst in Hin. apply In_candidate_classes in Hin as [Hc HcM].
  destruct (quot_facts Hn Hk) as [HF HR]. rewrite <- EF in HF, HR.
  rewrite <- ER in HR.
  destruct (proj1 (gi_rest HG v) (or_introl eq_refl)) as [Hv Hun].
  destruct (gi_match HG) as [Hsz Hm].
  assert (Hcsz : 0 <= c < vsize (classSize s)) by lia.
  pose proof (Forall_vget_inv (gi_capped HG) Hcsz) as Hcap.
  cbv beta in Hcap.
  assert (HMF : M <= F + 1) by (unfold M; destruct (cr <? R); lia).
  destruct (@place_Consistent inst SG s v c (gi_cons HG) Hv Hun)
    as (HC'&E1&E2&E3&E4&E5&E6&E7); [lia|].
  destruct (assign_color_frame s v c) as (_&_&_&A4&_).
  cbv zeta in A4. rewrite A4. clear A4.
  rewrite vget_vset_same by auto.
  set (s' := fold_left (greedy_link v c) (adj_of inst v) (assign_color s v c))
    in *.
  split; [|repeat split; assumption].
  pose proof (gi_nodup HG) as Hnd. apply NoDup_cons_iff in Hnd as [Hvr Hnd'].
  constructor; auto.
  - intros w. rewrite E1, E2, E3. intros Hw.
    destruct (Z.eq_dec w v) as [->|Hwv].
    + rewrite vget_vset_same
        by (rewrite (cs_color_size (gi_cons HG)); exact Hv).
      right. exact Hc.
    + rewrite vget_vset_other by auto. now apply (gi_part HG).
  - apply place_sizes_match with (s := s) (v := v) (c := c); auto.
    + apply (gi_match HG).
    + apply (cs_color_size (gi_cons HG)).
  - rewrite E4. apply Forall_vset; [apply (gi_capped HG)|]. cbv beta. lia.
  - rewrite E4. unfold bigs. rewrite countb_vset by auto. fold (bigs F (classSize s)).
    rewrite (gi_bigs HG). unfold b2z.
    destruct (Z.eqb_spec (vget 0 (classSize s) c) (F + 1)); [lia|].
    destruct (Z.eqb_spec (vget 0 (classSize s) c + 1) (F + 1)); lia.
  - pose proof (gi_cr HG).
    destruct (Z.eqb_spec (vget 0 (classSize s) c + 1) (F + 1)); [|lia].
    unfold M in HcM. destruct (Z.ltb_spec cr R); lia.
  - rewrite E4, E1, zsum_vset by auto.
    pose proof (gi_sum HG) as Hsum. simpl length in Hsum. lia.
  - intros w. rewrite E1, E3. split.
    + intros Hw. assert (Hwv : w <> v) by (intros ->; contradiction).
      rewrite vget_vset_other by auto.
      apply (gi_rest HG). now right.
    + intros [Hw Hcw].
      destruct (Z.eq_dec w v) as [->|Hwv].
      * rewrite vget_vset_same in Hcw
          by (rewrite (cs_color_size (gi_cons HG)); exact Hv). lia.
      * rewrite vget_vset_other in Hcw by auto.
        destruct (proj2 (gi_rest HG w) (conj Hw Hcw)) as [E|Hin]; auto.
        congruence.
Qed.

Lemma greedy_fold fallback F R : forall rest s cr g,
  1 <= k s -> 0 <= n s ->
  F = Z.quot (n s) (k s) -> R = n s - k s * F ->
  GreedyInv F R rest s cr ->
  let '(s', cr', _) :=
    fold_left (greedy_place inst fallback F R) rest (s, cr, g) in
  GreedyInv F R [] s' cr'
  /\ n s' = n s /\ k s' = k s /\ floor_size s' = floor_size s
  /\ big_size s' = big_size s /\ tabu_matrix s' = tabu_matrix s.
Proof.
  induction rest as [|v rest IH]; intros s cr g Hk Hn EF ER HG.
  - simpl. split; [exact HG|repeat split; reflexivity].
  - cbn [fold_left].
    pose proof (@greedy_place_step fallback F R v rest s cr g Hk Hn EF ER HG)
      as Hstep.
    destruct (greedy_place inst fallback F R (s, cr, g) v) as [[s1 cr1] g1].
    destruct Hstep as (HG1&E1&E2&E3&E4&E5).
    specialize (IH s1 cr1 g1).
    rewrite E1, E2 in IH. specialize (IH Hk Hn EF ER HG1).
    destruct (fold_left (greedy_place inst fallback F R) rest (s1, cr1, g1))
      as [[s2 cr2] g2].
    destruct IH as (HG2&I1&I2&I3&I4&I5). cbv beta iota.
    split; [exact HG2|repeat split; congruence].
Qed.

End GreedyLoop.

(** * States that satisfy the data model *)

(** Invariants 1 to 5 of the data model together, on a fully coloured
    state. *)
Record Good (inst : Instance) (s : SolutionManager) : Prop := mkGood {
  good_consistent : Consistent inst s;
  good_colored : fully_colored s;
  good_sizes : sizes_match s;
  good_equity : equity s }.

Lemma vsize_fill {A} (l : list A) x : vsize (fill l x) = vsize l.
Proof. unfold fill, vsize. now rewrite repeat_length. Qed.

Lemma vget_fill (l : list Z) x i : 0 <= i < vsize l -> vget 0 (fill l x) i = x.
Proof. intros Hi. unfold fill. apply vget_repeat. exact Hi. Qed.

Lemma zsum_repeat_zero m : zsum (repeat 0 m) = 0.
Proof. induction m; simpl; lia. Qed.

Lemma countb_none {A} (p : A -> bool) l :
  (forall x, In x l -> p x = false) -> countb p l = 0.
Proof.
  intros H. unfold countb. apply zsum_map_zero. intros x Hx.
  now rewrite (H x Hx).
Qed.

Section Initial.
Context {RE : RandomEngine}.
Variable inst : Instance.
Hypothesis SG : simple_graph inst.

Lemma cleared_GreedyInv F R s vertices :
  0 <= F -> 0 <= R -> n s = inst_n inst -> 0 <= n s ->
  vsize (color s) = n s -> vsize (conflicts s) = n s ->
  vsize (conflictingIndex s) = n s -> vsize (classSize s) = k s ->
  Permutation vertices (range (n s)) ->
  GreedyInv inst F R vertices (clear_state s) 0.
Proof.
  intros HF HR En Hn Hc Hcf Hci Hcs Hperm.
  constructor; unfold clear_state, partially_colored, sizes_match; sm_simpl.
  - constructor; sm_simpl; auto.
    + now rewrite vsize_fill.
    + intros v Hv. rewrite !vget_fill by lia. reflexivity.
    + unfold fill. rewrite zsum_repeat_zero. reflexivity.
    + constructor; sm_simpl; try (now rewrite vsize_fill).
      * unfold vsize. simpl. intros i Hi. lia.
      * intros v Hv. left. apply vget_fill. lia.
      * intros v Hv _. rewrite !vget_fill by lia. split; [congruence|lia].
  - intros v Hv. left. apply vget_fill. lia.
  - split; sm_simpl; [now rewrite vsize_fill|].
    intros c Hc'. rewrite vget_fill by lia. symmetry.
    apply countb_none. intros v Hv. apply In_range in Hv.
    rewrite vget_fill by lia. apply Z.eqb_neq. lia.
  - unfold capped, fill. apply Forall_forall. intros x Hx.
    apply repeat_spec in Hx. lia.
  - unfold bigs. apply countb_none. intros x Hx.
    apply repeat_spec in Hx. apply Z.eqb_neq. lia.
  - exact HR.
  - unfold fill. rewrite zsum_repeat_zero.
    rewrite (Permutation_length Hperm), length_range. lia.
  - apply (Permutation_NoDup (Permutation_sym Hperm)), NoDup_range.
  - intros v. rewrite <- In_range. split.
    + intros Hv. assert (Hr : In v (range (n s)))
        by (eapply Permutation_in; eauto).
      split; auto. apply vget_fill. apply In_range in Hr. lia.
    + intros [Hv _]. eapply Permutation_in; [apply Permutation_sym|]; eauto.
Qed.

Lemma GreedyInv_done F R s cr :
  1 <= k s -> 0 <= n s ->
  F = Z.quot (n s) (k s) -> R = n s - k s * F ->
  floor_size s = F -> big_size s = F + 1 ->
  GreedyInv inst F R [] s cr -> Good inst s.
Proof.
  intros Hk Hn EF ER Efl Ebg HG.
  destruct (gi_match HG) as [Hsz Hm].
  pose proof (gi_sum HG) as Hsum. simpl length in Hsum.
  pose proof (zsum_upper (gi_capped HG)) as Hup.
  pose proof (gi_bigs HG) as Hb. pose proof (gi_cr HG) as Hcr.
  rewrite Hsz in Hup.
  assert (Ecr : cr = R) by nia.
  assert (Htight : zsum (classSize s) = F * vsize (classSize s)
                                      + bigs F (classSize s))
    by (rewrite Hsz; nia).
  pose proof (capped_tight (gi_capped HG) Htight) as Hall.
  constructor.
  - apply (gi_cons HG).
  - intros v Hv. destruct (gi_part HG Hv) as [E|Hr]; auto.
    destruct (proj2 (gi_rest HG v) (conj Hv E)).
  - apply (gi_match HG).
  - constructor; auto.
    + congruence.
    + lia.
    + intros c Hc. rewrite Efl, Ebg.
      apply (Forall_vget_inv Hall). lia.
    + rewrite Ebg, <- EF, <- ER, <- Ecr, <- Hb, <- Hsz.
      unfold bigs. apply (countb_range (fun x => x =? F + 1)).
Qed.

(** [construct_greedy_initial] on a freshly initialised manager yields a
    state that satisfies the data model. *)
Lemma construct_greedy_initial_Good K seed :
  K = -1 \/ 1 <= K ->
  Good inst (construct_greedy_initial inst (init inst K) seed).
Proof.
  intros HK. unfold construct_greedy_initial.
  set (s := init inst K).
  pose proof (sg_n SG) as Hn. pose proof (sg_degree SG) as Hd.
  assert (Hk : 1 <= k s).
  { unfold s, init. sm_simpl. destruct (Z.eqb_spec K (-1)); lia. }
  assert (En : n s = inst_n inst) by reflexivity.
  assert (E0n : n (clear_state s) = n s) by reflexivity.
  assert (E0k : k (clear_state s) = k s) by reflexivity.
  rewrite E0n, E0k.
  pose proof (@shuffle_perm RE (range (n s)) (mt19937 seed)) as Hperm.
  destruct (shuffle (range (n s)) (mt19937 seed)) as [vertices g1].
  simpl fst in Hperm.
  destruct (quot_facts (n0 := n s) (k0 := k s)) as [HF HR]; try lia.
  set (F := Z.quot (n s) (k s)) in *.
  set (R := n s - k s * F) in *.
  assert (HG0 : GreedyInv inst F R vertices (clear_state s) 0).
  { apply cleared_GreedyInv; auto; try lia; unfold s, init; sm_simpl;
      rewrite vsize_repeat; try lia.
    destruct (Z.eqb_spec K (-1)); lia. }
  pose proof (@greedy_fold RE inst SG (smallest_class) F R vertices
                (clear_state s) 0 g1) as Hfold.
  rewrite E0n, E0k in Hfold. specialize (Hfold Hk ltac:(lia) eq_refl eq_refl HG0).
  destruct (fold_left (greedy_place inst smallest_class F R) vertices
              (clear_state s, 0, g1)) as [[s' cr'] g'].
  destruct Hfold as (HG'&E1&E2&E3&E4&E5). simpl fst.
  apply GreedyInv_done with (F := F) (R := R) (cr := cr'); auto;
    try (rewrite E1, E2; auto); try lia;
    try (rewrite E3; reflexivity); try (rewrite E4; reflexivity).
Qed.

End Initial.

(** * The moves of the engine keep the data model *)

Lemma Consistent_same inst s s' :
  n s' = n s -> color s' = color s -> conflicts s' = conflicts s ->
  conflictingVertices s' = conflictingVertices s ->
  conflictingIndex s' = conflictingIndex s -> obj s' = obj s ->
  Consistent inst s -> Consistent inst s'.
Proof.
  intros E1 E2 E3 E4 E5 E6 [H1 H2 H3 H4 H5].
  constructor; unfold same_color_nbrs in *; rewrite ?E1, ?E2, ?E3, ?E6; auto.
  apply ListInv_same with (s := s); auto.
Qed.

Lemma equity_same s s' :
  n s' = n s -> k s' = k s -> classSize s' = classSize s ->
  floor_size s' = floor_size s -> big_size s' = big_size s ->
  equity s -> equity s'.
Proof.
  intros E1 E2 E3 E4 E5 [H1 H2 H3 H4 H5 H6 H7].
  constructor; rewrite ?E1, ?E2, ?E3, ?E4, ?E5; auto.
Qed.

(** The data model does not read the tabu table. *)
Lemma Good_set_tabu_matrix inst s m :
  Good inst s -> Good inst (set_tabu_matrix s m).
Proof.
  intros [HC Hf Hs He]. constructor.
  - apply Consistent_same with (s := s); auto.
  - exact Hf.
  - exact Hs.
  - apply equity_same with (s := s); auto.
Qed.

Section EngineMoves.
Variable inst : Instance.
Hypothesis SG : simple_graph inst.

Lemma apply_move_sizes_match s v new_c :
  sizes_match s -> fully_colored s -> vsize (color s) = n s ->
  0 <= v < n s -> 0 <= new_c < k s ->
  sizes_match (apply_move inst s v new_c).
Proof.
  intros [Hsz Hm] Hfc Hcs Hv Hc.
  pose proof (Hfc v Hv) as Hold.
  pose proof (apply_move_frame SG s v new_c) as F. cbv zeta in F.
  destruct F as (F1&F2&F3&F4&_). split.
  - rewrite F4, F2, !vsize_vset. exact Hsz.
  - rewrite F1, F2, F3, (apply_move_classSize SG). intros c Hc'.
    rewrite vget_shift_one by lia.
    rewrite countb_recolor, mult_range, <- Hm by (auto; lia).
    unfold b2z. rewrite (Z.eqb_sym c (vget 0 (color s) v)), (Z.eqb_sym c new_c).
    destruct (vget 0 (color s) v =? c), (new_c =? c); lia.
Qed.

(** The data model without the equity clause. *)
Definition Sound (s : SolutionManager) : Prop :=
  Consistent inst s /\ fully_colored s /\ sizes_match s.

Lemma apply_move_Sound s v new_c :
  Sound s -> 0 <= v < n s -> 0 <= new_c < k s ->
  Sound (apply_move inst s v new_c).
Proof.
  intros (HC & Hfc & Hsm) Hv Hc. pose proof (Hfc v Hv).
  split; [|split].
  - apply apply_move_Consistent; auto; lia.
  - apply apply_move_fully_colored; auto. apply (cs_color_size HC).
  - apply apply_move_sizes_match; auto. apply (cs_color_size HC).
Qed.

(** A transfer from a class of size [big_size] to one of size [floor_size]. *)
Lemma transfer_Good s v j :
  Good inst s -> 0 <= v < n s -> 0 <= j < k s ->
  vget 0 (classSize s) (vget 0 (color s) v) = big_size s ->
  vget 0 (classSize s) j = floor_size s ->
  Good inst (apply_move inst s v j).
Proof.
  intros [HC Hfc Hsm He] Hv Hj Hbig Hfloor.
  destruct (@apply_move_Sound s v j) as (HC' & Hfc' & Hsm'); auto.
  { split; [|split]; assumption. }
  constructor; auto.
  pose proof (apply_move_frame SG s v j) as F. cbv zeta in F.
  destruct F as (F1&F2&_&_&F5&F6&_).
  pose proof (apply_move_classSize SG s v j) as Ecs.
  pose proof (Hfc v Hv) as Hold.
  destruct He as [H1 H2 H3 H4 H5 H6 H7].
  set (old := vget 0 (color s) v) in *.
  assert (Hne : old <> j) by (intros E; rewrite E in Hbig; lia).
  constructor; rewrite ?F1, ?F2, ?F5, ?F6, ?Ecs; auto.
  - now rewrite vsize_shift_one.
  - intros c Hc. rewrite vget_shift_one by lia. unfold b2z.
    destruct (Z.eqb_spec c old) as [E1|E1];
      destruct (Z.eqb_spec c j) as [E2|E2]; try lia.
    + rewrite E1. lia.
    + rewrite E2. lia.
    + destruct (H6 c Hc); lia.
  - rewrite <- H7. rewrite <- !H3.
    rewrite <- (vsize_shift_one (classSize s) old j) at 1.
    rewrite !(countb_range (fun x => x =? big_size s)).
    unfold shift_one. rewrite !countb_vset by (rewrite ?vsize_vset; lia).
    rewrite vget_vset_other by auto. rewrite Hbig, Hfloor. unfold b2z.
    rewrite Z.eqb_refl.
    destruct (Z.eqb_spec (big_size s - 1) (big_size s)); [lia|].
    destruct (Z.eqb_spec (floor_size s) (big_size s)); [lia|].
    destruct (Z.eqb_spec (floor_size s + 1) (big_size s)); lia.
Qed.

(** A swap of two vertices of different colours. *)
Lemma swap_Good s v u :
  Good inst s -> 0 <= v < n s -> 0 <= u < n s ->
  vget 0 (color s) v <> vget 0 (color s) u ->
  Good inst (apply_swap_safe inst s v u).
Proof.
  intros [HC Hfc Hsm He] Hv Hu Hne.
  pose proof (Hfc v Hv) as Hcv. pose proof (Hfc u Hu) as Hcu.
  destruct (apply_swap_safe_Consistent SG HC Hfc Hv Hu Hne) as [HC' Hfc'].
  pose proof (@apply_swap_safe_frame inst SG s v u Hne) as F. cbv zeta in F.
  destruct F as (F1&F2&F3&F5&F6&F7).
  assert (Ecs : classSize (apply_swap_safe inst s v u) = classSize s).
  { destruct Hsm as [Hsz _].
    apply apply_swap_safe_classSize; auto; lia. }
  constructor; auto.
  - unfold apply_swap_safe.
    pose proof (apply_move_frame SG s v (vget 0 (color s) u)) as G.
    cbv zeta in G. destruct G as (G1&G2&G3&_).
    destruct (@apply_move_Sound s v (vget 0 (color s) u)) as (A&B&C); auto.
    { split; [|split]; assumption. }
    apply apply_move_sizes_match; auto.
    + apply (cs_color_size A).
    + rewrite G1. exact Hu.
    + rewrite G2. exact Hcv.
  - apply equity_same with (s := s); auto.
Qed.

End EngineMoves.

Lemma fold_left_inv {A B} (P : A -> Prop) (f : A -> B -> A) l : forall a,
  P a -> (forall a x, In x l -> P a -> P (f a x)) -> P (fold_left f l a).
Proof.
  induction l as [|h t IH]; intros a Ha Hstep; [exact Ha|].
  simpl. apply IH.
  - apply Hstep; [now left|exact Ha].
  - intros a' x Hx. apply Hstep. now right.
Qed.

Lemma perturbation_attempts_zero q : perturbation_attempts 0 q = 0%nat.
Proof. destruct q as [a b]. reflexivity. Qed.

Section EngineInv.
Context {RE : RandomEngine}.
Variable inst : Instance.
Hypothesis SG : simple_graph inst.

(** What the scan guarantees of every candidate of its pool. *)
Definition admissible (s : SolutionManager) (c : CandidateMove) : Prop :=
  In (cm_v c) (conflictingVertices s)
  /\ ((cm_type c = 0 /\ 0 <= cm_target c < k s
       /\ vget 0 (classSize s) (vget 0 (color s) (cm_v c)) = big_size s
       /\ vget 0 (classSize s) (cm_target c) = floor_size s)
      \/ (cm_type c = 1 /\ 0 <= cm_target c < n s
          /\ vget 0 (color s) (cm_v c)
             <> vget 0 (color s) (cm_target c))).

Lemma offer_admissible s delta c pool :
  admissible s c -> Forall (admissible s) (snd pool) ->
  Forall (admissible s) (snd (offer delta c pool)).
Proof.
  intros Hc Hp. unfold offer. destruct pool as [bd cs]. simpl in Hp.
  destruct (delta <? bd); [simpl; auto|].
  destruct (delta =? bd); simpl; auto.
  apply Forall_app. auto.
Qed.

Lemma scan_transfers_admissible cfg s it best pool :
  Forall (admissible s) (snd pool) ->
  Forall (admissible s) (snd (scan_transfers inst cfg s it best pool)).
Proof.
  intros Hp. unfold scan_transfers.
  apply fold_left_inv; [exact Hp|]. intros pv v Hv Hpv.
  destruct (Z.eqb_spec (vget 0 (classSize s) (vget 0 (color s) v))
              (big_size s)) as [Hbig|]; [|exact Hpv].
  apply fold_left_inv; [exact Hpv|]. intros pj j Hj Hpj.
  apply In_range in Hj.
  destruct (Z.eqb_spec (vget 0 (classSize s) j) (floor_size s))
    as [Hfl|]; [|exact Hpj].
  destruct (transfer_admitted inst cfg s it best v j); [|exact Hpj].
  apply offer_admissible; [|exact Hpj].
  split; [exact Hv|]. left. simpl. auto.
Qed.

Lemma scan_swaps_admissible cfg s it best pool :
  Forall (admissible s) (snd pool) ->
  Forall (admissible s) (snd (scan_swaps inst cfg s it best pool)).
Proof.
  intros Hp. unfold scan_swaps.
  apply fold_left_inv; [exact Hp|]. intros pv v Hv Hpv.
  apply fold_left_inv; [exact Hpv|]. intros pu u Hu Hpu.
  apply In_range in Hu.
  destruct (swap_considered s v u) eqn:Econs; [|exact Hpu].
  destruct (swap_admitted inst cfg s it best v u); [|exact Hpu].
  apply offer_admissible; [|exact Hpu].
  split; [exact Hv|]. right. simpl. unfold swap_considered in Econs.
  apply andb_true_iff in Econs as [Econs _].
  apply andb_true_iff in Econs as [_ Econs].
  apply negb_true_iff in Econs. apply Z.eqb_neq in Econs. auto.
Qed.

Lemma scan_admissible cfg L :
  Forall (admissible (st L)) (snd (scan inst cfg L)).
Proof.
  unfold scan. apply scan_swaps_admissible.
  destruct (negb _); [|constructor].
  apply scan_transfers_admissible. constructor.
Qed.

Lemma tabu_write_Good s v c x : Good inst s -> Good inst (tabu_write s v c x).
Proof. intros H. unfold tabu_write. now apply Good_set_tabu_matrix. Qed.

(** Applying a candidate of the pool keeps the data model. *)
Lemma execute_Good s it tenure c :
  Good inst s -> admissible s c -> Good inst (execute inst s it tenure c).
Proof.
  intros HG [Hin Hcase]. unfold execute.
  apply (ListInv_In _ (cs_list (good_consistent HG))) in Hin as [Hv _].
  destruct Hcase as [(Et&Hj&Hbig&Hfl)|(Et&Hu&Hne)]; rewrite Et; simpl.
  - apply tabu_write_Good. now apply transfer_Good.
  - apply tabu_write_Good, tabu_write_Good. now apply swap_Good.
Qed.

Lemma perturb_attempt_Good s g :
  Good inst s -> 1 <= n s ->
  Good inst (fst (perturb_attempt inst (s, g)))
  /\ n (fst (perturb_attempt inst (s, g))) = n s.
Proof.
  intros HG Hn. unfold perturb_attempt.
  pose proof (@uniform_int_range RE 0 (n s - 1) g ltac:(lia)) as H1.
  destruct (uniform_int 0 (n s - 1) g) as [v1 g1]. simpl fst in H1.
  pose proof (@uniform_int_range RE 0 (n s - 1) g1 ltac:(lia)) as H2.
  destruct (uniform_int 0 (n s - 1) g1) as [v2 g2]. simpl fst in H2.
  destruct (Z.eqb_spec v1 v2) as [|Hne]; simpl; [auto|].
  destruct (Z.eqb_spec (vget 0 (color s) v1) (vget 0 (color s) v2))
    as [|Hc]; simpl; [auto|].
  split.
  - apply swap_Good; auto; lia.
  - now destruct (@apply_swap_safe_frame inst SG s v1 v2 Hc) as (F1&_).
Qed.

Lemma perturb_attempts_Good m : forall s g,
  Good inst s -> 1 <= n s ->
  Good inst (fst (Nat.iter m (perturb_attempt inst) (s, g)))
  /\ n (fst (Nat.iter m (perturb_attempt inst) (s, g))) = n s.
Proof.
  induction m as [|m IH]; intros s g HG Hn; [simpl; auto|].
  rewrite Nat.iter_succ. destruct (IH s g HG Hn) as [HG1 En1].
  destruct (Nat.iter m (perturb_attempt inst) (s, g)) as [s1 g1].
  cbn [fst] in HG1, En1.
  destruct (@perturb_attempt_Good s1 g1 HG1) as [HG2 En2]; [lia|].
  split; [exact HG2|rewrite En2; exact En1].
Qed.

Lemma perturb_Good cfg s g :
  Good inst s -> Good inst (fst (perturb inst cfg s g)).
Proof.
  intros HG. unfold perturb.
  pose proof (eq_n (good_equity HG)) as Hn.
  destruct (Z.eq_dec (n s) 0) as [E|E].
  - rewrite E, perturbation_attempts_zero. exact HG.
  - apply perturb_attempts_Good; auto. lia.
Qed.

(** Every iteration that continues leaves a state of the data model. *)
Lemma iteration_Good cfg is_time_up L L' :
  Good inst (st L) ->
  iteration inst cfg is_time_up L = Continue L' ->
  Good inst (st L').
Proof.
  intros HG. unfold iteration.
  destruct ((Z.rem (iter L) 128 =? 0) && is_time_up (iter L));
    [discriminate|].
  destruct (perturbation_due cfg L).
  - pose proof (@perturb_Good cfg (st L) (rng L) HG) as HP.
    destruct (perturb inst cfg (st L) (rng L)) as [s1 g1]. simpl fst in HP.
    intros E. injection E as <-. simpl.
    unfold init_tabu. now apply Good_set_tabu_matrix.
  - pose proof (scan_admissible cfg L) as Hadm.
    destruct (snd (scan inst cfg L)) as [|c0 cands] eqn:Ecands;
      [discriminate|].
    pose proof (@uniform_int_range RE 0 (vsize (c0 :: cands) - 1) (rng L))
      as Hi.
    destruct (uniform_int 0 (vsize (c0 :: cands) - 1) (rng L)) as [i g1].
    simpl fst in Hi.
    destruct (uniform_int 0 (beta cfg) g1) as [d g2].
    assert (Hchosen : admissible (st L)
              (vget (mkCandidate (-1) (-1) (-1)) (c0 :: cands) i)).
    { rewrite Forall_forall in Hadm. apply Hadm. apply vget_In.
      assert (0 <= vsize (c0 :: cands) - 1)
        by (unfold vsize; simpl length; lia).
      lia. }
    pose proof (@execute_Good (st L) (iter L)
                  (Qtrunc (alpha cfg
                           * inject_Z (vsize (conflictingVertices (st L))))
                   + d) _ HG Hchosen) as HE.
    destruct (_ <? _); intros E; injection E as <-; exact HE.
Qed.

End EngineInv.

(** * The loop of [run_tabu_search] *)

Section EngineLoop.
Context {RE : RandomEngine}.
Variable inst : Instance.

Lemma iteration_iter cfg is_time_up L L' :
  iteration inst cfg is_time_up L = Continue L' -> iter L' = iter L + 1.
Proof.
  unfold iteration.
  destruct ((Z.rem (iter L) 128 =? 0) && is_time_up (iter L));
    [discriminate|].
  destruct (perturbation_due cfg L).
  - destruct (perturb inst cfg (st L) (rng L)) as [s1 g1].
    intros E. injection E as <-. reflexivity.
  - destruct (snd (scan inst cfg L)) as [|c0 cands]; [discriminate|].
    destruct (uniform_int 0 (vsize (c0 :: cands) - 1) (rng L)) as [i g1].
    destruct (uniform_int 0 (beta cfg) g1) as [d g2].
    destruct (_ <? _); intros E; injection E as <-; reflexivity.
Qed.

Lemma iteration_TimeIsUp cfg is_time_up L :
  iteration inst cfg is_time_up L = TimeIsUp <->
  Z.rem (iter L) 128 = 0 /\ is_time_up (iter L) = true.
Proof.
  unfold iteration. rewrite <- Z.eqb_eq, <- andb_true_iff.
  destruct ((Z.rem (iter L) 128 =? 0) && is_time_up (iter L)).
  - split; auto.
  - split; [|discriminate].
    destruct (perturbation_due cfg L).
    + destruct (perturb inst cfg (st L) (rng L)); discriminate.
    + destruct (snd (scan inst cfg L)) as [|c0 cands]; [discriminate|].
      destruct (uniform_int 0 (vsize (c0 :: cands) - 1) (rng L)) as [i g1].
      destruct (uniform_int 0 (beta cfg) g1) as [d g2].
      destruct (_ <? _); discriminate.
Qed.

(** The loop returns: the fuel [max_iter - iter] is enough. *)
Lemma tabu_loop_returns cfg is_time_up result0 fuel : forall L,
  max_iter cfg - iter L <= Z.of_nat fuel ->
  exists out, tabu_loop inst cfg is_time_up result0 fuel L = Some out.
Proof.
  induction fuel as [|fuel IH]; intros L Hfuel.
  - simpl. destruct (Z.ltb_spec (iter L) (max_iter cfg)); [lia|].
    simpl. eauto.
  - cbn [tabu_loop].
    destruct ((iter L <? max_iter cfg) && (obj (st L) >? 0)); [|eauto].
    destruct (iteration inst cfg is_time_up L) as [| |L'] eqn:E; eauto.
    apply IH. apply iteration_iter in E. lia.
Qed.

(** [run_tabu_search] always returns. *)
Lemma run_tabu_search_returns cfg is_time_up seed s :
  exists out, run_tabu_search inst cfg is_time_up seed s = Some out.
Proof.
  unfold run_tabu_search. destruct (obj s =? 0); [eauto|].
  apply tabu_loop_returns. simpl. lia.
Qed.

(** How each exit path fills in the result. *)
Lemma tabu_loop_result cfg is_time_up result0 fuel : forall L out,
  tabu_loop inst cfg is_time_up result0 fuel L = Some out ->
  iter L <= executed_iter out
  /\ match exit_path out with
     | AlreadyOptimal => False
     | PollTimeUp =>
         result out = result0
         /\ Z.rem (executed_iter out) 128 = 0
         /\ is_time_up (executed_iter out) = true
         /\ executed_iter out < max_iter cfg
         /\ obj (final_state out) > 0
     | Stuck =>
         iterations (result out) = executed_iter out
         /\ solved (result out) = (final_obj (result out) =? 0)
         /\ executed_iter out < max_iter cfg
         /\ obj (final_state out) > 0
     | LoopConditionFalse =>
         iterations (result out) = executed_iter out
         /\ solved (result out) = (final_obj (result out) =? 0)
         /\ (max_iter cfg <= executed_iter out
             \/ obj (final_state out) <= 0)
     end.
Proof.
  induction fuel as [|fuel IH]; intros L out; cbn [tabu_loop];
    rewrite Z.gtb_ltb;
    destruct (Z.ltb_spec (iter L) (max_iter cfg)) as [Hi|Hi];
    destruct (Z.ltb_spec 0 (obj (st L))) as [Ho|Ho]; simpl andb; cbv iota;
    try discriminate;
    try (intros E; injection E as <-; simpl; repeat split; auto; lia).
  destruct (iteration inst cfg is_time_up L) as [| |L'] eqn:E.
  - intros E'. injection E' as <-. simpl.
    apply iteration_TimeIsUp in E as [E1 E2]. repeat split; auto; lia.
  - intros E'. injection E' as <-. simpl. repeat split; auto; lia.
  - intros E'. apply IH in E'. apply iteration_iter in E.
    destruct E' as [E1 E2]. split; [lia|exact E2].
Qed.

End EngineLoop.

(** ** The history of a run *)

Section LoopHistory.
Context {RE : RandomEngine}.
Variable inst : Instance.

(** The loop variables at the head of every turn of the [while] loop, from
    [L] on; the last entry is where the loop is left. *)
Fixpoint loop_states (cfg : TabuConfig) (is_time_up : Z -> bool)
  (fuel : nat) (L : LoopState) : list LoopState :=
  L :: (if (iter L <? max_iter cfg) && (obj (st L) >? 0) then
          match fuel with
          | O => []
          | S fuel' =>
              match iteration inst cfg is_time_up L with
              | Continue L' => loop_states cfg is_time_up fuel' L'
              | _ => []
              end
          end
        else []).

(** The objectives that the loop compares with [best_obj_found]: the one
    that each applied move leaves.  A turn spent on the perturbation compares
    nothing. *)
Fixpoint evaluated_objectives (cfg : TabuConfig) (states : list LoopState)
  : list Z :=
  match states with
  | L :: rest =>
      match rest with
      | L' :: _ =>
          (if perturbation_due cfg L then [] else [obj (st L')])
          ++ evaluated_objectives cfg rest
      | [] => []
      end
  | [] => []
  end.

(** The history of [run_tabu_search] from a state with [obj > 0]. *)
Definition run_states (cfg : TabuConfig) (is_time_up : Z -> bool) (seed : Z)
  (s : SolutionManager) : list LoopState :=
  let s1 := init_tabu s in
  loop_states cfg is_time_up (Z.to_nat (max_iter cfg))
    (mkLoop s1 (mt19937 seed) (obj s1) 0 0).

Lemma loop_states_cons cfg is_time_up fuel L :
  exists rest, loop_states cfg is_time_up fuel L = L :: rest.
Proof. destruct fuel; cbn [loop_states]; eauto. Qed.

Lemma last_cons_default {A} (x : A) l d d' : last (x :: l) d = last (x :: l) d'.
Proof.
  revert x. induction l as [|y l IH]; intros x; [reflexivity|].
  change (last (y :: l) d = last (y :: l) d'). apply IH.
Qed.

(** One turn moves [best_obj_found] to the objective after the move when that
    is smaller, and leaves it alone in a perturbation. *)
Lemma iteration_best cfg is_time_up L L' :
  iteration inst cfg is_time_up L = Continue L' ->
  best_obj_found L'
  = fold_left Z.min (if perturbation_due cfg L then [] else [obj (st L')])
      (best_obj_found L).
Proof.
  unfold iteration.
  destruct ((Z.rem (iter L) 128 =? 0) && is_time_up (iter L));
    [discriminate|].
  destruct (perturbation_due cfg L).
  - destruct (perturb inst cfg (st L) (rng L)) as [s1 g1].
    intros E. injection E as <-. reflexivity.
  - destruct (snd (scan inst cfg L)) as [|c0 cands]; [discriminate|].
    destruct (uniform_int 0 (vsize (c0 :: cands) - 1) (rng L)) as [i g1].
    destruct (uniform_int 0 (beta cfg) g1) as [d g2].
    match goal with
    | |- context [?a <? ?b] => destruct (Z.ltb_spec a b)
    end; intros E; injection E as <-; cbn [fold_left st best_obj_found]; lia.
Qed.

(** What the loop leaves, in terms of its history. *)
Lemma tabu_loop_history cfg is_time_up result0 fuel : forall L out,
  tabu_loop inst cfg is_time_up result0 fuel L = Some out ->
  executed_iter out
  = iter L + Z.of_nat (length (loop_states cfg is_time_up fuel L)) - 1
  /\ final_state out = st (last (loop_states cfg is_time_up fuel L) L)
  /\ (exit_path out = Stuck \/ exit_path out = LoopConditionFalse ->
      final_obj (result out)
      = fold_left Z.min
          (evaluated_objectives cfg (loop_states cfg is_time_up fuel L))
          (best_obj_found L)).
Proof.
  induction fuel as [|fuel IH]; intros L out; cbn [tabu_loop loop_states];
    destruct ((iter L <? max_iter cfg) && (obj (st L) >? 0));
    try discriminate;
    try (intros E; injection E as <-;
         cbn [finish executed_iter final_state exit_path result final_obj
              length last evaluated_objectives fold_left];
         repeat split; lia).
  destruct (iteration inst cfg is_time_up L) as [| |L'] eqn:E.
  - intros E'. injection E' as <-.
    cbn [executed_iter final_state exit_path length last]. split; [lia|].
    split; [reflexivity|]. intros [H|H]; discriminate.
  - intros E'. injection E' as <-.
    cbn [finish executed_iter final_state exit_path result final_obj
         length last evaluated_objectives fold_left].
    repeat split; lia.
  - intros E'. apply IH in E' as (E1 & E2 & E3).
    pose proof (iteration_iter _ _ _ _ E) as Ei.
    pose proof (iteration_best _ _ _ E) as Eb.
    destruct (loop_states_cons cfg is_time_up fuel L') as [rest Er].
    rewrite Er in *. split.
    + cbn [length] in *. lia.
    + split.
      * rewrite E2. change (last (L :: L' :: rest) L) with (last (L' :: rest) L).
        apply f_equal, last_cons_default.
      * intros H. rewrite (E3 H).
        cbn [evaluated_objectives]. rewrite fold_left_app, <- Eb.
        reflexivity.
Qed.

End LoopHistory.

(** C10.  When [run_tabu_search] returns from the periodic poll (the counter
    is a multiple of 128 and the clock says that time is up), the returned
    [TabuResult] is the one initialised on entry: [solved = false],
    [iterations = 0] and [final_obj] the objective on entry, whatever the
    number of iterations executed.  On the path through the end of the loop
    [iterations] is the counter of the loop, [solved] is [final_obj == 0],
    and [final_obj] is the best objective of the run: the least of the
    objective on entry and the objectives that the applied moves left (the
    state after a perturbation is not compared).  On every path through the
    loop the counter is the number of turns that were run, and the manager
    is left in the last state of the history. *)
Theorem poll_timeout_returns_initial_result {RE : RandomEngine}
  (inst : Instance) (cfg : TabuConfig) (is_time_up : Z -> bool) (seed : Z)
  (s : SolutionManager) (out : RunOutput) :
  run_tabu_search inst cfg is_time_up seed s = Some out ->
  (exit_path out = PollTimeUp ->
   result out = mkResult false 0 (obj s)
   /\ Z.rem (executed_iter out) 128 = 0
   /\ is_time_up (executed_iter out) = true)
  /\ (exit_path out = Stuck \/ exit_path out = LoopConditionFalse ->
      iterations (result out) = executed_iter out
      /\ solved (result out) = (final_obj (result out) =? 0)
      /\ final_obj (result out)
         = fold_left Z.min
             (evaluated_objectives cfg
                (run_states inst cfg is_time_up seed s))
             (obj s))
  /\ (exit_path out <> AlreadyOptimal ->
      executed_iter out
      = Z.of_nat (length (run_states inst cfg is_time_up seed s)) - 1
      /\ final_state out
         = st (last (run_states inst cfg is_time_up seed s)
                 (mkLoop s (mt19937 seed) (obj s) 0 0))).
Proof.
  unfold run_tabu_search, run_states. destruct (obj s =? 0).
  - intros E. injection E as <-. simpl.
    split; [discriminate|]. split; [intros [E|E]; discriminate|].
    intros H. now contradiction H.
  - intros E.
    pose proof (tabu_loop_history _ _ _ _ _ _ E) as (H1 & H2 & H3).
    apply tabu_loop_result in E as [_ E].
    cbn [iter best_obj_found] in H1, H3.
    assert (Hl : final_state out
                 = st (last (loop_states inst cfg is_time_up
                               (Z.to_nat (max_iter cfg))
                               (mkLoop (init_tabu s) (mt19937 seed)
                                  (obj (init_tabu s)) 0 0))
                         (mkLoop s (mt19937 seed) (obj s) 0 0))).
    { rewrite H2.
      destruct (loop_states_cons inst cfg is_time_up
                  (Z.to_nat (max_iter cfg))
                  (mkLoop (init_tabu s) (mt19937 seed)
                     (obj (init_tabu s)) 0 0)) as [rest Er].
      rewrite Er. apply f_equal, last_cons_default. }
    destruct (exit_path out); try contradiction.
    + split; [|split; [intros [E'|E']; discriminate|]].
      * intros _. destruct E as (E1&E2&E3&_). auto.
      * intros _. split; [lia|exact Hl].
    + split; [discriminate|]. split.
      * intros H. destruct E as (E1&E2&_).
        split; [exact E1|]. split; [exact E2|]. now apply H3.
      * intros _. split; [lia|exact Hl].
    + split; [discriminate|]. split.
      * intros H. destruct E as (E1&E2&_).
        split; [exact E1|]. split; [exact E2|]. now apply H3.
      * intros _. split; [lia|exact Hl].
Qed.

(** * Tabu tenure (C8) *)

Lemma tabu_at_write_same s v c x :
  0 <= v < vsize (tabu_matrix s) ->
  0 <= c < vsize (vget [] (tabu_matrix s) v) ->
  tabu_at (tabu_write s v c x) v c = x.
Proof.
  intros Hv Hc. unfold tabu_at, tabu_write. sm_simpl.
  rewrite vget_vset_same by auto. now apply vget_vset_same.
Qed.

Lemma tabu_at_write_other s v c x v' c' :
  v' <> v \/ c' <> c ->
  tabu_at (tabu_write s v c x) v' c' = tabu_at s v' c'.
Proof.
  intros Hne. unfold tabu_at, tabu_write. sm_simpl.
  destruct (Z.eq_dec v' v) as [->|Hv]; [|now rewrite vget_vset_other by auto].
  destruct Hne as [Hne|Hne]; [contradiction|].
  destruct (Z_le_dec 0 v), (Z_lt_dec v (vsize (tabu_matrix s)));
    try (rewrite vset_out by lia; reflexivity).
  rewrite vget_vset_same by lia. now apply vget_vset_other.
Qed.

Lemma apply_move_tabu_matrix inst s v c :
  tabu_matrix (apply_move inst s v c) = tabu_matrix s.
Proof.
  unfold apply_move.
  repeat match goal with
         | |- context [bump_loop ?d ?a ?b ?l ?x] =>
             let F := fresh in
             destruct (bump_loop_frame d a b l x) as (_&_&_&_&_&_&F&_);
             cbv zeta in F; rewrite F; clear F
         end.
  reflexivity.
Qed.

Lemma apply_swap_safe_tabu_matrix inst s v u :
  tabu_matrix (apply_swap_safe inst s v u) = tabu_matrix s.
Proof. unfold apply_swap_safe. now rewrite !apply_move_tabu_matrix. Qed.

Lemma countb_below b m :
  countb (fun j => j <? b) (range (Z.of_nat m))
  = Z.min (Z.of_nat m) (Z.max 0 b).
Proof.
  induction m as [|m IH]; [unfold countb; simpl; lia|].
  rewrite Nat2Z.inj_succ. unfold Z.succ.
  rewrite range_succ, countb_app, IH by lia.
  rewrite countb_cons, countb_nil.
  destruct (Z.ltb_spec (Z.of_nat m) b); lia.
Qed.

(** The iterations after [it] that the tenure [T] spans. *)
Definition following (it T : Z) : list Z := map (fun j => it + 1 + j) (range T).

(** A [n] by [k] tabu table. *)
Definition tabu_sized (s : SolutionManager) : Prop :=
  vsize (tabu_matrix s) = n s
  /\ forall v, 0 <= v < n s -> vsize (vget [] (tabu_matrix s) v) = k s.

(** C8, as the code has it.  The engine writes [iter + T] into the entry that
    forbids the reversal of the move it applies.  An entry [iter + T] makes
    the tabu test reject the move at the later iterations [iter'] with
    [iter' < iter + T] and at no other: of the [T] iterations that follow the
    write, the first [T - 1] (none when [T <= 0]); this as long as the entry
    is not written again and the table is not re-initialised. *)
Theorem tabu_entry_rejects_until_expiry (inst : Instance)
  (s : SolutionManager) (v u j it T : Z) :
  tabu_sized s -> fully_colored s -> 0 <= v < n s -> 0 <= u < n s ->
  (let s' := execute inst s it T (mkCandidate 0 v j) in
   tabu_at s' v (vget 0 (color s) v) = it + T)
  /\ (v <> u ->
      let s' := execute inst s it T (mkCandidate 1 v u) in
      tabu_at s' v (vget 0 (color s) v) = it + T
      /\ tabu_at s' u (vget 0 (color s) u) = it + T)
  /\ (forall s' c, tabu_at s' v c = it + T ->
        (forall it', it < it' ->
           (transfer_is_tabu s' it' v c = true <-> it' < it + T))
        /\ (forall it' w, vget 0 (color s') w = c -> it' < it + T ->
              swap_is_tabu s' it' v w = true)
        /\ countb (fun it' => transfer_is_tabu s' it' v c) (following it T)
           = Z.max 0 (T - 1)).
Proof.
  intros [Hrows Hcols] Hfc Hv Hu.
  pose proof (Hfc v Hv) as Hcv. pose proof (Hfc u Hu) as Hcu.
  split; [|split].
  - cbv zeta. unfold execute. simpl.
    apply tabu_at_write_same; rewrite apply_move_tabu_matrix;
      [lia|rewrite Hcols; lia].
  - intros Hne. cbv zeta. unfold execute. simpl. split.
    + rewrite tabu_at_write_other by (left; exact Hne).
      apply tabu_at_write_same; rewrite apply_swap_safe_tabu_matrix;
        [lia|rewrite Hcols; lia].
    + apply tabu_at_write_same; unfold tabu_write; sm_simpl;
        rewrite apply_swap_safe_tabu_matrix.
      * rewrite vsize_vset. lia.
      * rewrite vget_vset_other by auto. rewrite Hcols; lia.
  - intros s' c E. split; [|split].
    + intros it' Hit. unfold transfer_is_tabu. rewrite E, Z.gtb_ltb.
      destruct (Z.ltb_spec it' (it + T)); split; auto; try lia; discriminate.
    + intros it' w Hw Hit. unfold swap_is_tabu. rewrite Hw, E, Z.gtb_ltb.
      destruct (Z.ltb_spec it' (it + T)); [reflexivity|lia].
    + unfold following, countb. rewrite map_map. fold (countb
        (fun j => transfer_is_tabu s' (it + 1 + j) v c) (range T)).
      rewrite (countb_ext _ (fun j => j <? T - 1)).
      * destruct (Z_le_dec 0 T) as [HT|HT].
        -- rewrite <- (Z2Nat.id T) at 1 by lia. rewrite countb_below.
           rewrite Z2Nat.id by lia. lia.
        -- unfold range. replace (Z.to_nat T) with 0%nat by lia.
           simpl. rewrite countb_nil. lia.
      * intros j0 _. unfold transfer_is_tabu. rewrite E, Z.gtb_ltb.
        destruct (Z.ltb_spec (it + 1 + j0) (it + T));
          destruct (Z.ltb_spec j0 (T - 1)); auto; lia.
Qed.

(** * Perturbation (C7) *)

Section Perturbation.
Context {RE : RandomEngine}.
Variable inst : Instance.

(** The pair that a turn of the perturbation loop swaps, if it swaps. *)
Definition attempt_swap (acc : SolutionManager * Rng) : option (Z * Z) :=
  let '(s, g) := acc in
  let '(v1, g1) := uniform_int 0 (n s - 1) g in
  let '(v2, g2) := uniform_int 0 (n s - 1) g1 in
  if negb (v1 =? v2) && negb (vget 0 (color s) v1 =? vget 0 (color s) v2)
  then Some (v1, v2) else None.

(** The swaps that [m] turns of the loop apply, in order. *)
Fixpoint perturb_log (m : nat) (acc : SolutionManager * Rng)
  : list (Z * Z) :=
  match m with
  | O => []
  | S m' =>
      perturb_log m' acc
      ++ match attempt_swap (Nat.iter m' (perturb_attempt inst) acc) with
         | Some p => [p]
         | None => []
         end
  end.

(** [s'] comes from [s] by the swaps of the list, each of two different
    vertices whose colours differ when they are swapped. *)
Inductive swaps_applied : list (Z * Z) -> SolutionManager -> SolutionManager
                          -> Prop :=
| sa_nil : forall s, swaps_applied [] s s
| sa_cons : forall v u log s s',
    v <> u -> vget 0 (color s) v <> vget 0 (color s) u ->
    swaps_applied log (apply_swap_safe inst s v u) s' ->
    swaps_applied ((v, u) :: log) s s'.

Lemma swaps_applied_snoc log : forall s s' v u,
  swaps_applied log s s' ->
  v <> u -> vget 0 (color s') v <> vget 0 (color s') u ->
  swaps_applied (log ++ [(v, u)]) s (apply_swap_safe inst s' v u).
Proof.
  induction log as [|[a b] log IH]; intros s s' v u H Hne Hc.
  - inversion H; subst. simpl. apply sa_cons; auto. apply sa_nil.
  - inversion H; subst. simpl. apply sa_cons; auto.
Qed.

Lemma perturb_log_spec m s g :
  swaps_applied (perturb_log m (s, g)) s
    (fst (Nat.iter m (perturb_attempt inst) (s, g)))
  /\ (length (perturb_log m (s, g)) <= m)%nat.
Proof.
  induction m as [|m [IH1 IH2]]; [split; [apply sa_nil|simpl; lia]|].
  cbn [perturb_log]. rewrite Nat.iter_succ.
  destruct (Nat.iter m (perturb_attempt inst) (s, g)) as [s1 g1].
  cbn [fst] in IH1. unfold attempt_swap, perturb_attempt.
  destruct (uniform_int 0 (n s1 - 1) g1) as [v1 g2].
  destruct (uniform_int 0 (n s1 - 1) g2) as [v2 g3].
  destruct (Z.eqb_spec v1 v2) as [|Hne]; simpl negb; simpl andb; cbv iota.
  - rewrite app_nil_r. split; [exact IH1|lia].
  - destruct (Z.eqb_spec (vget 0 (color s1) v1) (vget 0 (color s1) v2))
      as [|Hc]; simpl negb; cbv iota.
    + rewrite app_nil_r. split; [exact IH1|lia].
    + split; [now apply swaps_applied_snoc|].
      rewrite length_app. simpl. lia.
Qed.

End Perturbation.

(** The loop test [p < n * strength] holds for exactly the first
    [perturbation_attempts n strength] values of [p]. *)
Lemma perturbation_attempts_spec (n0 : Z) (strength : Q) (p : Z) :
  0 <= p ->
  (Qlt (inject_Z p) (inject_Z n0 * strength)
   <-> (Z.to_nat p < perturbation_attempts n0 strength)%nat).
Proof.
  intros Hp. unfold perturbation_attempts.
  set (x := (inject_Z n0 * strength)%Q).
  pose proof (Qle_ceiling x) as Hup.
  pose proof (Qceiling_lt x) as Hlow.
  split.
  - intros H. assert (Hlt : (inject_Z p < inject_Z (Qceiling x))%Q)
      by (eapply Qlt_le_trans; eauto).
    rewrite <- Zlt_Qlt in Hlt. lia.
  - intros H. assert (Hle : p <= Qceiling x - 1) by lia.
    rewrite Zle_Qle in Hle. eapply Qle_lt_trans; eauto.
Qed.

(** C7, as the code has it.  When the perturbation is due (and the clock poll
    does not end the run), the iteration makes [perturbation_attempts] draws
    of two vertices and swaps a drawn pair only when the vertices differ and
    their colours differ, so it applies at most that many swaps, each of a
    pair with distinct colours; then [no_improve_iter] is 0, the iteration
    counter has advanced by one, the tabu table is all zeros again, and no
    move was evaluated. *)
Theorem perturbation_iteration {RE : RandomEngine} (inst : Instance)
  (cfg : TabuConfig) (is_time_up : Z -> bool) (L : LoopState) :
  (Z.rem (iter L) 128 =? 0) && is_time_up (iter L) = false ->
  perturbation_due cfg L = true ->
  let attempts :=
    perturbation_attempts (n (st L)) (perturbation_strength cfg) in
  let log := perturb_log inst attempts (st L, rng L) in
  let s1 := fst (perturb inst cfg (st L) (rng L)) in
  let g1 := snd (perturb inst cfg (st L) (rng L)) in
  iteration inst cfg is_time_up L
  = Continue (mkLoop (init_tabu s1) g1 (best_obj_found L) (iter L + 1) 0)
  /\ swaps_applied inst log (st L) s1
  /\ (length log <= attempts)%nat
  /\ (forall v c, 0 <= v < n s1 -> 0 <= c < k s1 ->
        tabu_at (init_tabu s1) v c = 0).
Proof.
  intros Hpoll Hdue. cbv zeta. split; [|split; [|split]].
  - unfold iteration. rewrite Hpoll, Hdue.
    destruct (perturb inst cfg (st L) (rng L)); reflexivity.
  - apply perturb_log_spec.
  - apply perturb_log_spec.
  - intros v c Hv Hc. unfold tabu_at, init_tabu. sm_simpl.
    rewrite vget_repeat by lia. apply vget_repeat. lia.
Qed.

(** * Two small instances *)

(** Four vertices and the single edge 1-2 of the file. *)
Definition one_edge_file : InstanceFile := mkFile (Some (4, 1)) [(1, 2)].

Definition one_edge : Instance :=
  mkInstance 4 [(0, 1)] [[1]; [0]; []; []] [1; 1; 0; 0] 1.

Lemma one_edge_loaded : read_instance (Some one_edge_file) = Done one_edge.
Proof. vm_compute. reflexivity. Qed.

Lemma one_edge_simple : simple_graph one_edge.
Proof.
  apply read_instance_simple_graph with (f := Some one_edge_file);
    vm_compute; reflexivity.
Qed.

(** What [construct_greedy_initial] builds for [k = 2] when the shuffle
    yields the order 2, 3, 0, 1: the last vertex is forced into the class of
    its neighbour. *)
Definition one_edge_start : SolutionManager :=
  mkSM 4 2 [1; 1; 0; 0] [2; 2] [1; 1; 0; 0] [1; 0] [1; 0; -1; -1] 1 2 3 [].

Lemma one_edge_start_built :
  construct_greedy_initial (RE := Scripted [2; 2; 0; 0]) one_edge
    (init one_edge (-1)) 0
  = one_edge_start.
Proof. vm_compute. reflexivity. Qed.

Lemma one_edge_start_Good : Good one_edge one_edge_start.
Proof.
  rewrite <- one_edge_start_built.
  apply construct_greedy_initial_Good; [apply one_edge_simple|now left].
Qed.

(** The triangle. *)
Definition triangle_file : InstanceFile :=
  mkFile (Some (3, 3)) [(1, 2); (2, 3); (1, 3)].

Definition triangle : Instance :=
  mkInstance 3 [(0, 1); (1, 2); (0, 2)] [[1; 2]; [0; 2]; [1; 0]] [2; 2; 2] 2.

Lemma triangle_loaded : read_instance (Some triangle_file) = Done triangle.
Proof. vm_compute. reflexivity. Qed.

(** The warm start for [k = 2] from the proper 3-colouring of the triangle
    (identity shuffles). *)
Definition triangle_start : SolutionManager :=
  mkSM 3 2 [0; 1; 0] [2; 1] [1; 0; 1] [2; 0] [1; -1; 0] 1 1 2 [].

Lemma triangle_start_built :
  construct_greedy_from_previous (RE := Scripted []) triangle
    (init triangle 2)
    (construct_greedy_initial (RE := Scripted []) triangle
       (init triangle (-1)) 0)
    0
  = triangle_start.
Proof. vm_compute. reflexivity. Qed.

(** The defaults of [Arguments] and [TabuConfig]. *)
Definition default_config : TabuConfig :=
  mkTabuConfig 1000000 (6 # 10) 10 1000 (16 # 100) 1.

Lemma init_tabu_sized s : 0 <= n s -> 0 <= k s -> tabu_sized (init_tabu s).
Proof.
  intros Hn Hk. unfold tabu_sized, init_tabu. sm_simpl.
  split; [rewrite vsize_repeat; lia|].
  intros v Hv. rewrite vget_repeat by lia. rewrite vsize_repeat. lia.
Qed.

(** ** C3 on the instance with one edge *)
Lemma deltas_predict_objective_witness :
  (0 <= 0 < k one_edge_start -> 0 <> vget 0 (color one_edge_start) 0 ->
   obj (apply_move one_edge one_edge_start 0 0)
   = obj one_edge_start
     + get_move_delta one_edge one_edge_start 0
         (vget 0 (color one_edge_start) 0) 0)
  /\ (vget 0 (color one_edge_start) 2 <> vget 0 (color one_edge_start) 0 ->
      obj (apply_swap_safe one_edge one_edge_start 0 2)
      = obj one_edge_start + get_swap_delta one_edge one_edge_start 0 2).
Proof.
  apply (@deltas_predict_objective one_edge one_edge_start 0 2 0).
  - apply one_edge_simple.
  - apply (good_consistent one_edge_start_Good).
  - apply (good_colored one_edge_start_Good).
  - simpl. lia.
  - simpl. lia.
Defined.

(** ** C9 on the instance with one edge *)
Lemma undo_restores_up_to_list_order_witness :
  (0 <= 0 < k one_edge_start -> 0 <> vget 0 (color one_edge_start) 0 ->
   equal_up_to_list_order
     (apply_move one_edge (apply_move one_edge one_edge_start 0 0) 0
        (vget 0 (color one_edge_start) 0))
     one_edge_start)
  /\ (vget 0 (color one_edge_start) 0 <> vget 0 (color one_edge_start) 2 ->
      equal_up_to_list_order
        (apply_swap_safe one_edge
           (apply_swap_safe one_edge one_edge_start 0 2) 0 2)
        one_edge_start).
Proof.
  apply (@undo_restores_up_to_list_order one_edge one_edge_start 0 2 0).
  - apply one_edge_simple.
  - apply (good_consistent one_edge_start_Good).
  - apply (good_colored one_edge_start_Good).
  - reflexivity.
  - simpl. lia.
  - simpl. lia.
Defined.

(** C9 as stated fails.  In the consistent, fully coloured state
    [one_edge_start], moving vertex 0 from class 1 to class 0 and back, or
    swapping vertices 0 and 2 twice, leaves [conflictingVertices] as [0; 1]
    where it was [1; 0] (and [conflictingIndex] changed with it): the state
    is not restored bit for bit. *)
Lemma undo_changes_the_list_order :
  Consistent one_edge one_edge_start /\ fully_colored one_edge_start
  /\ vget 0 (color one_edge_start) 0 = 1
  /\ conflictingVertices one_edge_start = [1; 0]
  /\ conflictingVertices
       (apply_move one_edge (apply_move one_edge one_edge_start 0 0) 0 1)
     = [0; 1]
  /\ apply_move one_edge (apply_move one_edge one_edge_start 0 0) 0 1
     <> one_edge_start
  /\ conflictingIndex
       (apply_swap_safe one_edge
          (apply_swap_safe one_edge one_edge_start 0 2) 0 2)
     = [0; 1; -1; -1]
  /\ apply_swap_safe one_edge (apply_swap_safe one_edge one_edge_start 0 2)
       0 2
     <> one_edge_start.
Proof.
  split; [apply (good_consistent one_edge_start_Good)|].
  split; [apply (good_colored one_edge_start_Good)|].
  vm_compute. repeat split; discriminate.
Qed.

(** ** C8 on the instance with one edge *)
Lemma tabu_entry_rejects_until_expiry_witness :
  (let s' := execute one_edge (init_tabu one_edge_start) 0 3
               (mkCandidate 0 1 0) in
   tabu_at s' 1 (vget 0 (color (init_tabu one_edge_start)) 1) = 0 + 3)
  /\ (1 <> 3 ->
      let s' := execute one_edge (init_tabu one_edge_start) 0 3
                  (mkCandidate 1 1 3) in
      tabu_at s' 1 (vget 0 (color (init_tabu one_edge_start)) 1) = 0 + 3
      /\ tabu_at s' 3 (vget 0 (color (init_tabu one_edge_start)) 3) = 0 + 3)
  /\ (forall s' c, tabu_at s' 1 c = 0 + 3 ->
        (forall it', 0 < it' ->
           (transfer_is_tabu s' it' 1 c = true <-> it' < 0 + 3))
        /\ (forall it' w, vget 0 (color s') w = c -> it' < 0 + 3 ->
              swap_is_tabu s' it' 1 w = true)
        /\ countb (fun it' => transfer_is_tabu s' it' 1 c) (following 0 3)
           = Z.max 0 (3 - 1)).
Proof.
  apply (@tabu_entry_rejects_until_expiry one_edge
           (init_tabu one_edge_start) 1 3 0 0 3).
  - apply init_tabu_sized; simpl; lia.
  - apply (good_colored one_edge_start_Good).
  - simpl. lia.
  - simpl. lia.
Defined.

(** C8 as stated fails.  The swap of vertices 1 and 3 applied at iteration 0
    with tenure [T = 3] writes [0 + 3] for vertex 1 and its old class 1.  Of
    the three iterations that follow, 1 and 2 reject the return of vertex 1
    to class 1 and iteration 3 does not: two iterations, not three. *)
Lemma tabu_entry_expires_one_iteration_early :
  let s' := execute one_edge (init_tabu one_edge_start) 0 3
              (mkCandidate 1 1 3) in
  tabu_at s' 1 1 = 0 + 3
  /\ transfer_is_tabu s' 1 1 1 = true
  /\ transfer_is_tabu s' 2 1 1 = true
  /\ transfer_is_tabu s' 3 1 1 = false
  /\ following 0 3 = [1; 2; 3]
  /\ countb (fun it' => transfer_is_tabu s' it' 1 1) (following 0 3) = 2.
Proof. vm_compute. repeat split. Qed.

(** ** C7 on the instance with one edge *)

(** Half of the vertices are to be perturbed, at once. *)
Definition eager_config : TabuConfig :=
  mkTabuConfig 1000000 (6 # 10) 10 0 (1 # 2) 1.

Definition one_edge_loop : LoopState (RE := Scripted []) :=
  mkLoop (RE := Scripted []) (init_tabu one_edge_start) [] 1 0 0.

Lemma perturbation_iteration_witness :
  let attempts :=
    perturbation_attempts (n (st one_edge_loop))
      (perturbation_strength eager_config) in
  let log :=
    perturb_log one_edge attempts (st one_edge_loop, rng one_edge_loop) in
  let s1 :=
    fst (perturb one_edge eager_config (st one_edge_loop)
           (rng one_edge_loop)) in
  let g1 :=
    snd (perturb one_edge eager_config (st one_edge_loop)
           (rng one_edge_loop)) in
  iteration one_edge eager_config (fun _ => false) one_edge_loop
  = Continue
      (mkLoop (init_tabu s1) g1 (best_obj_found one_edge_loop)
         (iter one_edge_loop + 1) 0)
  /\ swaps_applied one_edge log (st one_edge_loop) s1
  /\ (length log <= attempts)%nat
  /\ (forall v c, 0 <= v < n s1 -> 0 <= c < k s1 ->
        tabu_at (init_tabu s1) v c = 0).
Proof.
  apply (@perturbation_iteration (Scripted []) one_edge eager_config
           (fun _ => false) one_edge_loop); reflexivity.
Defined.

(** C7 as stated fails.  With [perturbation_strength = 1/2] and [n = 4] the
    claim asks for exactly [floor (4 / 2) = 2] swaps.  The perturbation is
    due, the loop makes its two turns, each turn draws the pair (0, 0), and
    no swap is applied: the state is the one before. *)
Lemma perturbation_may_swap_nothing :
  perturbation_due eager_config one_edge_loop = true
  /\ Qfloor (perturbation_strength eager_config
             * inject_Z (n (st one_edge_loop))) = 2
  /\ perturbation_attempts (n (st one_edge_loop))
       (perturbation_strength eager_config) = 2%nat
  /\ perturb_log one_edge 2 (st one_edge_loop, rng one_edge_loop) = []
  /\ fst (perturb one_edge eager_config (st one_edge_loop)
            (rng one_edge_loop))
     = st one_edge_loop.
Proof. vm_compute. repeat split. Qed.

(** ** C10 on the triangle *)

(** The clock says that time is up from iteration 128 on. *)
Definition late_clock (it : Z) : bool := 128 <=? it.

Definition triangle_timeout : RunOutput :=
  mkOut PollTimeUp (mkResult false 0 1)
    (mkSM 3 2 [0; 1; 0] [2; 1] [1; 0; 1] [2; 0] [1; -1; 0] 1 1 2
       [[0; 0]; [0; 0]; [127; 128]])
    128.

Lemma poll_timeout_returns_initial_result_witness :
  (exit_path triangle_timeout = PollTimeUp ->
   result triangle_timeout = mkResult false 0 (obj triangle_start)
   /\ Z.rem (executed_iter triangle_timeout) 128 = 0
   /\ late_clock (executed_iter triangle_timeout) = true)
  /\ (exit_path triangle_timeout = Stuck
      \/ exit_path triangle_timeout = LoopConditionFalse ->
      iterations (result triangle_timeout) = executed_iter triangle_timeout
      /\ solved (result triangle_timeout)
         = (final_obj (result triangle_timeout) =? 0)
      /\ final_obj (result triangle_timeout)
         = fold_left Z.min
             (evaluated_objectives default_config
                (run_states (RE := Scripted []) triangle default_config
                   late_clock 0 triangle_start))
             (obj triangle_start))
  /\ (exit_path triangle_timeout <> AlreadyOptimal ->
      executed_iter triangle_timeout
      = Z.of_nat
          (length
             (run_states (RE := Scripted []) triangle default_config
                late_clock 0 triangle_start)) - 1
      /\ final_state triangle_timeout
         = st (last
                 (run_states (RE := Scripted []) triangle default_config
                    late_clock 0 triangle_start)
                 (mkLoop triangle_start (@mt19937 (Scripted []) 0)
                    (obj triangle_start) 0 0))).
Proof.
  apply (@poll_timeout_returns_initial_result (Scripted []) triangle
           default_config late_clock 0 triangle_start triangle_timeout).
  vm_compute. reflexivity.
Defined.

(** ** C4 on the instance with one edge *)

(** A perturbation is due at once; the other fields are the defaults. *)
Definition restless_config : TabuConfig :=
  mkTabuConfig 1000000 (6 # 10) 10 0 (16 # 100) 1.

(** C4 does not hold of the code: [solved] is computed from
    [best_obj_found], which a perturbation does not update.  Here the first
    iteration is a perturbation: its single turn draws the vertices 1 and 2
    and swaps them, which removes the only conflict.  The loop ends because
    [obj] is 0, yet the call reports [solved = false]. *)
Theorem perturbation_solves_but_solved_is_false :
  exists out,
    run_tabu_search (RE := Scripted [1; 2]) one_edge restless_config
      (fun _ => false) 0 one_edge_start
    = Some out
    /\ exit_path out = LoopConditionFalse
    /\ obj (final_state out) = 0
    /\ color (final_state out) = [1; 0; 1; 0]
    /\ result out = mkResult false 1 1.
Proof. eexists. vm_compute. repeat split. Qed.

(** * The warm start *)

(** Induction along [for (int m = 0; m < n; ++m)]. *)
Lemma fold_range_ind {A} (P : Z -> A -> Prop) (f : A -> Z -> A) (a : A) n0 :
  0 <= n0 -> P 0 a ->
  (forall m a', 0 <= m < n0 -> P m a' -> P (m + 1) (f a' m)) ->
  P n0 (fold_left f (range n0) a).
Proof.
  intros Hn H0 Hstep.
  assert (H : forall m, 0 <= m -> m <= n0 -> P m (fold_left f (range m) a)).
  { apply (natlike_ind (fun m => m <= n0 -> P m (fold_left f (range m) a))).
    - intros _. exact H0.
    - intros m Hm IH Hle. unfold Z.succ.
      rewrite range_succ, fold_left_app by lia. simpl.
      apply Hstep; [lia|]. apply IH. lia. }
  apply H; lia.
Qed.

Lemma NoDup_vget_inj (l : list Z) i j :
  NoDup l -> 0 <= i < vsize l -> 0 <= j < vsize l ->
  vget 0 l i = vget 0 l j -> i = j.
Proof.
  unfold vget, vsize. intros Hnd Hi Hj E.
  destruct (Z.ltb_spec i 0); [lia|]. destruct (Z.ltb_spec j 0); [lia|].
  assert (Z.to_nat i = Z.to_nat j); [|lia].
  apply (proj1 (NoDup_nth l 0) Hnd); auto; lia.
Qed.

Section ColorMap.
Variables (pk : Z) (perm : list Z).
Hypothesis Hpk : 1 <= pk.
Hypothesis Hperm : Permutation perm (range pk).

Let removed_color : Z := vget 0 perm (pk - 1).
Let color_map : list Z :=
  fold_left (fun m i => vset m (vget 0 perm i) i) (range (pk - 1))
    (repeat (-1) (Z.to_nat pk)).

Lemma perm_size : vsize perm = pk.
Proof.
  unfold vsize. rewrite (Permutation_length Hperm), length_range. lia.
Qed.

Lemma perm_NoDup : NoDup perm.
Proof. apply (Permutation_NoDup (Permutation_sym Hperm)), NoDup_range. Qed.

Lemma perm_range i : 0 <= i < pk -> 0 <= vget 0 perm i < pk.
Proof.
  intros Hi. apply In_range. apply (Permutation_in _ Hperm).
  apply vget_In. rewrite perm_size. exact Hi.
Qed.

Lemma perm_onto c : 0 <= c < pk -> exists i, 0 <= i < pk /\ vget 0 perm i = c.
Proof.
  intros Hc. apply In_range in Hc.
  apply (Permutation_in _ (Permutation_sym Hperm)) in Hc.
  apply (In_vget 0) in Hc as (i & Hi & E). rewrite perm_size in Hi. eauto.
Qed.

Lemma color_map_prefix :
  vsize color_map = pk
  /\ (forall i, 0 <= i < pk - 1 -> vget 0 color_map (vget 0 perm i) = i)
  /\ (forall c, 0 <= c < pk ->
        (forall i, 0 <= i < pk - 1 -> vget 0 perm i <> c) ->
        vget 0 color_map c = -1).
Proof.
  unfold color_map.
  apply (fold_range_ind
           (fun m cm =>
              vsize cm = pk
              /\ (forall i, 0 <= i < m -> vget 0 cm (vget 0 perm i) = i)
              /\ (forall c, 0 <= c < pk ->
                    (forall i, 0 <= i < m -> vget 0 perm i <> c) ->
                    vget 0 cm c = -1))); [lia| |].
  - split; [rewrite vsize_repeat; lia|]. split; [intros i Hi; lia|].
    intros c Hc _. apply vget_repeat. lia.
  - intros m cm Hm (Hsz & Hhit & Hmiss).
    pose proof (perm_range (i := m) ltac:(lia)) as Hpm.
    split; [now rewrite vsize_vset|]. split.
    + intros i Hi. destruct (Z.eq_dec i m) as [->|Him].
      * apply vget_vset_same. lia.
      * rewrite vget_vset_other; [apply Hhit; lia|].
        intros E. apply Him. symmetry.
        apply (NoDup_vget_inj perm_NoDup); rewrite ?perm_size; auto; lia.
    + intros c Hc Hno.
      rewrite vget_vset_other; [apply Hmiss; auto; intros i Hi; apply Hno; lia|].
      apply Hno. lia.
Qed.

(** Every colour but the removed one has a new index below [pk - 1], and
    [perm] leads back from it. *)
Lemma color_map_spec c :
  0 <= c < pk -> c <> removed_color ->
  0 <= vget 0 color_map c < pk - 1
  /\ vget 0 perm (vget 0 color_map c) = c.
Proof.
  intros Hc Hne. destruct color_map_prefix as (_ & Hhit & _).
  destruct (perm_onto Hc) as (i & Hi & E).
  assert (Hi' : i <> pk - 1) by (intros ->; apply Hne; symmetry; exact E).
  subst c. rewrite Hhit by lia. split; [lia|reflexivity].
Qed.

Lemma color_map_inj c c' :
  0 <= c < pk -> c <> removed_color ->
  0 <= c' < pk -> c' <> removed_color ->
  vget 0 color_map c = vget 0 color_map c' -> c = c'.
Proof.
  intros Hc Hne Hc' Hne' E.
  destruct (color_map_spec Hc Hne) as [_ E1].
  destruct (color_map_spec Hc' Hne') as [_ E2].
  rewrite <- E1, <- E2, E. reflexivity.
Qed.


Lemma perm_below_not_removed i :
  0 <= i < pk - 1 -> vget 0 perm i <> removed_color.
Proof.
  intros Hi E. unfold removed_color in E.
  apply (NoDup_vget_inj perm_NoDup) in E; rewrite ?perm_size; lia.
Qed.

Lemma color_map_perm i :
  0 <= i < pk - 1 -> vget 0 color_map (vget 0 perm i) = i.
Proof. intros Hi. now apply color_map_prefix. Qed.

End ColorMap.

Lemma vset_same_value (l : list Z) i :
  vset l i (vget 0 l i) = l.
Proof.
  apply vget_ext; [apply vsize_vset|].
  intros j Hj. rewrite vsize_vset in Hj.
  destruct (Z.eq_dec j i) as [->|Hne].
  - now rewrite vget_vset_same.
  - now rewrite vget_vset_other.
Qed.

Lemma countb_le {A} (p q : A -> bool) l :
  (forall x, In x l -> p x = true -> q x = true) -> countb p l <= countb q l.
Proof.
  induction l as [|h t IH]; intros H.
  - rewrite !countb_nil. lia.
  - rewrite !countb_cons. cbv beta.
    assert (IH' : countb p t <= countb q t)
      by (apply IH; intros x Hx; apply H; now right).
    pose proof (H h (or_introl eq_refl)) as Hh.
    destruct (p h); destruct (q h); try lia;
      specialize (Hh eq_refl); discriminate.
Qed.

Lemma countb_range_succ (p : Z -> bool) m :
  0 <= m -> countb p (range (m + 1)) = countb p (range m) + b2z (p m).
Proof.
  intros Hm. rewrite range_succ, countb_app by lia.
  rewrite countb_cons, countb_nil. cbv beta. unfold b2z.
  destruct (p m); lia.
Qed.

Section WarmStart.
Context {RE : RandomEngine}.
Variable inst : Instance.
Hypothesis SG : simple_graph inst.
Variables (prevSol : SolutionManager) (perm : list Z).
Hypothesis Hprev : Good inst prevSol.
Hypothesis Hk2 : 2 <= k prevSol.
Hypothesis Hperm : Permutation perm (range (k prevSol)).
Variables (removed_color : Z) (color_map : list Z).
Hypothesis Eremoved : removed_color = vget 0 perm (k prevSol - 1).
Hypothesis Emap :
  color_map
  = fold_left (fun m i => vset m (vget 0 perm i) i) (range (k prevSol - 1))
      (repeat (-1) (Z.to_nat (k prevSol))).

(** The vertices of the removed class. *)
Definition gone (v : Z) : bool := vget 0 (color prevSol) v =? removed_color.

(** The colour a vertex has after step 3. *)
Definition carried_color (v : Z) : Z :=
  if gone v then -1 else vget 0 color_map (vget 0 (color prevSol) v).

(** The conflict count a vertex has after step 4. *)
Definition carried_conflicts (v : Z) : Z :=
  if gone v then 0 else vget 0 (conflicts prevSol) v.

Lemma prev_n : n prevSol = inst_n inst.
Proof. apply (cs_n (good_consistent Hprev)). Qed.

Lemma prev_color_range v :
  0 <= v < inst_n inst -> 0 <= vget 0 (color prevSol) v < k prevSol.
Proof. intros Hv. apply (good_colored Hprev). rewrite prev_n. exact Hv. Qed.

Lemma carried_color_range v :
  0 <= v < inst_n inst -> gone v = false ->
  0 <= carried_color v < k prevSol - 1.
Proof.
  intros Hv Hg. unfold carried_color. rewrite Hg.
  unfold gone in Hg. apply Z.eqb_neq in Hg.
  pose proof (@color_map_spec (k prevSol) perm ltac:(lia) Hperm
                (vget 0 (color prevSol) v) (prev_color_range Hv)) as H.
  cbv zeta in H. rewrite <- Eremoved, <- Emap in H. apply H. exact Hg.
Qed.

Lemma carried_color_back v :
  0 <= v < inst_n inst -> gone v = false ->
  vget 0 perm (carried_color v) = vget 0 (color prevSol) v.
Proof.
  intros Hv Hg. unfold carried_color. rewrite Hg.
  unfold gone in Hg. apply Z.eqb_neq in Hg.
  pose proof (@color_map_spec (k prevSol) perm ltac:(lia) Hperm
                (vget 0 (color prevSol) v) (prev_color_range Hv)) as H.
  cbv zeta in H. rewrite <- Eremoved, <- Emap in H. apply H. exact Hg.
Qed.

Lemma carried_color_gone v : gone v = true -> carried_color v = -1.
Proof. intros Hg. unfold carried_color. now rewrite Hg. Qed.

(** [*this] after the clearing statements, initialised for one colour less. *)
Definition warm_base : SolutionManager :=
  clear_state (init inst (k prevSol - 1)).

(** The state of step 3 after the vertices below [m]. *)
Record Transferred (m : Z) (acc : SolutionManager * list Z) : Prop :=
  mkTransferred {
  tr_frame :
    fst acc
    = set_classSize (set_color warm_base (color (fst acc))) (classSize (fst acc));
  tr_color_size : vsize (color (fst acc)) = inst_n inst;
  tr_class_size : vsize (classSize (fst acc)) = k prevSol - 1;
  tr_color : forall v, 0 <= v < inst_n inst ->
    vget 0 (color (fst acc)) v = if v <? m then carried_color v else -1;
  tr_class : forall c, 0 <= c < k prevSol - 1 ->
    vget 0 (classSize (fst acc)) c
    = countb (fun v => carried_color v =? c) (range m);
  tr_sum : zsum (classSize (fst acc)) + Z.of_nat (length (snd acc)) = m;
  tr_nodup : NoDup (snd acc);
  tr_unc : forall v, In v (snd acc) <-> 0 <= v < m /\ gone v = true }.

Lemma transfer_start : Transferred 0 (warm_base, []).
Proof.
  pose proof (sg_n SG) as Hn.
  constructor; cbn [fst snd].
  - reflexivity.
  - unfold warm_base, clear_state, init. sm_simpl. rewrite vsize_fill, vsize_repeat; lia.
  - unfold warm_base, clear_state, init. sm_simpl.
    destruct (Z.eqb_spec (k prevSol - 1) (-1)); [lia|].
    rewrite vsize_fill, vsize_repeat; lia.
  - intros v Hv. destruct (Z.ltb_spec v 0); [lia|].
    unfold warm_base, clear_state, init. sm_simpl. apply vget_fill.
    rewrite vsize_repeat; lia.
  - intros c Hc. unfold warm_base, clear_state, init. sm_simpl.
    destruct (Z.eqb_spec (k prevSol - 1) (-1)); [lia|].
    rewrite vget_fill by (rewrite vsize_repeat; lia). reflexivity.
  - unfold warm_base, clear_state, init, fill. sm_simpl.
    rewrite zsum_repeat_zero.
    reflexivity.
  - constructor.
  - intros v. split; [intros []|lia].
Qed.

Lemma transfer_step m acc :
  0 <= m < inst_n inst -> Transferred m acc ->
  Transferred (m + 1) (transfer_vertex prevSol removed_color color_map acc m).
Proof.
  intros Hm [Hfr Hcz Hkz Hcol Hcls Hsum Hnd Hunc].
  destruct acc as [s unc]. cbn [fst snd] in *.
  unfold transfer_vertex. fold (gone m).
  destruct (gone m) eqn:Hg.
  - pose proof (carried_color_gone m Hg) as Ecc.
    constructor; cbn [fst snd]; auto.
    + intros v Hv. rewrite Hcol by auto.
      destruct (Z.ltb_spec v m); destruct (Z.ltb_spec v (m + 1)); try lia.
      replace v with m by lia. now rewrite Ecc.
    + intros c Hc. rewrite Hcls by auto.
      rewrite countb_range_succ by lia. rewrite Ecc.
      destruct (Z.eqb_spec (-1) c); [lia|]. simpl. lia.
    + rewrite length_app. simpl length. lia.
    + apply NoDup_app; auto.
      * repeat constructor. intros [].
      * intros x Hx [<-|[]]. apply Hunc in Hx. lia.
    + intros v. rewrite in_app_iff, Hunc. simpl.
      split.
      * intros [[Hv Hgv]|[<-|[]]]; split; auto; lia.
      * intros [Hv Hgv]. destruct (Z.eq_dec v m); [right; left; auto|].
        left. split; auto. lia.
  - pose proof (carried_color_range Hm Hg) as Hr.
    assert (Ecc : vget 0 color_map (vget 0 (color prevSol) m)
                  = carried_color m)
      by (unfold carried_color; now rewrite Hg).
    rewrite Ecc.
    constructor; cbn [fst snd]; sm_simpl; auto.
    + rewrite Hfr. reflexivity.
    + now rewrite vsize_vset.
    + now rewrite vsize_vset.
    + intros v Hv.
      destruct (Z.eq_dec v m) as [->|Hne].
      * rewrite vget_vset_same by lia.
        destruct (Z.ltb_spec m (m + 1)); [reflexivity|lia].
      * rewrite vget_vset_other by auto. rewrite Hcol by auto.
        destruct (Z.ltb_spec v m); destruct (Z.ltb_spec v (m + 1));
          try lia; reflexivity.
    + intros c Hc. rewrite countb_range_succ by lia.
      destruct (Z.eq_dec c (carried_color m)) as [->|Hne].
      * rewrite vget_vset_same by lia. rewrite Hcls by auto.
        rewrite Z.eqb_refl. reflexivity.
      * rewrite vget_vset_other by auto. rewrite Hcls by auto.
        destruct (Z.eqb_spec (carried_color m) c); [congruence|].
        simpl. lia.
    + rewrite zsum_vset by lia. lia.
    + intros v. rewrite Hunc. split; intros [Hv Hgv]; split; auto; try lia.
      destruct (Z.eq_dec v m); [congruence|lia].
Qed.

Lemma transfer_all :
  Transferred (inst_n inst)
    (fold_left (transfer_vertex prevSol removed_color color_map)
       (range (inst_n inst)) (warm_base, [])).
Proof.
  apply (fold_range_ind Transferred).
  - apply (sg_n SG).
  - apply transfer_start.
  - intros m a Hm Ha. now apply transfer_step.
Qed.

(** The inner loop of step 4 lowers the objective once per listed edge. *)
Lemma drop_edges_fold (q : Z -> bool) l : forall s,
  fold_left (fun a u => if q u then set_obj a (obj a - 1) else a) l s
  = set_obj s (obj s - countb q l).
Proof.
  induction l as [|u l IH]; intros s.
  - rewrite countb_nil. destruct s. cbn [fold_left]. unfold set_obj.
    sm_simpl. f_equal. lia.
  - cbn [fold_left]. rewrite IH, countb_cons. cbv beta.
    destruct (q u); destruct s; unfold set_obj; sm_simpl; f_equal; lia.
Qed.

(** What step 4 takes off the objective at vertex [v]. *)
Definition cut (v : Z) : Z :=
  if gone v && (vget 0 (conflicts prevSol) v >? 0)
  then countb (fun u => (u >? v) && gone u) (adj_of inst v) else 0.

Lemma inherit_fields s v :
  let s' := inherit_conflicts inst prevSol removed_color s v in
  conflicts s' = vset (conflicts s) v (carried_conflicts v)
  /\ obj s' = obj s - cut v
  /\ n s' = n s /\ k s' = k s /\ color s' = color s
  /\ classSize s' = classSize s /\ floor_size s' = floor_size s
  /\ big_size s' = big_size s /\ tabu_matrix s' = tabu_matrix s.
Proof.
  unfold inherit_conflicts, cut, carried_conflicts. fold (gone v).
  destruct (gone v) eqn:Hg; cbn [andb].
  - destruct (vget 0 (conflicts prevSol) v >? 0).
    + rewrite (drop_edges_fold
                 (fun u => (u >? v) && (vget 0 (color prevSol) u =? removed_color))).
      sm_simpl. repeat split; reflexivity.
    + sm_simpl. repeat split; try reflexivity. lia.
  - match goal with |- context [if ?c then _ else _] => destruct c end;
      sm_simpl; repeat split; try reflexivity; lia.
Qed.

Lemma settle_unlisted s v x :
  ListInv s -> 0 <= v < n s -> vget 0 (conflictingIndex s) v = -1 ->
  let s1 := set_conflicts s (vset (conflicts s) v x) in
  ListInv
    (if x >? 0
     then set_conflictingList s1 (conflictingVertices s1 ++ [v])
            (vset (conflictingIndex s1) v (vsize (conflictingVertices s1)))
     else set_conflictingList s1 (conflictingVertices s1)
            (vset (conflictingIndex s1) v (-1))).
Proof.
  intros HL Hv Hci s1.
  pose proof (update_conflict_status_restores
                (ListInv_set_conflicts v x HL) Hv) as HU.
  fold s1 in HU. unfold update_conflict_status in HU.
  assert (E1 : vget 0 (conflicts s1) v = x).
  { unfold s1. sm_simpl. apply vget_vset_same.
    rewrite (li_conflicts_size HL). exact Hv. }
  assert (E2 : vget 0 (conflictingIndex s1) v = -1) by exact Hci.
  rewrite E1, E2 in HU. cbn [Z.eqb negb Pos.eqb] in HU.
  destruct (x >? 0); [exact HU|].
  apply ListInv_same with (s := s1); auto.
  unfold s1. sm_simpl. rewrite <- Hci at 1. apply vset_same_value.
Qed.

Lemma inherit_ListInv s v :
  ListInv s -> 0 <= v < n s -> vget 0 (conflictingIndex s) v = -1 ->
  ListInv (inherit_conflicts inst prevSol removed_color s v).
Proof.
  intros HL Hv Hci. unfold inherit_conflicts.
  destruct (vget 0 (color prevSol) v =? removed_color).
  - destruct (vget 0 (conflicts prevSol) v >? 0).
    + rewrite drop_edges_fold.
      exact (@settle_unlisted (set_obj s _) v 0 (ListInv_set_obj _ HL) Hv Hci).
    + exact (@settle_unlisted s v 0 HL Hv Hci).
  - pose proof (@settle_unlisted s v (vget 0 (conflicts prevSol) v) HL Hv Hci)
      as H.
    cbv zeta in H. sm_simpl.
    rewrite vget_vset_same by (rewrite (li_conflicts_size HL); exact Hv).
    exact H.
Qed.

(** The state of step 4 after the vertices below [m]; [s1] is the state
    step 3 left. *)
Record Inherited (s1 : SolutionManager) (m : Z) (s : SolutionManager)
  : Prop := mkInherited {
  ih_n : n s = n s1;
  ih_k : k s = k s1;
  ih_color : color s = color s1;
  ih_classSize : classSize s = classSize s1;
  ih_floor : floor_size s = floor_size s1;
  ih_big : big_size s = big_size s1;
  ih_tabu : tabu_matrix s = tabu_matrix s1;
  ih_list : ListInv s;
  ih_conflicts : forall v, 0 <= v < n s1 ->
    vget 0 (conflicts s) v = if v <? m then carried_conflicts v else 0;
  ih_obj : obj s = obj prevSol - zsum (map cut (range m)) }.

Lemma inherit_step s1 m s :
  0 <= m < n s1 -> Inherited s1 m s ->
  Inherited s1 (m + 1) (inherit_conflicts inst prevSol removed_color s m).
Proof.
  intros Hm [E1 E2 E3 E4 E5 E6 E7 HL Hcf Hobj].
  assert (Hci : vget 0 (conflictingIndex s) m = -1).
  { destruct (Z.eq_dec (vget 0 (conflictingIndex s) m) (-1)) as [|Hne]; auto.
    apply (li_iff HL) in Hne; [|lia|discriminate].
    rewrite Hcf in Hne by lia.
    destruct (Z.ltb_spec m m); lia. }
  pose proof (inherit_fields s m) as F. cbv zeta in F.
  destruct F as (F1&F2&F3&F4&F5&F6&F7&F8&F9).
  constructor; try congruence.
  - apply inherit_ListInv; auto. lia.
  - intros v Hv. rewrite F1.
    destruct (Z.eq_dec v m) as [->|Hne].
    + rewrite vget_vset_same
        by (rewrite (li_conflicts_size HL); lia).
      destruct (Z.ltb_spec m (m + 1)); [reflexivity|lia].
    + rewrite vget_vset_other by auto. rewrite Hcf by auto.
      destruct (Z.ltb_spec v m); destruct (Z.ltb_spec v (m + 1));
        try lia; reflexivity.
  - rewrite F2, Hobj, range_succ, map_app, zsum_app by lia. simpl. lia.
Qed.

Lemma inherit_all s1 :
  n s1 = inst_n inst ->
  ListInv s1 -> (forall v, 0 <= v < n s1 -> vget 0 (conflicts s1) v = 0) ->
  Inherited s1 (n s1)
    (fold_left (inherit_conflicts inst prevSol removed_color) (range (n s1))
       (set_obj s1 (obj prevSol))).
Proof.
  intros En HL Hz.
  apply (fold_range_ind (Inherited s1)).
  - rewrite En. apply (sg_n SG).
  - constructor; try reflexivity.
    + now apply ListInv_set_obj.
    + intros v Hv. sm_simpl. rewrite Hz by auto.
      destruct (Z.ltb_spec v 0); [lia|reflexivity].
    + sm_simpl. simpl. lia.
  - intros m a Hm Ha. now apply inherit_step.
Qed.

Lemma zsum_map_scale {A} (c : Z) (f : A -> Z) l :
  zsum (map (fun x => c * f x) l) = c * zsum (map f l).
Proof. induction l as [|x t IH]; simpl; lia. Qed.

Lemma gone_conflicts v :
  0 <= v < inst_n inst -> gone v = true ->
  vget 0 (conflicts prevSol) v = countb gone (adj_of inst v).
Proof.
  intros Hv Hg. pose proof (prev_color_range Hv) as Hc.
  rewrite (cs_conflicts (good_consistent Hprev)) by (rewrite prev_n; exact Hv).
  destruct (Z.eqb_spec (vget 0 (color prevSol) v) (-1)); [lia|].
  unfold same_color_nbrs. apply countb_ext. intros u _.
  unfold gone in *. apply Z.eqb_eq in Hg. now rewrite Hg.
Qed.

Lemma cut_as_count v :
  0 <= v < inst_n inst ->
  cut v = countb (fun u => gone v && ((u >? v) && gone u)) (adj_of inst v).
Proof.
  intros Hv. unfold cut. destruct (gone v) eqn:Hg; cbn [andb].
  - destruct (Z.gtb_spec (vget 0 (conflicts prevSol) v) 0) as [|Hle];
      [reflexivity|].
    rewrite (gone_conflicts Hv Hg) in Hle.
    pose proof (countb_nonneg (fun u => (u >? v) && gone u) (adj_of inst v)).
    assert (countb (fun u => (u >? v) && gone u) (adj_of inst v)
            <= countb gone (adj_of inst v)); [|lia].
    apply countb_le. intros u _ Hu. apply andb_true_iff in Hu. apply Hu.
  - symmetry. apply countb_none. reflexivity.
Qed.

Lemma carried_conflicts_split v :
  0 <= v < inst_n inst ->
  carried_conflicts v
  = vget 0 (conflicts prevSol) v
    - countb (fun u => gone v && gone u) (adj_of inst v).
Proof.
  intros Hv. unfold carried_conflicts. destruct (gone v) eqn:Hg; cbn [andb].
  - rewrite (gone_conflicts Hv Hg). symmetry. apply Z.sub_diag.
  - rewrite countb_none by reflexivity. lia.
Qed.

(** Each edge inside the removed class is seen twice by the conflict counts
    and once by the cut. *)
Lemma cut_total :
  zsum (map (fun v => countb (fun u => gone v && gone u) (adj_of inst v))
          (range (inst_n inst)))
  = 2 * zsum (map cut (range (inst_n inst))).
Proof.
  rewrite (zsum_map_ext cut
             (fun v => countb (fun u => gone v && ((u >? v) && gone u))
                         (adj_of inst v)))
    by (intros v Hv; apply cut_as_count; now apply In_range).
  rewrite (sum_over_adj SG (fun v u => gone v && gone u)).
  rewrite (sum_over_adj SG (fun v u => gone v && ((u >? v) && gone u))).
  rewrite <- zsum_map_scale. apply zsum_map_ext.
  intros [a b] He. cbn [fst snd].
  pose proof (sg_loops SG) as Hl. unfold no_self_loops in Hl.
  rewrite forallb_forall in Hl. specialize (Hl _ He). cbn [fst snd] in Hl.
  apply negb_true_iff, Z.eqb_neq in Hl.
  destruct (gone a); destruct (gone b); cbn [andb b2z];
    rewrite ?andb_true_r, ?andb_false_r; cbn [b2z]; try lia.
  destruct (Z.gtb_spec b a); destruct (Z.gtb_spec a b); cbn [b2z]; lia.
Qed.

Lemma carried_color_eqb u v :
  0 <= u < inst_n inst -> 0 <= v < inst_n inst -> gone v = false ->
  (carried_color u =? carried_color v)
  = (vget 0 (color prevSol) u =? vget 0 (color prevSol) v).
Proof.
  intros Hu Hv Hgv. pose proof (carried_color_range Hv Hgv) as Hrv.
  destruct (gone u) eqn:Hgu.
  - rewrite (carried_color_gone u Hgu).
    unfold gone in Hgu, Hgv. apply Z.eqb_eq in Hgu. apply Z.eqb_neq in Hgv.
    destruct (Z.eqb_spec (-1) (carried_color v)); [lia|].
    destruct (Z.eqb_spec (vget 0 (color prevSol) u)
                (vget 0 (color prevSol) v)); congruence.
  - pose proof (carried_color_back Hu Hgu) as Bu.
    pose proof (carried_color_back Hv Hgv) as Bv.
    destruct (Z.eqb_spec (carried_color u) (carried_color v)) as [E|Hne];
      destruct (Z.eqb_spec (vget 0 (color prevSol) u)
                  (vget 0 (color prevSol) v)) as [E'|Hne']; auto.
    + exfalso. apply Hne'. rewrite <- Bu, <- Bv, E. reflexivity.
    + exfalso. apply Hne. unfold carried_color. rewrite Hgu, Hgv, E'.
      reflexivity.
Qed.

(** The class that takes the index [c] is the old class [perm[c]]. *)
Lemma class_carried c :
  0 <= c < k prevSol - 1 ->
  countb (fun v => carried_color v =? c) (range (inst_n inst))
  = vget 0 (classSize prevSol) (vget 0 perm c).
Proof.
  intros Hc.
  pose proof (@perm_range (k prevSol) perm ltac:(lia) Hperm c ltac:(lia))
    as Hpc.
  destruct (good_sizes Hprev) as [_ Hm]. rewrite (Hm _ Hpc), prev_n.
  apply countb_ext. intros v Hv. apply In_range in Hv.
  pose proof (@perm_below_not_removed (k prevSol) perm ltac:(lia) Hperm c Hc)
    as Hnr. cbv zeta in Hnr. rewrite <- Eremoved in Hnr.
  destruct (gone v) eqn:Hg.
  - rewrite (carried_color_gone v Hg). unfold gone in Hg.
    apply Z.eqb_eq in Hg. rewrite Hg.
    destruct (Z.eqb_spec (-1) c); [lia|].
    destruct (Z.eqb_spec removed_color (vget 0 perm c)); congruence.
  - pose proof (carried_color_back Hv Hg) as Bv.
    destruct (Z.eqb_spec (carried_color v) c) as [E|Hne];
      destruct (Z.eqb_spec (vget 0 (color prevSol) v) (vget 0 perm c))
        as [E'|Hne']; auto.
    + exfalso. apply Hne'. rewrite <- Bv, E. reflexivity.
    + exfalso. apply Hne. unfold carried_color. rewrite Hg, E', Emap.
      apply (@color_map_perm (k prevSol) perm ltac:(lia) Hperm c Hc).
Qed.

Lemma countb_map {A B} (p : B -> bool) (f : A -> B) l :
  countb p (map f l) = countb (fun x => p (f x)) l.
Proof. unfold countb. now rewrite map_map. Qed.

Lemma map_vget_range (l : list Z) : map (vget 0 l) (range (vsize l)) = l.
Proof.
  induction l as [|h t IH] using rev_ind.
  - reflexivity.
  - rewrite vsize_snoc, range_succ by apply vsize_nonneg.
    rewrite map_app. cbn [map]. rewrite vget_snoc_new. f_equal.
    rewrite (map_ext_in (vget 0 (t ++ [h])) (vget 0 t)); [exact IH|].
    intros c Hc. apply In_range in Hc. now rewrite vget_snoc_old by lia.
Qed.

Lemma countb_perm {A} (p : A -> bool) l l' :
  Permutation l l' -> countb p l = countb p l'.
Proof.
  induction 1 as [|x l l' _ IH|x y l|l l' l'' _ IH1 _ IH2];
    rewrite ?countb_cons; try lia.
Qed.

(** Old sizes, seen through the new numbering. *)
Lemma prev_class_bounds c :
  0 <= c < k prevSol - 1 ->
  0 <= vget 0 (classSize prevSol) (vget 0 perm c)
    <= Z.quot (inst_n inst) (k prevSol) + 1.
Proof.
  intros Hc.
  pose proof (@perm_range (k prevSol) perm ltac:(lia) Hperm c ltac:(lia))
    as Hpc.
  pose proof (good_equity Hprev) as He.
  pose proof (eq_classes He Hpc) as Hcl.
  rewrite (eq_big He), (eq_floor He), prev_n in Hcl.
  destruct (@quot_facts (inst_n inst) (k prevSol) (sg_n SG) ltac:(lia)).
  lia.
Qed.

Lemma prev_bigs_bound :
  countb (fun c => vget 0 (classSize prevSol) (vget 0 perm c)
                   =? Z.quot (inst_n inst) (k prevSol) + 1)
    (range (k prevSol - 1))
  <= inst_n inst - k prevSol * Z.quot (inst_n inst) (k prevSol).
Proof.
  pose proof (good_equity Hprev) as He.
  pose proof (eq_count He) as Hcount.
  rewrite (eq_big He), (eq_floor He), prev_n in Hcount.
  rewrite <- Hcount.
  rewrite (countb_perm _ (Permutation_sym Hperm)).
  set (F' := Z.quot (inst_n inst) (k prevSol)).
  set (p := fun x => vget 0 (classSize prevSol) x =? F' + 1).
  assert (E : countb p perm
              = countb (fun c => p (vget 0 perm c)) (range (k prevSol - 1 + 1))).
  { rewrite <- (countb_map p (vget 0 perm)).
    replace (k prevSol - 1 + 1) with (vsize perm)
      by (rewrite (@perm_size (k prevSol) perm ltac:(lia) Hperm); lia).
    now rewrite map_vget_range. }
  rewrite E, countb_range_succ by lia. unfold b2z, p.
  match goal with |- context [if ?c then _ else _] => destruct c end; lia.
Qed.

Lemma transferred_base m s1 unc :
  Transferred m (s1, unc) ->
  n s1 = inst_n inst /\ k s1 = k prevSol - 1
  /\ conflicts s1 = repeat 0 (Z.to_nat (inst_n inst))
  /\ conflictingVertices s1 = []
  /\ conflictingIndex s1 = repeat (-1) (Z.to_nat (inst_n inst))
  /\ floor_size s1 = Z.quot (inst_n inst) (k prevSol - 1)
  /\ big_size s1 = Z.quot (inst_n inst) (k prevSol - 1) + 1.
Proof.
  intros [Hfr _ _ _ _ _ _ _]. cbn [fst] in Hfr. rewrite Hfr.
  unfold warm_base, clear_state, init, fill. sm_simpl.
  rewrite !repeat_length.
  destruct (Z.eqb_spec (k prevSol - 1) (-1)); [lia|].
  repeat split; reflexivity.
Qed.

Lemma transferred_ListInv m s1 unc :
  Transferred m (s1, unc) ->
  ListInv s1 /\ forall v, 0 <= v < n s1 -> vget 0 (conflicts s1) v = 0.
Proof.
  intros HT. pose proof (sg_n SG) as Hn.
  destruct (transferred_base HT) as (En&_&Ecf&Ecv&Eci&_).
  split.
  - constructor; rewrite ?Ecf, ?Ecv, ?Eci, ?En.
    + rewrite vsize_repeat; lia.
    + rewrite vsize_repeat; lia.
    + unfold vsize. simpl. intros i Hi. lia.
    + intros v Hv. left. apply vget_repeat. lia.
    + intros v Hv _. rewrite !vget_repeat by lia. split; [congruence|lia].
  - intros v Hv. rewrite Ecf. apply vget_repeat. lia.
Qed.

(** After steps 3 and 4 the incremental data describe the partial colouring
    that step 3 produced. *)
Lemma warm_Consistent s1 unc s3 :
  Transferred (inst_n inst) (s1, unc) ->
  Inherited s1 (inst_n inst) s3 -> Consistent inst s3.
Proof.
  intros HT HI. pose proof (sg_n SG) as Hn.
  destruct (transferred_base HT) as (En&Ek&_).
  pose proof (ih_n HI) as En3. pose proof (ih_color HI) as Ecol.
  assert (Hcol : forall v, 0 <= v < inst_n inst ->
            vget 0 (color s3) v = carried_color v).
  { intros v Hv. pose proof (tr_color HT Hv) as E. cbn [fst] in E.
    rewrite Ecol, E.
    destruct (Z.ltb_spec v (inst_n inst)); [reflexivity|lia]. }
  assert (Hcf : forall v, 0 <= v < inst_n inst ->
            vget 0 (conflicts s3) v = carried_conflicts v).
  { intros v Hv. rewrite (ih_conflicts HI) by lia.
    destruct (Z.ltb_spec v (inst_n inst)); [reflexivity|lia]. }
  constructor.
  - congruence.
  - rewrite Ecol, En3, En. apply (tr_color_size HT).
  - intros v Hv. rewrite En3, En in Hv. rewrite Hcf, Hcol by auto.
    destruct (gone v) eqn:Hg.
    + rewrite (carried_color_gone v Hg). unfold carried_conflicts.
      now rewrite Hg.
    + pose proof (carried_color_range Hv Hg) as Hr.
      destruct (Z.eqb_spec (carried_color v) (-1)); [lia|].
      unfold carried_conflicts. rewrite Hg.
      pose proof (prev_color_range Hv) as Hpc.
      rewrite (cs_conflicts (good_consistent Hprev))
        by (rewrite prev_n; exact Hv).
      destruct (Z.eqb_spec (vget 0 (color prevSol) v) (-1)); [lia|].
      unfold same_color_nbrs. apply countb_ext. intros u Hu.
      apply (adj_of_In SG) in Hu. rewrite !Hcol by lia.
      symmetry. apply carried_color_eqb; auto; lia.
  - rewrite (ih_obj HI).
    rewrite <- (zsum_range (conflicts s3)).
    rewrite (li_conflicts_size (ih_list HI)), En3, En.
    rewrite (zsum_map_ext (vget 0 (conflicts s3)) carried_conflicts)
      by (intros v Hv; apply Hcf; now apply In_range).
    pose proof (cs_obj (good_consistent Hprev)) as Hobj.
    rewrite <- (zsum_range (conflicts prevSol)) in Hobj.
    rewrite (li_conflicts_size (cs_list (good_consistent Hprev))), prev_n
      in Hobj.
    pose proof cut_total as Hcut.
    assert (Hsplit :
      zsum (map carried_conflicts (range (inst_n inst)))
      + zsum (map (fun v => countb (fun u => gone v && gone u)
                              (adj_of inst v)) (range (inst_n inst)))
      = zsum (map (vget 0 (conflicts prevSol)) (range (inst_n inst)))).
    { rewrite <- zsum_map_add. apply zsum_map_ext. intros v Hv.
      apply In_range in Hv. rewrite (carried_conflicts_split Hv). lia. }
    lia.
  - apply (ih_list HI).
Qed.

(** Steps 3 and 4 establish the invariant of the colouring loop, with
    [current_r] as step 5 counts it. *)
Lemma warm_GreedyInv s1 unc s3 order :
  Transferred (inst_n inst) (s1, unc) ->
  Inherited s1 (inst_n inst) s3 -> Permutation order unc ->
  GreedyInv inst (Z.quot (inst_n inst) (k prevSol - 1))
    (inst_n inst - (k prevSol - 1) * Z.quot (inst_n inst) (k prevSol - 1))
    order s3
    (countb (fun c => vget 0 (classSize s3) c
                      >=? Z.quot (inst_n inst) (k prevSol - 1) + 1)
       (range (k prevSol - 1))).
Proof.
  intros HT HI HP. pose proof (sg_n SG) as Hn.
  destruct (transferred_base HT) as (En&Ek&_).
  pose proof (ih_n HI) as En3. pose proof (ih_k HI) as Ek3.
  pose proof (ih_color HI) as Ecol. pose proof (ih_classSize HI) as Ecls.
  set (F := Z.quot (inst_n inst) (k prevSol - 1)).
  set (F' := Z.quot (inst_n inst) (k prevSol)).
  assert (HFF : F' <= F) by (apply Z.quot_le_compat_l; lia).
  destruct (@quot_facts (inst_n inst) (k prevSol - 1) Hn ltac:(lia))
    as [HF0 HR0]. fold F in HF0, HR0.
  assert (Hcol : forall v, 0 <= v < inst_n inst ->
            vget 0 (color s3) v = carried_color v).
  { intros v Hv. pose proof (tr_color HT Hv) as E. cbn [fst] in E.
    rewrite Ecol, E.
    destruct (Z.ltb_spec v (inst_n inst)); [reflexivity|lia]. }
  assert (Hsz : vsize (classSize s3) = k prevSol - 1)
    by (rewrite Ecls; apply (tr_class_size HT)).
  assert (Hcs : forall c, 0 <= c < k prevSol - 1 ->
            vget 0 (classSize s3) c
            = vget 0 (classSize prevSol) (vget 0 perm c)).
  { intros c Hc. pose proof (tr_class HT Hc) as E. cbn [fst] in E.
    rewrite Ecls, E. now apply class_carried. }
  assert (Hb : forall c, 0 <= c < k prevSol - 1 ->
            0 <= vget 0 (classSize s3) c <= F' + 1).
  { intros c Hc. rewrite (Hcs c Hc). now apply prev_class_bounds. }
  assert (Hcap : capped F (classSize s3)).
  { apply Forall_vget. intros c Hc. rewrite Hsz in Hc.
    specialize (Hb c Hc). lia. }
  assert (Hbigs : bigs F (classSize s3)
                  = countb (fun c => vget 0 (classSize s3) c >=? F + 1)
                      (range (k prevSol - 1))).
  { unfold bigs. rewrite <- (countb_range (fun x => x =? F + 1)), Hsz.
    apply countb_ext. intros c Hc. apply In_range in Hc.
    specialize (Hb c Hc).
    destruct (Z.eqb_spec (vget 0 (classSize s3) c) (F + 1));
      destruct (Z.geb_spec (vget 0 (classSize s3) c) (F + 1)); auto; lia. }
  constructor.
  - apply (warm_Consistent HT HI).
  - intros v Hv. rewrite En3, En in Hv. rewrite (Hcol v Hv), Ek3, Ek.
    destruct (gone v) eqn:Hg.
    + left. now apply carried_color_gone.
    + right. now apply carried_color_range.
  - split; [congruence|]. intros c Hc. rewrite Ek3, Ek in Hc.
    pose proof (tr_class HT Hc) as E. cbn [fst] in E.
    rewrite Ecls, E, En3, En. apply countb_ext. intros v Hv.
    apply In_range in Hv. now rewrite (Hcol v Hv).
  - exact Hcap.
  - exact Hbigs.
  - rewrite <- Hbigs. unfold bigs.
    rewrite <- (countb_range (fun x => x =? F + 1)), Hsz.
    destruct (Z.eq_dec F' F) as [E|Hne].
    + pose proof prev_bigs_bound as Hpb. fold F' in Hpb.
      rewrite (countb_ext _
                 (fun c => vget 0 (classSize prevSol) (vget 0 perm c)
                           =? F' + 1)).
      * nia.
      * intros c Hc. apply In_range in Hc. now rewrite (Hcs c Hc), E.
    + rewrite countb_none; [lia|].
      intros c Hc. apply In_range in Hc. specialize (Hb c Hc).
      apply Z.eqb_neq. lia.
  - pose proof (tr_sum HT) as Hs. cbn [fst snd] in Hs.
    rewrite Ecls, (Permutation_length HP), En3, En. exact Hs.
  - apply (Permutation_NoDup (Permutation_sym HP)), (tr_nodup HT).
  - intros v. rewrite En3, En. split.
    + intros Hv. apply (Permutation_in _ HP) in Hv.
      apply (tr_unc HT) in Hv. destruct Hv as [Hv Hg]. split; auto.
      rewrite (Hcol v Hv). now apply carried_color_gone.
    + intros [Hv Hc]. apply (Permutation_in _ (Permutation_sym HP)).
      apply (tr_unc HT). split; auto. rewrite (Hcol v Hv) in Hc.
      destruct (gone v) eqn:Hg; auto.
      pose proof (carried_color_range Hv Hg). lia.
Qed.

End WarmStart.

Section WarmStartGood.
Context {RE : RandomEngine}.
Variable inst : Instance.
Hypothesis SG : simple_graph inst.

(** [construct_greedy_from_previous], called on a manager initialised for one
    colour less than a state that satisfies the data model, yields a state
    that satisfies it. *)
Lemma construct_greedy_from_previous_Good prevSol seed :
  Good inst prevSol -> 2 <= k prevSol ->
  Good inst
    (construct_greedy_from_previous inst (init inst (k prevSol - 1)) prevSol
       seed).
Proof.
  intros Hprev Hk2. pose proof (sg_n SG) as Hn.
  unfold construct_greedy_from_previous.
  set (s0 := clear_state (init inst (k prevSol - 1))).
  assert (E0n : n s0 = inst_n inst) by reflexivity.
  assert (E0k : k s0 = k prevSol - 1).
  { unfold s0, clear_state, init. sm_simpl.
    destruct (Z.eqb_spec (k prevSol - 1) (-1)); lia. }
  rewrite E0n, E0k.
  pose proof (@shuffle_perm RE (range (k prevSol)) (mt19937 seed)) as Hperm.
  destruct (shuffle (range (k prevSol)) (mt19937 seed)) as [perm g1].
  cbn [fst] in Hperm.
  set (removed_color := vget 0 perm (k prevSol - 1)).
  set (color_map := fold_left _ (range (k prevSol - 1)) _).
  pose proof (@transfer_all inst SG prevSol perm Hprev Hk2 Hperm
                removed_color color_map eq_refl eq_refl) as HT.
  unfold warm_base in HT. fold s0 in HT.
  destruct (fold_left (transfer_vertex prevSol removed_color color_map)
              (range (inst_n inst)) (s0, [])) as [s1 unc].
  destruct (transferred_base Hk2 HT) as (En&Ek&_&_&_&Efl&Ebg).
  destruct (transferred_ListInv SG Hk2 HT) as [HL1 Hz1].
  pose proof (@inherit_all inst SG prevSol removed_color s1 En HL1 Hz1) as HI.
  rewrite En in HI.
  set (s3 := fold_left (inherit_conflicts inst prevSol removed_color)
               (range (inst_n inst)) (set_obj s1 (obj prevSol))) in *.
  pose proof (@shuffle_perm RE unc g1) as Hord.
  destruct (shuffle unc g1) as [order g2]. cbn [fst] in Hord.
  pose proof (warm_GreedyInv SG Hprev Hk2 Hperm eq_refl eq_refl HT HI Hord)
    as HG.
  set (F := Z.quot (inst_n inst) (k prevSol - 1)) in *.
  set (R := inst_n inst - (k prevSol - 1) * F) in *.
  set (cr := countb _ (range (k prevSol - 1))) in *.
  assert (En3 : n s3 = inst_n inst) by (rewrite (ih_n HI); exact En).
  assert (Ek3 : k s3 = k prevSol - 1) by (rewrite (ih_k HI); exact Ek).
  pose proof (@greedy_fold RE inst SG class_zero F R order s3 cr g2) as Hfold.
  rewrite En3, Ek3 in Hfold.
  specialize (Hfold ltac:(lia) Hn eq_refl eq_refl HG).
  destruct (fold_left (greedy_place inst class_zero F R) order (s3, cr, g2))
    as [[s' cr'] g'].
  destruct Hfold as (HG'&E1&E2&E3&E4&E5). cbn [fst].
  apply GreedyInv_done with (F := F) (R := R) (cr := cr'); auto;
    try (rewrite E1, E2, En3, Ek3; auto); try lia.
  - rewrite E1, E2. reflexivity.
  - rewrite E3, (ih_floor HI). exact Efl.
  - rewrite E4, (ih_big HI). exact Ebg.
Qed.

End WarmStartGood.

(** * Reachable states *)

(** The states the solver goes through: the two constructions as the driver
    calls them (the first on [init inst K], the warm start on a manager
    initialised for one colour less than a reached state), [init_tabu], and
    the moves of the engine (a chosen candidate of the scanned pool, applied
    with its tabu entries, and one attempt of the perturbation loop). *)
Inductive reachable {RE : RandomEngine} (inst : Instance)
  : SolutionManager -> Prop :=
| reach_initial K seed :
    K = -1 \/ 1 <= K ->
    reachable inst (construct_greedy_initial inst (init inst K) seed)
| reach_warm prevSol seed :
    reachable inst prevSol -> 2 <= k prevSol ->
    reachable inst
      (construct_greedy_from_previous inst (init inst (k prevSol - 1))
         prevSol seed)
| reach_init_tabu s :
    reachable inst s -> reachable inst (init_tabu s)
| reach_move cfg L tenure chosen :
    reachable inst (st L) -> In chosen (snd (scan inst cfg L)) ->
    reachable inst (execute inst (st L) (iter L) tenure chosen)
| reach_perturb s g :
    reachable inst s -> 1 <= n s ->
    reachable inst (fst (perturb_attempt inst (s, g))).

Section Reachable.
Context {RE : RandomEngine}.
Variable inst : Instance.
Hypothesis SG : simple_graph inst.

(** Every reachable state satisfies the data model. *)
Lemma reachable_Good s : reachable inst s -> Good inst s.
Proof.
  induction 1 as [K seed HK|prevSol seed _ IH Hk|s _ IH
                 |cfg L tenure chosen _ IH Hin|s g _ IH Hn].
  - now apply construct_greedy_initial_Good.
  - now apply construct_greedy_from_previous_Good.
  - unfold init_tabu. now apply Good_set_tabu_matrix.
  - apply execute_Good; auto.
    pose proof (scan_admissible inst cfg L) as Hall.
    rewrite Forall_forall in Hall. now apply Hall.
  - now apply perturb_attempt_Good.
Qed.

Lemma perturb_attempts_reachable m : forall s g,
  reachable inst s -> 1 <= n s ->
  reachable inst (fst (Nat.iter m (perturb_attempt inst) (s, g)))
  /\ n (fst (Nat.iter m (perturb_attempt inst) (s, g))) = n s.
Proof.
  induction m as [|m IH]; intros s g Hr Hn; [simpl; auto|].
  rewrite Nat.iter_succ. destruct (IH s g Hr Hn) as [Hr1 En1].
  destruct (Nat.iter m (perturb_attempt inst) (s, g)) as [s1 g1].
  cbn [fst] in Hr1, En1.
  destruct (@perturb_attempt_Good RE inst SG s1 g1 (reachable_Good Hr1))
    as [_ En2]; [lia|].
  split; [apply reach_perturb; auto; lia|lia].
Qed.

(** The loop body leads from a reachable state to a reachable state. *)
Lemma iteration_reachable cfg is_time_up L L' :
  reachable inst (st L) ->
  iteration inst cfg is_time_up L = Continue L' ->
  reachable inst (st L').
Proof.
  intros Hr. unfold iteration.
  destruct ((Z.rem (iter L) 128 =? 0) && is_time_up (iter L));
    [discriminate|].
  destruct (perturbation_due cfg L).
  - assert (HP : reachable inst (fst (perturb inst cfg (st L) (rng L)))).
    { unfold perturb.
      pose proof (eq_n (good_equity (reachable_Good Hr))) as Hn.
      destruct (Z.eq_dec (n (st L)) 0) as [E|E].
      - rewrite E, perturbation_attempts_zero. exact Hr.
      - apply perturb_attempts_reachable; auto. lia. }
    destruct (perturb inst cfg (st L) (rng L)) as [s1 g1]. cbn [fst] in HP.
    intros E. injection E as <-. cbn [st]. now apply reach_init_tabu.
  - destruct (snd (scan inst cfg L)) as [|c0 cands] eqn:Escan;
      [discriminate|].
    pose proof (@uniform_int_range RE 0 (vsize (c0 :: cands) - 1) (rng L))
      as Hi.
    destruct (uniform_int 0 (vsize (c0 :: cands) - 1) (rng L)) as [i g1].
    cbn [fst] in Hi.
    destruct (uniform_int 0 (beta cfg) g1) as [d g2].
    assert (Hin : In (vget (mkCandidate (-1) (-1) (-1)) (c0 :: cands) i)
                    (snd (scan inst cfg L))).
    { rewrite Escan. apply vget_In.
      assert (0 <= i <= vsize (c0 :: cands) - 1); [|lia].
      apply Hi. unfold vsize. simpl length. lia. }
    destruct (_ <? _); intros E; injection E as <-; cbn [st];
      now apply reach_move with (cfg := cfg).
Qed.

Lemma tabu_loop_reachable cfg is_time_up result0 fuel : forall L out,
  reachable inst (st L) ->
  tabu_loop inst cfg is_time_up result0 fuel L = Some out ->
  reachable inst (final_state out).
Proof.
  induction fuel as [|fuel IH]; intros L out Hr; cbn [tabu_loop];
    destruct ((iter L <? max_iter cfg) && (obj (st L) >? 0));
    try discriminate;
    try (intros E; injection E as <-; exact Hr).
  destruct (iteration inst cfg is_time_up L) as [| |L'] eqn:E.
  - intros E'. injection E' as <-. exact Hr.
  - intros E'. injection E' as <-. exact Hr.
  - apply IH. now apply (iteration_reachable _ _ _ Hr E).
Qed.

(** [run_tabu_search] leaves a reachable state behind. *)
Lemma run_tabu_search_reachable cfg is_time_up seed s out :
  reachable inst s ->
  run_tabu_search inst cfg is_time_up seed s = Some out ->
  reachable inst (final_state out).
Proof.
  intros Hr. unfold run_tabu_search.
  destruct (obj s =? 0); [intros E; injection E as <-; exact Hr|].
  apply tabu_loop_reachable. cbn [st]. now apply reach_init_tabu.
Qed.

End Reachable.

(** * The objective of a state that satisfies the data model *)

Section Objective.
Variable inst : Instance.
Hypothesis SG : simple_graph inst.

Lemma Good_conflicts s v :
  Good inst s -> 0 <= v < n s ->
  vget 0 (conflicts s) v = same_color_nbrs inst s v.
Proof.
  intros HG Hv. rewrite (cs_conflicts (good_consistent HG)) by exact Hv.
  pose proof (good_colored HG Hv) as Hc.
  destruct (Z.eqb_spec (vget 0 (color s) v) (-1)); [lia|reflexivity].
Qed.

(** The sum that [recompute_objective_slow] halves. *)
Lemma Good_conflict_total s :
  Good inst s ->
  zsum (map (fun v =>
               countb (fun u => vget 0 (color s) v =? vget 0 (color s) u)
                 (adj_of inst v))
          (range (n s)))
  = 2 * obj s.
Proof.
  intros HG. pose proof (good_consistent HG) as HC.
  rewrite (cs_obj HC), <- (zsum_range (conflicts s)).
  rewrite (li_conflicts_size (cs_list HC)).
  apply zsum_map_ext. intros v Hv. apply In_range in Hv.
  rewrite (Good_conflicts HG Hv). unfold same_color_nbrs.
  apply countb_ext. intros u _. apply Z.eqb_sym.
Qed.

Lemma Good_recompute s :
  Good inst s -> obj s = recompute_objective_slow inst s.
Proof.
  intros HG. unfold recompute_objective_slow.
  rewrite (Good_conflict_total HG), Z.mul_comm, Z.quot_mul by lia.
  reflexivity.
Qed.

(** The objective counts the edges with both ends in one class. *)
Lemma Good_monochromatic s :
  Good inst s ->
  obj s
  = countb (fun e => vget 0 (color s) (fst e) =? vget 0 (color s) (snd e))
      (edges inst).
Proof.
  intros HG. pose proof (Good_conflict_total HG) as Ht.
  rewrite (cs_n (good_consistent HG)) in Ht.
  rewrite (sum_over_adj SG
             (fun v u => vget 0 (color s) v =? vget 0 (color s) u)) in Ht.
  rewrite (zsum_map_ext _
             (fun e => 2 * b2z (vget 0 (color s) (fst e)
                                =? vget 0 (color s) (snd e)))) in Ht.
  - rewrite zsum_map_scale in Ht. rewrite countb_as_b2z. lia.
  - intros e _.
    rewrite (Z.eqb_sym (vget 0 (color s) (snd e))). lia.
Qed.

End Objective.

Lemma triangle_simple : simple_graph triangle.
Proof.
  apply read_instance_simple_graph with (f := Some triangle_file);
    vm_compute; reflexivity.
Qed.

(** C1: on an instance without self-loops, every reachable state (one left
    by [construct_greedy_initial], by [construct_greedy_from_previous] called
    on a reachable state of one colour more, or by a transfer, a swap or a
    perturbation swap of the engine) has every class size equal to
    [floor_size] or [big_size], where [floor_size] is [n / k] and [big_size]
    one more, and exactly [n - k * (n / k)] classes of size [big_size]. *)
Theorem equity_holds_on_reachable_states {RE : RandomEngine} inst s :
  simple_graph inst -> reachable inst s ->
  floor_size s = Z.quot (n s) (k s)
  /\ big_size s = floor_size s + 1
  /\ (forall c, 0 <= c < k s ->
        vget 0 (classSize s) c = floor_size s
        \/ vget 0 (classSize s) c = big_size s)
  /\ countb (fun c => vget 0 (classSize s) c =? big_size s) (range (k s))
     = n s - k s * Z.quot (n s) (k s).
Proof.
  intros SG Hr. pose proof (good_equity (reachable_Good SG Hr)) as He.
  split; [apply (eq_floor He)|]. split; [apply (eq_big He)|].
  split; [apply (eq_classes He)|apply (eq_count He)].
Qed.

(** C2: on an instance without self-loops, every reachable state has [obj]
    equal to [recompute_objective_slow], which is the number of edges with
    both ends in one class, and [conflicts[v]] equal to the number of
    neighbours of [v] that carry the colour of [v]. *)
Theorem objective_matches_recomputation {RE : RandomEngine} inst s :
  simple_graph inst -> reachable inst s ->
  obj s = recompute_objective_slow inst s
  /\ obj s
     = countb (fun e => vget 0 (color s) (fst e) =? vget 0 (color s) (snd e))
         (edges inst)
  /\ forall v, 0 <= v < n s ->
       vget 0 (conflicts s) v = same_color_nbrs inst s v.
Proof.
  intros SG Hr. pose proof (reachable_Good SG Hr) as HG.
  split; [now apply Good_recompute|].
  split; [now apply Good_monochromatic|].
  intros v Hv. now apply Good_conflicts.
Qed.

(** ** C1 on the warm start of the triangle *)
Lemma triangle_start_reachable :
  reachable (RE := Scripted []) triangle triangle_start.
Proof.
  rewrite <- triangle_start_built.
  apply (@reach_warm (Scripted []) triangle
           (construct_greedy_initial (RE := Scripted []) triangle
              (init triangle (-1)) 0) 0).
  - apply reach_initial. now left.
  - vm_compute. discriminate.
Qed.

Lemma equity_holds_on_reachable_states_witness :
  floor_size triangle_start = Z.quot (n triangle_start) (k triangle_start)
  /\ big_size triangle_start = floor_size triangle_start + 1
  /\ (forall c, 0 <= c < k triangle_start ->
        vget 0 (classSize triangle_start) c = floor_size triangle_start
        \/ vget 0 (classSize triangle_start) c = big_size triangle_start)
  /\ countb (fun c => vget 0 (classSize triangle_start) c
                      =? big_size triangle_start)
       (range (k triangle_start))
     = n triangle_start
       - k triangle_start * Z.quot (n triangle_start) (k triangle_start).
Proof.
  apply (@equity_holds_on_reachable_states (Scripted []) triangle
           triangle_start).
  - apply triangle_simple.
  - apply triangle_start_reachable.
Defined.

(** ** C2 on the greedy start of the instance with one edge *)
Lemma one_edge_start_reachable :
  reachable (RE := Scripted [2; 2; 0; 0]) one_edge one_edge_start.
Proof.
  rewrite <- one_edge_start_built. apply reach_initial. now left.
Qed.

Lemma objective_matches_recomputation_witness :
  obj one_edge_start = recompute_objective_slow one_edge one_edge_start
  /\ obj one_edge_start
     = countb (fun e => vget 0 (color one_edge_start) (fst e)
                        =? vget 0 (color one_edge_start) (snd e))
         (edges one_edge)
  /\ forall v, 0 <= v < n one_edge_start ->
       vget 0 (conflicts one_edge_start) v
       = same_color_nbrs one_edge one_edge_start v.
Proof.
  apply (@objective_matches_recomputation (Scripted [2; 2; 0; 0]) one_edge
           one_edge_start).
  - apply one_edge_simple.
  - apply one_edge_start_reachable.
Defined.

(** ** C5 on a star and a path *)

(** Eight vertices: a star with centre 1 and leaves 4, 7, 8, the path
    2 - 3 - 6, and the isolated vertex 5 (numbered from 1, as in the file). *)
Definition star_path_file : InstanceFile :=
  mkFile (Some (8, 5)) [(2, 3); (3, 6); (1, 7); (1, 4); (1, 8)].

Definition star_path : Instance :=
  mkInstance 8 [(1, 2); (2, 5); (0, 6); (0, 3); (0, 7)]
    [[6; 3; 7]; [2]; [1; 5]; [0]; []; [2]; [0]; [0]]
    [3; 1; 2; 1; 0; 1; 1; 1] 3.

Lemma star_path_loaded : read_instance (Some star_path_file) = Done star_path.
Proof. vm_compute. reflexivity. Qed.

(** What [construct_greedy_initial] builds for [k = 2] when the shuffle
    yields the order 5, 2, 1, 3, 7, 0, 4, 6: the edge between 0 and 6 is the
    only conflict. *)
Definition star_path_start : SolutionManager :=
  mkSM 8 2 [1; 0; 1; 0; 1; 0; 1; 0] [4; 4] [1; 0; 0; 0; 0; 0; 1; 0] [6; 0]
    [1; -1; -1; -1; -1; -1; 0; -1] 1 4 5 [].

Lemma star_path_start_built :
  construct_greedy_initial (RE := Scripted [5; 2; 1; 1; 3; 0; 0; 0; 0])
    star_path (init star_path 2) 0
  = star_path_start.
Proof. vm_compute. reflexivity. Qed.

(** The defaults, with [--aspiration 0]. *)
Definition strict_config : TabuConfig :=
  mkTabuConfig 1000000 (6 # 10) 10 1000 (16 # 100) 0.

(** The loop state at the entry of the [while] loop. *)
Definition star_path_loop : LoopState (RE := Scripted [1; 9; 0; 2; 0; 4]) :=
  mkLoop (RE := Scripted [1; 9; 0; 2; 0; 4]) (init_tabu star_path_start)
    [1; 9; 0; 2; 0; 4] 1 0 0.

(** C5 does not hold of the code: the swap test never reads
    [config.aspiration].  With aspiration switched off, the run below swaps
    6 and 3 (tenure 10), then 0 and 7, and reaches its third iteration with
    objective 1, best objective 1, and the swap of 6 and 4 tabu, since
    vertex 6 may not return to class 1 before iteration 10.  That swap would
    bring the objective to 0, so the code admits it; it is the only
    candidate of the pool, it is applied, and the call reports a solution
    after 3 iterations. *)
Theorem tabu_swap_passes_with_aspiration_off :
  exists L1 L2 out,
    aspiration strict_config = 0
    /\ iteration (RE := Scripted [1; 9; 0; 2; 0; 4]) star_path strict_config
         (fun _ => false) star_path_loop
       = Continue L1
    /\ iteration (RE := Scripted [1; 9; 0; 2; 0; 4]) star_path strict_config
         (fun _ => false) L1
       = Continue L2
    /\ iter L2 = 2
    /\ swap_is_tabu (st L2) (iter L2) 6 4 = true
    /\ obj (st L2) + get_swap_delta star_path (st L2) 6 4
       < best_obj_found L2
    /\ snd (scan star_path strict_config L2) = [mkCandidate 1 6 4]
    /\ run_tabu_search (RE := Scripted [1; 9; 0; 2; 0; 4]) star_path
         strict_config (fun _ => false) 0 star_path_start
       = Some out
    /\ result out = mkResult true 3 0.
Proof.
  eexists. eexists. eexists.
  split; [reflexivity|].
  split; [vm_compute; reflexivity|].
  split; [vm_compute; reflexivity|].
  vm_compute. repeat split.
Qed.

(** ** Why the theorems ask for an instance without self-loops *)

(** The history of two runs.  On the instance of C5 the three applied moves
    leave the objectives 1, 1 and 0, and the call reports [final_obj = 0]
    after 3 iterations.  On the instance of C4 the only turn is a
    perturbation: it leaves the objective 0, nothing is compared, and the
    call reports the objective on entry. *)
Example history_of_two_runs :
  evaluated_objectives strict_config
    (run_states (RE := Scripted [1; 9; 0; 2; 0; 4]) star_path strict_config
       (fun _ => false) 0 star_path_start) = [1; 1; 0]
  /\ option_map result
       (run_tabu_search (RE := Scripted [1; 9; 0; 2; 0; 4]) star_path
          strict_config (fun _ => false) 0 star_path_start)
     = Some (mkResult true 3 0)
  /\ evaluated_objectives restless_config
       (run_states (RE := Scripted [1; 2]) one_edge restless_config
          (fun _ => false) 0 one_edge_start) = []
  /\ map (fun L => obj (st L))
       (run_states (RE := Scripted [1; 2]) one_edge restless_config
          (fun _ => false) 0 one_edge_start) = [1; 0]
  /\ option_map result
       (run_tabu_search (RE := Scripted [1; 2]) one_edge restless_config
          (fun _ => false) 0 one_edge_start)
     = Some (mkResult false 1 1).
Proof. vm_compute. repeat split. Qed.

(** One vertex with a loop: the loader accepts the file, and the greedy
    construction counts the loop twice in [obj] and four times in
    [conflicts], while [recompute_objective_slow] finds 1 and the vertex
    never enters [conflictingVertices]. *)
Definition loop_file : InstanceFile := mkFile (Some (1, 1)) [(1, 1)].

Definition loop_instance : Instance := mkInstance 1 [(0, 0)] [[0; 0]] [2] 2.

Example self_loop_breaks_the_objective :
  read_instance (Some loop_file) = Done loop_instance
  /\ no_self_loops (edges loop_instance) = false
  /\ construct_greedy_initial (RE := Scripted []) loop_instance
       (init loop_instance (-1)) 0
     = mkSM 1 3 [0] [1; 0; 0] [4] [] [-1] 2 0 1 []
  /\ recompute_objective_slow loop_instance
       (construct_greedy_initial (RE := Scripted []) loop_instance
          (init loop_instance (-1)) 0)
     = 1.
Proof. vm_compute. repeat split. Qed.

(** * Further properties of the code *)

(** ** Degrees of a loaded instance *)

(** What the loop of [build_adj] keeps of the degree data after [c] edges;
    [md0] is [max_degree] before the loop. *)
Record DegreeInv (md0 c : Z) (ins : Instance) : Prop := mkDegreeInv {
  di_adj : vsize (adj ins) = inst_n ins;
  di_size : vsize (degree ins) = inst_n ins;
  di_len : forall v, 0 <= v < inst_n ins ->
    vget 0 (degree ins) v = vsize (vget [] (adj ins) v);
  di_sum : zsum (degree ins) = 2 * c;
  di_le : forall v, 0 <= v < inst_n ins ->
    vget 0 (degree ins) v <= max_degree ins;
  di_max : max_degree ins = md0
           \/ exists v, 0 <= v < inst_n ins
                        /\ vget 0 (degree ins) v = max_degree ins }.

Lemma add_edge_DegreeInv md0 c i0 i1 e :
  DegreeInv md0 c i0 -> add_edge (Done i0) e = Done i1 ->
  DegreeInv md0 (c + 1) i1 /\ inst_n i1 = inst_n i0.
Proof.
  intros [Ha Hs Hl Hsum Hle Hmax]. unfold add_edge.
  destruct e as [a b]. cbn [fst snd].
  destruct (in_bounds (inst_n i0) a && in_bounds (inst_n i0) b) eqn:Eb;
    [|discriminate].
  apply andb_true_iff in Eb as [Hia Hib].
  apply in_bounds_spec in Hia, Hib.
  intros E. injection E as <-. split; [|reflexivity].
  set (deg1 := vset (degree i0) a (vget 0 (degree i0) a + 1)).
  set (deg2 := vset deg1 b (vget 0 deg1 b + 1)).
  assert (Hs1 : vsize deg1 = inst_n i0) by (unfold deg1; now rewrite vsize_vset).
  assert (Hd2 : forall v, 0 <= v < inst_n i0 ->
            vget 0 deg2 v
            = vget 0 (degree i0) v + b2z (a =? v) + b2z (b =? v)).
  { intros v Hv. unfold deg2, deg1, b2z.
    destruct (Z.eqb_spec b v) as [->|Hbv];
      destruct (Z.eqb_spec a v) as [->|Hav];
      repeat (rewrite ?vget_vset_same, ?vget_vset_other
                by (rewrite ?vsize_vset; auto; lia)); lia. }
  set (md1 := if vget 0 deg2 a >? max_degree i0
              then vget 0 deg2 a else max_degree i0).
  set (md2 := if vget 0 deg2 b >? md1 then vget 0 deg2 b else md1).
  assert (Hmd : max_degree i0 <= md2 /\ vget 0 deg2 a <= md2
                /\ vget 0 deg2 b <= md2
                /\ (md2 = max_degree i0 \/ md2 = vget 0 deg2 a
                    \/ md2 = vget 0 deg2 b)).
  { unfold md2, md1.
    destruct (Z.gtb_spec (vget 0 deg2 a) (max_degree i0));
      match goal with |- context [?x >? ?y] =>
        destruct (Z.gtb_spec x y) end; lia. }
  destruct Hmd as (M0 & Ma & Mb & Mc).
  constructor; cbn [inst_n adj degree max_degree].
  - now rewrite !vsize_vset.
  - unfold deg2. now rewrite vsize_vset.
  - intros v Hv. rewrite (Hd2 v Hv), (Hl v Hv). unfold b2z.
    destruct (Z.eqb_spec b v) as [->|Hbv];
      destruct (Z.eqb_spec a v) as [->|Hav];
      repeat (rewrite ?vget_vset_same, ?vget_vset_other
                by (rewrite ?vsize_vset; auto; lia));
      unfold vsize; rewrite ?length_app; simpl length; lia.
  - unfold deg2. rewrite zsum_vset by lia.
    unfold deg1 at 1. rewrite zsum_vset by lia. lia.
  - intros v Hv. rewrite (Hd2 v Hv). specialize (Hle v Hv).
    pose proof (Hd2 a Hia) as Ea. pose proof (Hd2 b Hib) as Eb.
    unfold b2z in *.
    destruct (Z.eqb_spec a v) as [->|Hav];
      destruct (Z.eqb_spec b v) as [->|Hbv];
      rewrite ?Z.eqb_refl in *;
      repeat match goal with
             | H : context [?x =? ?y] |- _ => destruct (Z.eqb_spec x y)
             end; lia.
  - destruct Mc as [E|[E|E]].
    + destruct Hmax as [E0|(v & Hv & Ev)]; [left; lia|].
      right. exists v. split; auto. rewrite (Hd2 v Hv). unfold b2z.
      pose proof (Hd2 a Hia) as Ea. pose proof (Hd2 b Hib) as Eb'.
      unfold b2z in *.
      destruct (Z.eqb_spec a v) as [->|Hav];
        destruct (Z.eqb_spec b v) as [->|Hbv];
        rewrite ?Z.eqb_refl in *;
        repeat match goal with
               | H : context [?x =? ?y] |- _ => destruct (Z.eqb_spec x y)
               end; lia.
    + right. exists a. split; auto.
    + right. exists b. split; auto.
Qed.

Lemma fold_add_edge_DegreeInv md0 es : forall c i0 i1,
  DegreeInv md0 c i0 ->
  fold_left add_edge es (Done i0) = Done i1 ->
  DegreeInv md0 (c + vsize es) i1.
Proof.
  induction es as [|e es IH]; intros c i0 i1 HD H.
  - simpl in H. injection H as <-. unfold vsize. simpl.
    now replace (c + 0) with c by lia.
  - cbn [fold_left] in H.
    destruct (add_edge (Done i0) e) as [i|  |] eqn:E.
    + destruct (@add_edge_DegreeInv md0 c i0 i e HD E) as [HD1 _].
      apply (IH _ _ _ HD1) in H.
      replace (c + vsize (e :: es)) with (c + 1 + vsize es);
        [exact H|unfold vsize; simpl length; lia].
    + rewrite fold_add_edge_Exit1 in H. discriminate.
    + rewrite fold_add_edge_Undefined in H. discriminate.
Qed.

Lemma fold_max_spec (l : list Z) : forall a m,
  a <= m -> Forall (fun x => x <= m) l -> (m = a \/ In m l) ->
  fold_left Z.max l a = m.
Proof.
  induction l as [|h t IH]; intros a m Ha Hall Hin.
  - simpl. destruct Hin as [E|[]]. now symmetry.
  - cbn [fold_left]. inversion Hall as [|x y Hh Ht]; subst.
    apply IH; auto; [lia|].
    destruct Hin as [->|[->|H]]; auto.
    + destruct (Z.eq_dec (Z.max a h) a); [now left|].
      assert (Z.max a h = h) by lia.
      assert (h <= a \/ a < h) as [|] by lia; lia.
    + left. lia.
Qed.

Lemma read_instance_DegreeInv f inst :
  read_instance f = Done inst -> DegreeInv 0 (vsize (edges inst)) inst.
Proof.
  intros H. pose proof H as H'. unfold read_instance in H.
  destruct f as [file|]; [|discriminate].
  destruct (header file) as [[n0 kpairs]|]; [|discriminate].
  destruct (kpairs <? 0); [discriminate|].
  destruct (Z.of_nat (length (body file)) <? kpairs); [discriminate|].
  pose proof (build_adj_spec _ H) as (_ & _ & He & _).
  unfold build_adj in H. cbn [inst_n edges max_degree] in H.
  destruct (Z.ltb_spec n0 0) as [|Hn]; [discriminate|].
  rewrite He. cbn [edges].
  apply (@fold_add_edge_DegreeInv 0 _ 0 _ _) in H; [exact H|].
  constructor; cbn [inst_n adj degree max_degree].
  - rewrite vsize_repeat; lia.
  - rewrite vsize_repeat; lia.
  - intros v Hv. rewrite !vget_repeat by lia. reflexivity.
  - rewrite zsum_repeat_zero. reflexivity.
  - intros v Hv. rewrite vget_repeat by lia. lia.
  - now left.
Qed.

(** For every instance that [read_instance] returns: [degree[v]] is the
    length of [adj[v]], the degrees add up to twice the number of edge lines
    kept (a repeated edge and a loop count as often as they are listed), and
    [max_degree] is the largest degree, or 0 when there is no vertex. *)
Theorem loaded_degrees f inst :
  read_instance f = Done inst ->
  vsize (degree inst) = inst_n inst
  /\ (forall v, 0 <= v < inst_n inst ->
        vget 0 (degree inst) v = vsize (vget [] (adj inst) v))
  /\ zsum (degree inst) = 2 * vsize (edges inst)
  /\ max_degree inst = fold_left Z.max (degree inst) 0.
Proof.
  intros H. destruct (@read_instance_DegreeInv f inst H) as [Ha Hs Hl Hsum Hle Hmax].
  split; [exact Hs|]. split; [exact Hl|]. split; [exact Hsum|].
  symmetry. apply fold_max_spec.
  - destruct Hmax as [->|(v & Hv & <-)]; [lia|].
    rewrite (Hl v Hv). apply vsize_nonneg.
  - apply Forall_vget. intros c Hc. apply Hle. lia.
  - destruct Hmax as [E|(v & Hv & E)]; [now left|].
    right. rewrite <- E. apply vget_In. lia.
Qed.

Lemma loaded_degrees_witness :
  vsize (degree star_path) = inst_n star_path
  /\ (forall v, 0 <= v < inst_n star_path ->
        vget 0 (degree star_path) v = vsize (vget [] (adj star_path) v))
  /\ zsum (degree star_path) = 2 * vsize (edges star_path)
  /\ max_degree star_path = fold_left Z.max (degree star_path) 0.
Proof.
  apply (@loaded_degrees (Some star_path_file) star_path).
  vm_compute. reflexivity.
Defined.


(** ** Adjacency lists of a loaded instance *)

Lemma In_nbrs_of_edges u v E :
  In u (nbrs_of v E) <->
  exists e, In e E /\ ((fst e = v /\ snd e = u) \/ (snd e = v /\ fst e = u)).
Proof.
  unfold nbrs_of. rewrite in_flat_map. split.
  - intros (e & He & Hu). exists e. split; auto.
    apply in_app_or in Hu as [Hu|Hu].
    + destruct (Z.eqb_spec (fst e) v); [|destruct Hu].
      destruct Hu as [<-|[]]. now left.
    + destruct (Z.eqb_spec (snd e) v); [|destruct Hu].
      destruct Hu as [<-|[]]. now right.
  - intros (e & He & [[E1 E2]|[E1 E2]]); exists e; split; auto;
      apply in_or_app; [left|right]; rewrite E1, Z.eqb_refl; now left.
Qed.

(** For every instance that [read_instance] returns, and all integers [u]
    and [v]: [u] stands in [adj[v]] exactly when an edge line joins the two,
    it stands there as often as [v] stands in [adj[u]], and every entry of a
    row is a vertex. *)
Theorem loaded_adjacency f inst :
  read_instance f = Done inst ->
  vsize (adj inst) = inst_n inst
  /\ forall u v,
       (In u (adj_of inst v) <->
        exists e, In e (edges inst)
                  /\ ((fst e = v /\ snd e = u) \/ (snd e = v /\ fst e = u)))
       /\ mult u (adj_of inst v) = mult v (adj_of inst u)
       /\ (In u (adj_of inst v) ->
           0 <= u < inst_n inst /\ 0 <= v < inst_n inst).
Proof.
  intros H. unfold read_instance in H.
  destruct f as [file|]; [|discriminate].
  destruct (header file) as [[n0 kpairs]|]; [|discriminate].
  destruct (kpairs <? 0); [discriminate|].
  destruct (Z.of_nat (length (body file)) <? kpairs); [discriminate|].
  pose proof (build_adj_spec _ H) as (Hn & _ & _ & Hs & Hr & Ha).
  split; [exact Hs|].
  assert (Hout : forall v, ~ 0 <= v < inst_n inst -> adj_of inst v = []).
  { intros v Hv. unfold adj_of. apply vget_out. rewrite Hs. lia. }
  assert (Hends : forall u v, In u (nbrs_of v (edges inst)) ->
            0 <= u < inst_n inst /\ 0 <= v < inst_n inst).
  { intros u v Hu. apply In_nbrs_of_edges in Hu as (e & He & Hc).
    destruct (Hr e He). destruct Hc as [[<- <-]|[<- <-]]; auto. }
  assert (Hadj : forall v, adj_of inst v = nbrs_of v (edges inst)).
  { intros v. destruct (Z_le_dec 0 v) as [H0|H0];
      [destruct (Z_lt_dec v (inst_n inst)) as [H1|H1]|].
    - apply Ha. lia.
    - rewrite Hout by lia.
      destruct (nbrs_of v (edges inst)) as [|x t] eqn:E; auto.
      destruct (Hends x v); [rewrite E; now left|lia].
    - rewrite Hout by lia.
      destruct (nbrs_of v (edges inst)) as [|x t] eqn:E; auto.
      destruct (Hends x v); [rewrite E; now left|lia]. }
  intros u v. rewrite !Hadj. split; [apply In_nbrs_of_edges|].
  split; [apply mult_nbrs_of_sym|apply Hends].
Qed.

Lemma loaded_adjacency_witness :
  vsize (adj star_path) = inst_n star_path
  /\ forall u v,
       (In u (adj_of star_path v) <->
        exists e, In e (edges star_path)
                  /\ ((fst e = v /\ snd e = u) \/ (snd e = v /\ fst e = u)))
       /\ mult u (adj_of star_path v) = mult v (adj_of star_path u)
       /\ (In u (adj_of star_path v) ->
           0 <= u < inst_n star_path /\ 0 <= v < inst_n star_path).
Proof.
  apply (@loaded_adjacency (Some star_path_file) star_path).
  vm_compute. reflexivity.
Defined.


(** ** The files that the loader accepts *)

(** The loader tests neither the number of pairs present nor the
    endpoints.  Its behaviour is defined and it returns an instance exactly
    for the files whose header can be read, has [n >= 0] and a pair count
    between 0 and the number of pairs present, and whose counted pairs have
    both ends in [1 .. n]; a repeated edge or a loop is no obstacle.  Its
    behaviour is undefined (an [int] read after a failed extraction, a
    vector indexed out of range) exactly when the header is read with a pair
    count that is not negative and the file holds fewer pairs than that, or
    [n >= 0] and a counted pair has an end outside [1 .. n]. *)
Theorem read_instance_accepts_iff (file : InstanceFile) :
  ((exists inst, read_instance (Some file) = Done inst)
   <->
   (exists n0 kpairs,
       header file = Some (n0, kpairs)
       /\ 0 <= n0
       /\ 0 <= kpairs <= Z.of_nat (length (body file))
       /\ forall e, In e (firstn (Z.to_nat kpairs) (body file)) ->
            1 <= fst e <= n0 /\ 1 <= snd e <= n0))
  /\ (read_instance (Some file) = Undefined
      <->
      (exists n0 kpairs,
          header file = Some (n0, kpairs)
          /\ 0 <= kpairs
          /\ (Z.of_nat (length (body file)) < kpairs
              \/ (0 <= n0
                  /\ exists e,
                       In e (firstn (Z.to_nat kpairs) (body file))
                       /\ ~ (1 <= fst e <= n0 /\ 1 <= snd e <= n0))))).
Proof.
  destruct (header file) as [[n0 kpairs]|] eqn:Eh.
  - destruct (@read_instance_outcome file n0 kpairs Eh)
      as [[E H]|[[[ins E] H]|[E H]]]; cbv zeta in *.
    + rewrite E. split; split.
      * intros [ins E']. discriminate.
      * intros (n1 & k1 & E' & H'). injection E' as <- <-. lia.
      * discriminate.
      * intros (n1 & k1 & E' & Hk & [H'|[H' _]]); injection E' as <- <-; lia.
    + rewrite E. split; split.
      * intros _. exists n0, kpairs. split; [reflexivity|exact H].
      * intros _. now exists ins.
      * discriminate.
      * intros (n1 & k1 & E' & Hk & [H'|(H' & e & He & Hout)]);
          injection E' as <- <-; [lia|].
        contradiction Hout. now apply H.
    + rewrite E. split; split.
      * intros [ins E']. discriminate.
      * intros (n1 & k1 & E' & Hn & Hk & Hall). injection E' as <- <-.
        destruct H as [_ [H|(_ & _ & e & He & Hout)]]; [lia|].
        contradiction Hout. now apply Hall.
      * intros _. exists n0, kpairs. split; [reflexivity|].
        destruct H as [Hk [H|(_ & Hn & H)]]; auto.
      * reflexivity.
  - unfold read_instance. rewrite Eh. split; split.
    + intros [ins E']. discriminate.
    + intros (n1 & k1 & E' & _). discriminate.
    + discriminate.
    + intros (n1 & k1 & E' & _). discriminate.
Qed.


(** ** The stand-alone recounts of [main.cpp] *)

(** [compute_conflicts]: the edges whose ends share a colour. *)
Definition compute_conflicts (inst : Instance) (color : list Z) : Z :=
  fold_left
    (fun conflicts e =>
       if vget 0 color (fst e) =? vget 0 color (snd e)
       then conflicts + 1 else conflicts)
    (edges inst) 0.

(** [color_sizes]; [std::vector<int> sz(K, 0)] throws for a negative [K]. *)
Definition color_sizes (color : list Z) (K : Z) : option (list Z) :=
  if K <? 0 then None
  else
    Some
      (fold_left
         (fun sz v =>
            let c := vget 0 color v in
            if (c >=? 0) && (c <? K) then vset sz c (vget 0 sz c + 1)
            else sz)
         (range (vsize color)) (repeat 0 (Z.to_nat K))).

Lemma compute_conflicts_fold (q : Z * Z -> bool) l : forall a,
  fold_left (fun c e => if q e then c + 1 else c) l a = a + countb q l.
Proof.
  induction l as [|e l IH]; intros a.
  - rewrite countb_nil. simpl. lia.
  - cbn [fold_left]. rewrite IH, countb_cons. cbv beta.
    destruct (q e); lia.
Qed.

Lemma color_sizes_counts (color : list Z) K sz :
  color_sizes color K = Some sz ->
  0 <= K /\ vsize sz = K
  /\ forall c, 0 <= c < K -> vget 0 sz c = countb (fun x => x =? c) color.
Proof.
  unfold color_sizes. destruct (Z.ltb_spec K 0) as [|HK]; [discriminate|].
  intros E. injection E as <-. split; [exact HK|].
  assert (H : vsize (fold_left
                 (fun sz v =>
                    let c := vget 0 color v in
                    if (c >=? 0) && (c <? K) then vset sz c (vget 0 sz c + 1)
                    else sz)
                 (range (vsize color)) (repeat 0 (Z.to_nat K))) = K
              /\ forall c, 0 <= c < K ->
                   vget 0 (fold_left
                     (fun sz v =>
                        let c := vget 0 color v in
                        if (c >=? 0) && (c <? K)
                        then vset sz c (vget 0 sz c + 1) else sz)
                     (range (vsize color)) (repeat 0 (Z.to_nat K))) c
                   = countb (fun v => vget 0 color v =? c)
                       (range (vsize color))).
  { apply (fold_range_ind
             (fun m sz => vsize sz = K
                /\ forall c, 0 <= c < K ->
                     vget 0 sz c
                     = countb (fun v => vget 0 color v =? c) (range m))).
    - apply vsize_nonneg.
    - split; [rewrite vsize_repeat; lia|].
      intros c Hc. rewrite vget_repeat by lia. reflexivity.
    - intros m sz Hm [Hsz Hcnt]. cbv zeta.
      destruct (Z.geb_spec (vget 0 color m) 0) as [H0|H0];
        destruct (Z.ltb_spec (vget 0 color m) K) as [H1|H1]; cbn [andb];
        (split; [rewrite ?vsize_vset; exact Hsz|]);
        intros c Hc; rewrite countb_range_succ by lia; unfold b2z.
      + destruct (Z.eqb_spec (vget 0 color m) c) as [->|Hne].
        * rewrite vget_vset_same by lia. rewrite Hcnt by lia. reflexivity.
        * rewrite vget_vset_other by auto. rewrite Hcnt by lia. lia.
      + destruct (Z.eqb_spec (vget 0 color m) c); [lia|].
        rewrite Hcnt by lia. lia.
      + destruct (Z.eqb_spec (vget 0 color m) c); [lia|].
        rewrite Hcnt by lia. lia.
      + destruct (Z.eqb_spec (vget 0 color m) c); [lia|].
        rewrite Hcnt by lia. lia. }
  cbv zeta in H. destruct H as [Hsz Hcnt]. split; [exact Hsz|].
  intros c Hc. rewrite (Hcnt c Hc).
  apply (countb_range (fun x => x =? c)).
Qed.

Lemma color_sizes_total (color : list Z) K sz :
  color_sizes color K = Some sz ->
  zsum sz = countb (fun x => (x >=? 0) && (x <? K)) color.
Proof.
  unfold color_sizes. destruct (Z.ltb_spec K 0) as [|HK]; [discriminate|].
  intros E. injection E as <-.
  rewrite <- (countb_range (fun x => (x >=? 0) && (x <? K))).
  apply (fold_range_ind
           (fun m sz => vsize sz = K
              /\ zsum sz
                 = countb (fun v => (vget 0 color v >=? 0)
                                    && (vget 0 color v <? K)) (range m))).
  - apply vsize_nonneg.
  - split; [rewrite vsize_repeat; lia|]. now rewrite zsum_repeat_zero.
  - intros m sz Hm [Hsz Hsum]. cbv zeta.
    rewrite countb_range_succ by lia. unfold b2z.
    destruct (Z.geb_spec (vget 0 color m) 0) as [H0|H0];
      destruct (Z.ltb_spec (vget 0 color m) K) as [H1|H1]; cbn [andb];
      (split; [rewrite ?vsize_vset; exact Hsz|]); try lia.
    rewrite zsum_vset by lia. lia.
Qed.

(** [color_sizes] throws for a negative [K]; otherwise it returns [K]
    counters, the counter of [c] holds the number of vertices of colour [c],
    and a colour outside [0 .. K-1] (an uncoloured vertex, say) is counted
    nowhere. *)
Theorem color_sizes_spec (color : list Z) (K : Z) :
  match color_sizes color K with
  | None => K < 0
  | Some sz =>
      0 <= K /\ vsize sz = K
      /\ (forall c, 0 <= c < K ->
            vget 0 sz c = countb (fun x => x =? c) color)
      /\ zsum sz = countb (fun x => (x >=? 0) && (x <? K)) color
  end.
Proof.
  destruct (color_sizes color K) as [sz|] eqn:E.
  - destruct (color_sizes_counts _ _ E) as (H1 & H2 & H3).
    split; [exact H1|]. split; [exact H2|]. split; [exact H3|].
    now apply color_sizes_total.
  - unfold color_sizes in E. destruct (Z.ltb_spec K 0); [lia|discriminate].
Qed.

Section Recounts.
Context {RE : RandomEngine}.
Variable inst : Instance.
Hypothesis SG : simple_graph inst.

Lemma countb_list_range (color : list Z) c :
  countb (fun x => x =? c) color
  = countb (fun v => vget 0 color v =? c) (range (vsize color)).
Proof. symmetry. apply (countb_range (fun x => x =? c)). Qed.

Lemma Good_color_sizes s :
  Good inst s -> color_sizes (color s) (k s) = Some (classSize s).
Proof.
  intros HG. pose proof (eq_k (good_equity HG)) as Hk.
  destruct (color_sizes (color s) (k s)) as [sz|] eqn:E.
  2:{ unfold color_sizes in E.
      destruct (Z.ltb_spec (k s) 0); [lia|discriminate]. }
  destruct (color_sizes_counts _ _ E) as (_ & Hsz & Hcnt).
  destruct (good_sizes HG) as [Hcs Hm]. f_equal.
  apply vget_ext; [congruence|].
  intros c Hc. rewrite Hsz in Hc. rewrite (Hcnt c Hc), (Hm c Hc).
  rewrite countb_list_range.
  now rewrite (cs_color_size (good_consistent HG)).
Qed.

End Recounts.

(** On an instance without self-loops, the stand-alone recount
    [compute_conflicts] of the colour vector of a reachable state returns
    its [obj]. *)
Theorem compute_conflicts_is_obj {RE : RandomEngine} inst s :
  simple_graph inst -> reachable inst s ->
  compute_conflicts inst (color s) = obj s.
Proof.
  intros SG Hr. unfold compute_conflicts.
  rewrite (compute_conflicts_fold
             (fun e => vget 0 (color s) (fst e) =? vget 0 (color s) (snd e))).
  rewrite (Good_monochromatic SG (reachable_Good SG Hr)). lia.
Qed.

Lemma compute_conflicts_is_obj_witness :
  compute_conflicts star_path (color star_path_start) = obj star_path_start.
Proof.
  apply (@compute_conflicts_is_obj (Scripted [5; 2; 1; 1; 3; 0; 0; 0; 0])
           star_path star_path_start).
  - apply read_instance_simple_graph with (f := Some star_path_file);
      vm_compute; reflexivity.
  - rewrite <- star_path_start_built. apply reach_initial. now right.
Defined.

(** On an instance without self-loops, [color_sizes] of the colour vector of
    a reachable state and its [k] returns its [classSize]. *)
Theorem color_sizes_is_classSize {RE : RandomEngine} inst s :
  simple_graph inst -> reachable inst s ->
  color_sizes (color s) (k s) = Some (classSize s).
Proof.
  intros SG Hr. apply Good_color_sizes with (inst := inst).
  now apply reachable_Good.
Qed.

Lemma color_sizes_is_classSize_witness :
  color_sizes (color triangle_start) (k triangle_start)
  = Some (classSize triangle_start).
Proof.
  apply (@color_sizes_is_classSize (Scripted []) triangle triangle_start).
  - apply triangle_simple.
  - apply triangle_start_reachable.
Defined.


(** ** [validate_consistency] *)

(** The first loop of [validate_consistency]: [None] stands for its
    [return false] on a colour outside [0 .. k-1]. *)
Definition count_classes (s : SolutionManager) : option (list Z) :=
  fold_left
    (fun acc v =>
       match acc with
       | None => None
       | Some cs =>
           let c := vget 0 (color s) v in
           if (c <? 0) || (c >=? k s) then None
           else Some (vset cs c (vget 0 cs c + 1))
       end)
    (range (n s)) (Some (repeat 0 (Z.to_nat (k s)))).

(** The second loop: every [conflicts[v]] against a recount. *)
Definition conflicts_recounted (inst : Instance) (s : SolutionManager)
  : bool :=
  forallb
    (fun v =>
       countb (fun u => vget 0 (color s) u =? vget 0 (color s) v)
         (adj_of inst v)
       =? vget 0 (conflicts s) v)
    (range (n s)).

(** [mark] after the loop over [conflictingVertices]. *)
Definition mark_conflicting (s : SolutionManager) : list Z :=
  fold_left (fun mark v => vset mark v 1) (conflictingVertices s)
    (repeat 0 (Z.to_nat (n s))).

(** [validate_consistency]; each [if] is one of its [return false]. *)
Definition validate_consistency (inst : Instance) (s : SolutionManager)
  : bool :=
  match count_classes s with
  | None => false
  | Some cs =>
      if negb (if list_eq_dec Z.eq_dec cs (classSize s) then true else false)
      then false
      else if negb (conflicts_recounted inst s) then false
      else if negb (obj s =? recompute_objective_slow inst s) then false
      else if existsb (fun v => vget 0 (conflictingIndex s) v =? -1)
                (conflictingVertices s)
      then false
      else
        forallb
          (fun v =>
             negb ((vget 0 (conflicts s) v >? 0)
                   && (vget 0 (mark_conflicting s) v =? 0))
             && negb ((vget 0 (conflicts s) v =? 0)
                      && (vget 0 (mark_conflicting s) v =? 1)))
          (range (n s))
  end.

Lemma range_max m : range (Z.max 0 m) = range m.
Proof. unfold range. f_equal. f_equal. lia. Qed.

Lemma count_classes_Some s cs :
  count_classes s = Some cs ->
  (forall v, 0 <= v < n s -> 0 <= vget 0 (color s) v < k s)
  /\ vsize cs = Z.max 0 (k s)
  /\ forall c, 0 <= c < k s ->
       vget 0 cs c
       = countb (fun v => vget 0 (color s) v =? c) (range (n s)).
Proof.
  unfold count_classes. rewrite <- (range_max (n s)). intros E.
  assert (H : forall cs0,
            fold_left
              (fun acc v =>
                 match acc with
                 | None => None
                 | Some cs =>
                     let c := vget 0 (color s) v in
                     if (c <? 0) || (c >=? k s) then None
                     else Some (vset cs c (vget 0 cs c + 1))
                 end)
              (range (Z.max 0 (n s))) (Some (repeat 0 (Z.to_nat (k s))))
            = Some cs0 ->
            (forall v, 0 <= v < Z.max 0 (n s) ->
               0 <= vget 0 (color s) v < k s)
            /\ vsize cs0 = Z.max 0 (k s)
            /\ forall c, 0 <= c < k s ->
                 vget 0 cs0 c
                 = countb (fun v => vget 0 (color s) v =? c)
                     (range (Z.max 0 (n s)))).
  2:{ destruct (H cs E) as (H1 & H2 & H3).
      split; [intros v Hv; apply H1; lia|]. split; assumption. }
  clear E cs.
  apply (fold_range_ind
           (fun m acc => forall cs, acc = Some cs ->
              (forall v, 0 <= v < m -> 0 <= vget 0 (color s) v < k s)
              /\ vsize cs = Z.max 0 (k s)
              /\ forall c, 0 <= c < k s ->
                   vget 0 cs c
                   = countb (fun v => vget 0 (color s) v =? c) (range m)));
    [lia| |].
  - intros cs E. injection E as <-. split; [intros v Hv; lia|].
    split; [rewrite vsize_repeat; lia|].
    intros c Hc. rewrite vget_repeat by lia. reflexivity.
  - intros m acc Hm IH cs E. destruct acc as [cs0|]; [|discriminate].
    destruct (IH cs0 eq_refl) as (Hr & Hsz & Hcnt). cbv zeta in E.
    destruct (Z.ltb_spec (vget 0 (color s) m) 0) as [H0|H0];
      [discriminate|].
    destruct (Z.geb_spec (vget 0 (color s) m) (k s)) as [H1|H1];
      [discriminate|].
    cbn [orb] in E. injection E as <-.
    split; [|split].
    + intros v Hv. destruct (Z.eq_dec v m) as [->|]; [lia|apply Hr; lia].
    + now rewrite vsize_vset.
    + intros c Hc. rewrite countb_range_succ by lia. unfold b2z.
      destruct (Z.eqb_spec (vget 0 (color s) m) c) as [->|Hne].
      * rewrite vget_vset_same by lia. rewrite Hcnt by lia. reflexivity.
      * rewrite vget_vset_other by auto. rewrite Hcnt by lia. lia.
Qed.

Lemma count_classes_defined s :
  (forall v, 0 <= v < n s -> 0 <= vget 0 (color s) v < k s) ->
  exists cs, count_classes s = Some cs.
Proof.
  intros Hall. unfold count_classes. rewrite <- (range_max (n s)).
  apply (fold_range_ind (fun (m : Z) acc => exists cs, acc = Some cs));
    [lia|eauto|].
  intros m acc Hm [cs ->]. cbv zeta.
  destruct (Hall m ltac:(lia)) as [H0 H1].
  destruct (Z.ltb_spec (vget 0 (color s) m) 0); [lia|].
  destruct (Z.geb_spec (vget 0 (color s) m) (k s)); [lia|].
  cbn [orb]. eauto.
Qed.

Lemma mark_fold l : forall m0 v,
  0 <= v < vsize m0 ->
  vget 0 (fold_left (fun mark x => vset mark x 1) l m0) v
  = if in_dec Z.eq_dec v l then 1 else vget 0 m0 v.
Proof.
  induction l as [|x l IH]; intros m0 v Hv; [reflexivity|].
  cbn [fold_left]. rewrite IH by (now rewrite vsize_vset).
  destruct (in_dec Z.eq_dec v l) as [Hin|Hnin];
    destruct (in_dec Z.eq_dec v (x :: l)) as [Hin'|Hnin']; auto.
  - exfalso. apply Hnin'. now right.
  - destruct Hin' as [->|]; [|contradiction].
    now rewrite vget_vset_same.
  - rewrite vget_vset_other; auto. intros ->. apply Hnin'. now left.
Qed.

Lemma mark_conflicting_spec s v :
  0 <= v < n s ->
  vget 0 (mark_conflicting s) v
  = if in_dec Z.eq_dec v (conflictingVertices s) then 1 else 0.
Proof.
  intros Hv. unfold mark_conflicting.
  rewrite mark_fold by (rewrite vsize_repeat; lia).
  rewrite vget_repeat by lia. reflexivity.
Qed.


Section Validation.
Variable inst : Instance.
Hypothesis SG : simple_graph inst.

Lemma Good_validates s : Good inst s -> validate_consistency inst s = true.
Proof.
  intros HG. pose proof (good_consistent HG) as HC.
  pose proof (cs_list HC) as HL. pose proof (good_equity HG) as He.
  unfold validate_consistency.
  destruct (count_classes_defined s (good_colored HG)) as [cs Ecs].
  rewrite Ecs. destruct (count_classes_Some s Ecs) as (_ & Hsz & Hcnt).
  destruct (good_sizes HG) as [Hcs Hm].
  assert (E : cs = classSize s).
  { apply vget_ext; [pose proof (eq_k He); lia|].
    intros c Hc. rewrite Hcnt, Hm by (pose proof (eq_k He); lia).
    reflexivity. }
  destruct (list_eq_dec Z.eq_dec cs (classSize s)); [|contradiction].
  cbn [negb].
  assert (E1 : conflicts_recounted inst s = true).
  { unfold conflicts_recounted. apply forallb_forall. intros v Hv.
    apply In_range in Hv. apply Z.eqb_eq. symmetry.
    apply (Good_conflicts HG Hv). }
  rewrite E1. cbn [negb].
  rewrite <- (Good_recompute HG), Z.eqb_refl. cbn [negb].
  assert (E2 : existsb (fun v => vget 0 (conflictingIndex s) v =? -1)
                 (conflictingVertices s) = false).
  { destruct (existsb _ (conflictingVertices s)) eqn:Ex; auto.
    apply existsb_exists in Ex as (x & Hx & Ex). apply Z.eqb_eq in Ex.
    apply (In_vget 0) in Hx as (i & Hi & Ei).
    destruct (li_in HL Hi) as [_ Hidx]. rewrite Ei in Hidx. lia. }
  rewrite E2. apply forallb_forall. intros v Hv. apply In_range in Hv.
  rewrite (mark_conflicting_spec s Hv).
  pose proof (ListInv_In v HL) as Hiff.
  pose proof (Consistent_nonneg HC) as Hnn.
  assert (0 <= vget 0 (conflicts s) v) by (apply Hnn; exact Hv).
  destruct (in_dec Z.eq_dec v (conflictingVertices s)) as [Hin|Hnin].
  - apply Hiff in Hin as [_ Hpos].
    destruct (Z.gtb_spec (vget 0 (conflicts s) v) 0);
      destruct (Z.eqb_spec (vget 0 (conflicts s) v) 0); try lia;
      reflexivity.
  - destruct (Z.gtb_spec (vget 0 (conflicts s) v) 0) as [Hpos|];
      destruct (Z.eqb_spec (vget 0 (conflicts s) v) 0); try lia;
      try reflexivity.
    exfalso. apply Hnin, Hiff. split; [exact Hv|lia].
Qed.

End Validation.

(** On an instance without self-loops, [validate_consistency] returns
    [true] on every reachable state. *)
Theorem validate_consistency_accepts_reachable {RE : RandomEngine} inst s :
  simple_graph inst -> reachable inst s ->
  validate_consistency inst s = true.
Proof.
  intros SG Hr. apply Good_validates. now apply reachable_Good.
Qed.

Lemma validate_consistency_accepts_reachable_witness :
  validate_consistency triangle triangle_start = true.
Proof.
  apply (@validate_consistency_accepts_reachable (Scripted []) triangle
           triangle_start).
  - apply triangle_simple.
  - apply triangle_start_reachable.
Defined.

(** When [validate_consistency] returns [true], every vertex has a colour of
    [0 .. k-1], [classSize[c]] is the number of vertices of colour [c],
    [conflicts[v]] is the number of entries of [adj[v]] with the colour of
    [v], [obj] is [recompute_objective_slow()], and a vertex stands in
    [conflictingVertices] exactly when it has a conflict, with an index
    other than -1.  The class sizes are not compared with [floor_size] and
    [big_size], and the list is not searched for repetitions. *)
Theorem validate_consistency_sound inst s :
  validate_consistency inst s = true ->
  (forall v, 0 <= v < n s -> 0 <= vget 0 (color s) v < k s)
  /\ (forall c, 0 <= c < k s ->
        vget 0 (classSize s) c
        = countb (fun v => vget 0 (color s) v =? c) (range (n s)))
  /\ (forall v, 0 <= v < n s ->
        vget 0 (conflicts s) v = same_color_nbrs inst s v)
  /\ obj s = recompute_objective_slow inst s
  /\ (forall v, 0 <= v < n s ->
        (In v (conflictingVertices s) <-> vget 0 (conflicts s) v > 0))
  /\ (forall v, In v (conflictingVertices s) ->
        vget 0 (conflictingIndex s) v <> -1).
Proof.
  unfold validate_consistency.
  destruct (count_classes s) as [cs|] eqn:Ecs; [|discriminate].
  destruct (count_classes_Some s Ecs) as (Hcol & _ & Hcnt).
  destruct (list_eq_dec Z.eq_dec cs (classSize s)) as [<-|]; [|discriminate].
  cbn [negb].
  destruct (conflicts_recounted inst s) eqn:E1; [|discriminate]. cbn [negb].
  destruct (Z.eqb_spec (obj s) (recompute_objective_slow inst s)) as [E2|];
    [|discriminate]. cbn [negb].
  destruct (existsb _ (conflictingVertices s)) eqn:E3; [discriminate|].
  intros E4.
  assert (Hcf : forall v, 0 <= v < n s ->
            vget 0 (conflicts s) v = same_color_nbrs inst s v).
  { intros v Hv. unfold conflicts_recounted in E1.
    rewrite forallb_forall in E1. specialize (E1 v (proj2 (In_range _ _) Hv)).
    apply Z.eqb_eq in E1. symmetry. exact E1. }
  split; [exact Hcol|]. split; [exact Hcnt|]. split; [exact Hcf|].
  split; [exact E2|]. split.
  - intros v Hv. rewrite forallb_forall in E4.
    specialize (E4 v (proj2 (In_range _ _) Hv)).
    rewrite (mark_conflicting_spec s Hv) in E4.
    assert (0 <= vget 0 (conflicts s) v)
      by (rewrite (Hcf v Hv); apply countb_nonneg).
    destruct (in_dec Z.eq_dec v (conflictingVertices s)) as [Hin|Hnin];
      destruct (Z.gtb_spec (vget 0 (conflicts s) v) 0);
      destruct (Z.eqb_spec (vget 0 (conflicts s) v) 0);
      try discriminate; try lia; split; auto; try lia; contradiction.
  - intros v Hv Ev.
    assert (Ex : existsb (fun v => vget 0 (conflictingIndex s) v =? -1)
                   (conflictingVertices s) = true).
    { apply existsb_exists. exists v. split; auto. now apply Z.eqb_eq. }
    rewrite E3 in Ex. discriminate.
Qed.

Lemma validate_consistency_sound_witness :
  (forall v, 0 <= v < n one_edge_start ->
     0 <= vget 0 (color one_edge_start) v < k one_edge_start)
  /\ (forall c, 0 <= c < k one_edge_start ->
        vget 0 (classSize one_edge_start) c
        = countb (fun v => vget 0 (color one_edge_start) v =? c)
            (range (n one_edge_start)))
  /\ (forall v, 0 <= v < n one_edge_start ->
        vget 0 (conflicts one_edge_start) v
        = same_color_nbrs one_edge one_edge_start v)
  /\ obj one_edge_start = recompute_objective_slow one_edge one_edge_start
  /\ (forall v, 0 <= v < n one_edge_start ->
        (In v (conflictingVertices one_edge_start)
         <-> vget 0 (conflicts one_edge_start) v > 0))
  /\ (forall v, In v (conflictingVertices one_edge_start) ->
        vget 0 (conflictingIndex one_edge_start) v <> -1).
Proof.
  apply (@validate_consistency_sound one_edge one_edge_start).
  vm_compute. reflexivity.
Defined.


(** ** What a call of [run_tabu_search] guarantees *)

Section RunFacts.
Context {RE : RandomEngine}.
Variable inst : Instance.
Hypothesis SG : simple_graph inst.

Lemma apply_move_k s v c : k (apply_move inst s v c) = k s.
Proof. now destruct (apply_move_frame SG s v c) as (_&E&_). Qed.

Lemma execute_k s it tenure c : k (execute inst s it tenure c) = k s.
Proof.
  unfold execute, apply_swap_safe, tabu_write.
  destruct (cm_type c =? 0); sm_simpl; now rewrite ?apply_move_k.
Qed.

Lemma perturb_attempt_k acc :
  k (fst (perturb_attempt inst acc)) = k (fst acc).
Proof.
  destruct acc as [s g]. unfold perturb_attempt.
  destruct (uniform_int 0 (n s - 1) g) as [v1 g1].
  destruct (uniform_int 0 (n s - 1) g1) as [v2 g2].
  destruct (_ && _); cbn [fst]; [|reflexivity].
  unfold apply_swap_safe. now rewrite !apply_move_k.
Qed.

Lemma perturb_k cfg s g : k (fst (perturb inst cfg s g)) = k s.
Proof.
  unfold perturb.
  induction (perturbation_attempts (n s) (perturbation_strength cfg))
    as [|m IH]; [reflexivity|].
  rewrite Nat.iter_succ, perturb_attempt_k. exact IH.
Qed.

Lemma iteration_k cfg is_time_up L L' :
  iteration inst cfg is_time_up L = Continue L' -> k (st L') = k (st L).
Proof.
  unfold iteration.
  destruct ((Z.rem (iter L) 128 =? 0) && is_time_up (iter L));
    [discriminate|].
  destruct (perturbation_due cfg L).
  - pose proof (perturb_k cfg (st L) (rng L)) as Hk.
    destruct (perturb inst cfg (st L) (rng L)) as [s1 g1].
    intros E. injection E as <-. cbn [st]. exact Hk.
  - destruct (snd (scan inst cfg L)) as [|c0 cands]; [discriminate|].
    destruct (uniform_int 0 (vsize (c0 :: cands) - 1) (rng L)) as [i g1].
    destruct (uniform_int 0 (beta cfg) g1) as [d g2].
    destruct (_ <? _); intros E; injection E as <-; cbn [st];
      apply execute_k.
Qed.

(** What the loop keeps of [best_obj_found]: it is the objective of some
    visited state, never above the objective at entry, and it is 0 only when
    the current objective is. *)
Record BestInv (entry : Z) (L : LoopState) : Prop := mkBestInv {
  bi_good : Good inst (st L);
  bi_le : best_obj_found L <= entry;
  bi_nonneg : 0 <= best_obj_found L;
  bi_zero : best_obj_found L = 0 -> obj (st L) = 0 }.

Lemma Good_obj_nonneg s : Good inst s -> 0 <= obj s.
Proof.
  intros HG. rewrite (Good_monochromatic SG HG). apply countb_nonneg.
Qed.

Lemma iteration_BestInv entry cfg is_time_up L L' :
  BestInv entry L -> obj (st L) > 0 ->
  iteration inst cfg is_time_up L = Continue L' ->
  BestInv entry L'.
Proof.
  intros [HG Hle Hnn Hz] Hpos E.
  pose proof (iteration_Good SG _ _ _ HG E) as HG'.
  assert (Hb : best_obj_found L <> 0) by (intros E0; apply Hz in E0; lia).
  revert E. unfold iteration.
  destruct ((Z.rem (iter L) 128 =? 0) && is_time_up (iter L));
    [discriminate|].
  destruct (perturbation_due cfg L).
  - destruct (perturb inst cfg (st L) (rng L)) as [s1 g1].
    intros E. injection E as <-. cbn [st] in HG'.
    constructor; cbn [st best_obj_found]; auto. intros E0. contradiction.
  - destruct (snd (scan inst cfg L)) as [|c0 cands]; [discriminate|].
    destruct (uniform_int 0 (vsize (c0 :: cands) - 1) (rng L)) as [i g1].
    destruct (uniform_int 0 (beta cfg) g1) as [d g2].
    match goal with |- context [if ?a <? ?b then _ else _] =>
      destruct (Z.ltb_spec a b) as [Hlt|Hge] end;
      intros E; injection E as <-; cbn [st] in HG';
      constructor; cbn [st best_obj_found]; auto; try lia;
      try (now apply Good_obj_nonneg); intros E0; contradiction.
Qed.

Lemma tabu_loop_facts entry cfg is_time_up result0 fuel : forall L out,
  BestInv entry L -> 0 <= iter L <= Z.max 0 (max_iter cfg) ->
  tabu_loop inst cfg is_time_up result0 fuel L = Some out ->
  Good inst (final_state out)
  /\ k (final_state out) = k (st L)
  /\ (result out = result0
      \/ (0 <= iterations (result out) <= Z.max 0 (max_iter cfg)
          /\ 0 <= final_obj (result out) <= entry
          /\ solved (result out) = (final_obj (result out) =? 0)
          /\ (solved (result out) = true -> obj (final_state out) = 0))).
Proof.
  induction fuel as [|fuel IH]; intros L out HB Hit; cbn [tabu_loop];
    rewrite Z.gtb_ltb;
    destruct (Z.ltb_spec (iter L) (max_iter cfg)) as [Hi|Hi];
    destruct (Z.ltb_spec 0 (obj (st L))) as [Ho|Ho]; cbn [andb];
    try discriminate.
  1-3,5-7:
    (intros E; injection E as <-; cbn; split; [apply (bi_good HB)|];
     split; [reflexivity|]; right;
     split; [lia|]; split; [split; [apply (bi_nonneg HB)|apply (bi_le HB)]|];
     split; [reflexivity|]; intros E0; apply Z.eqb_eq in E0;
     apply (bi_zero HB E0)).
  destruct (iteration inst cfg is_time_up L) as [| |L'] eqn:E.
  - intros E'. injection E' as <-. cbn.
    split; [apply (bi_good HB)|]. split; [reflexivity|]. now left.
  - intros E'. injection E' as <-. cbn.
    split; [apply (bi_good HB)|]. split; [reflexivity|]. right.
    split; [lia|]. split; [split; [apply (bi_nonneg HB)|apply (bi_le HB)]|].
    split; [reflexivity|]. intros E0. apply Z.eqb_eq in E0.
    apply (bi_zero HB E0).
  - intros E'. pose proof (iteration_iter _ _ _ _ E) as Ei.
    pose proof (iteration_k _ _ _ E) as Ek.
    apply IH in E';
      [|apply (@iteration_BestInv entry cfg is_time_up L L' HB ltac:(lia) E)
       |lia].
    rewrite Ek in E'. exact E'.
Qed.

End RunFacts.

Lemma countb_zero_all {A} (p : A -> bool) l :
  countb p l = 0 -> forall x, In x l -> p x = false.
Proof.
  induction l as [|h t IH]; intros E x Hx; [destruct Hx|].
  rewrite countb_cons in E. pose proof (countb_nonneg p t).
  destruct (p h) eqn:Eh; [lia|].
  destruct Hx as [<-|Hx]; [exact Eh|]. apply IH; [lia|exact Hx].
Qed.

Section RunTheorems.
Context {RE : RandomEngine}.
Variable inst : Instance.
Hypothesis SG : simple_graph inst.

Lemma run_tabu_search_facts cfg is_time_up seed s out :
  Good inst s ->
  run_tabu_search inst cfg is_time_up seed s = Some out ->
  Good inst (final_state out)
  /\ k (final_state out) = k s
  /\ 0 <= iterations (result out) <= Z.max 0 (max_iter cfg)
  /\ 0 <= final_obj (result out) <= obj s
  /\ (solved (result out) = true ->
      obj (final_state out) = 0 /\ final_obj (result out) = 0).
Proof.
  intros HG. pose proof (Good_obj_nonneg SG HG) as Hnn.
  unfold run_tabu_search.
  destruct (Z.eqb_spec (obj s) 0) as [E0|E0].
  - intros E. injection E as <-.
    cbn [final_state result iterations final_obj solved].
    split; [exact HG|]. split; [reflexivity|]. split; [lia|].
    split; [lia|]. intros _. split; [exact E0|exact E0].
  - intros E.
    apply (@tabu_loop_facts RE inst SG (obj s)) in E.
    + cbn [st init_tabu set_tabu_matrix k] in E.
      destruct E as (HG' & Ek & [->|(Hi & Hf & Es & Hs)]).
      * cbn [iterations final_obj solved].
        split; [exact HG'|]. split; [exact Ek|]. split; [lia|].
        split; [lia|]. discriminate.
      * split; [exact HG'|]. split; [exact Ek|]. split; [exact Hi|].
        split; [exact Hf|]. intros Hsol. split; [now apply Hs|].
        rewrite Es in Hsol. now apply Z.eqb_eq in Hsol.
    + constructor; cbn [st best_obj_found init_tabu set_tabu_matrix obj];
        auto; try lia.
      unfold init_tabu. now apply Good_set_tabu_matrix.
    + cbn [iter]. lia.
Qed.

End RunTheorems.

(** On an instance without self-loops, a call of [run_tabu_search] on a
    reachable state returns; it leaves a reachable state with the same [n]
    and [k]; the iteration count it reports lies between 0 and [max_iter],
    and the [final_obj] it reports between 0 and the objective at entry. *)
Theorem run_tabu_search_result_bounds {RE : RandomEngine} inst cfg
  (is_time_up : Z -> bool) seed s :
  simple_graph inst -> reachable inst s ->
  exists out,
    run_tabu_search inst cfg is_time_up seed s = Some out
    /\ reachable inst (final_state out)
    /\ n (final_state out) = n s /\ k (final_state out) = k s
    /\ 0 <= iterations (result out) <= Z.max 0 (max_iter cfg)
    /\ 0 <= final_obj (result out) <= obj s.
Proof.
  intros SG Hr.
  destruct (run_tabu_search_returns inst cfg is_time_up seed s) as [out E].
  exists out. split; [exact E|].
  pose proof (run_tabu_search_reachable SG _ _ _ Hr E) as Hr'.
  split; [exact Hr'|].
  destruct (run_tabu_search_facts SG _ _ _ (reachable_Good SG Hr) E)
    as (HG' & Ek & Hi & Hf & _).
  split; [|split; [exact Ek|split; assumption]].
  rewrite (cs_n (good_consistent HG')).
  now rewrite (cs_n (good_consistent (reachable_Good SG Hr))).
Qed.

(** On an instance without self-loops, when [run_tabu_search], called on a
    reachable state, reports [solved], the state it leaves is a proper
    equitable colouring with [k] colours: [obj] is 0, no edge has both ends
    in one class, every vertex has a colour of [0 .. k-1], and two class
    sizes differ by at most one. *)
Theorem solved_run_is_proper_equitable {RE : RandomEngine} inst cfg
  (is_time_up : Z -> bool) seed s out :
  simple_graph inst -> reachable inst s ->
  run_tabu_search inst cfg is_time_up seed s = Some out ->
  solved (result out) = true ->
  obj (final_state out) = 0
  /\ final_obj (result out) = 0
  /\ (forall e, In e (edges inst) ->
        vget 0 (color (final_state out)) (fst e)
        <> vget 0 (color (final_state out)) (snd e))
  /\ (forall v, 0 <= v < n (final_state out) ->
        0 <= vget 0 (color (final_state out)) v < k (final_state out))
  /\ (forall c c', 0 <= c < k (final_state out) ->
        0 <= c' < k (final_state out) ->
        -1 <= vget 0 (classSize (final_state out)) c
              - vget 0 (classSize (final_state out)) c' <= 1).
Proof.
  intros SG Hr E Hs.
  destruct (run_tabu_search_facts SG _ _ _ (reachable_Good SG Hr) E)
    as (HG' & _ & _ & _ & Hz).
  destruct (Hz Hs) as [Ho Ef].
  split; [exact Ho|]. split; [exact Ef|]. split; [|split].
  - intros e He Ec.
    pose proof (Good_monochromatic SG HG') as Em. rewrite Ho in Em.
    symmetry in Em.
    pose proof (countb_zero_all _ _ Em e He) as Hf. cbv beta in Hf.
    apply Z.eqb_neq in Hf. contradiction.
  - apply (good_colored HG').
  - intros c c' Hc Hc'. pose proof (good_equity HG') as He.
    pose proof (eq_big He) as Eb.
    destruct (eq_classes He Hc); destruct (eq_classes He Hc'); lia.
Qed.

Lemma star_path_simple : simple_graph star_path.
Proof.
  apply read_instance_simple_graph with (f := Some star_path_file);
    vm_compute; reflexivity.
Qed.

(** A scripted engine whose tape depends on the seed. *)
Definition SeededScript (tapes : Z -> list Z) : RandomEngine :=
  mkRandomEngine tapes scripted_draw scripted_shuffle
    scripted_draw_range scripted_shuffle_perm.

(** Seed 0 shuffles the vertices of the star and the path into the order
    5, 2, 1, 3, 7, 0, 4, 6; seed 1 makes the draws of the run of C5. *)
Definition star_path_tapes (seed : Z) : list Z :=
  if seed =? 0 then [5; 2; 1; 1; 3; 0; 0; 0; 0] else [1; 9; 0; 2; 0; 4].

Definition star_path_final : SolutionManager :=
  mkSM 8 2 [0; 0; 1; 1; 0; 0; 1; 1] [4; 4] [0; 0; 0; 0; 0; 0; 0; 0] []
    [-1; -1; -1; -1; -1; -1; -1; -1] 0 4 5
    [[0; 4]; [0; 0]; [0; 0]; [10; 0]; [0; 7]; [0; 0]; [7; 10]; [4; 0]].

Definition star_path_out : RunOutput :=
  mkOut LoopConditionFalse (mkResult true 3 0) star_path_final 3.

Lemma star_path_start_seeded :
  construct_greedy_initial (RE := SeededScript star_path_tapes) star_path
    (init star_path 2) 0
  = star_path_start.
Proof. vm_compute. reflexivity. Qed.

Lemma star_path_start_reachable :
  reachable (RE := SeededScript star_path_tapes) star_path star_path_start.
Proof.
  rewrite <- star_path_start_seeded. apply reach_initial. now right.
Qed.

Lemma star_path_run :
  run_tabu_search (RE := SeededScript star_path_tapes) star_path
    strict_config (fun _ => false) 1 star_path_start
  = Some star_path_out.
Proof. vm_compute. reflexivity. Qed.

Lemma run_tabu_search_result_bounds_witness :
  exists out,
    run_tabu_search (RE := SeededScript star_path_tapes) star_path
      strict_config (fun _ => false) 1 star_path_start
    = Some out
    /\ reachable (RE := SeededScript star_path_tapes) star_path
         (final_state out)
    /\ n (final_state out) = n star_path_start
    /\ k (final_state out) = k star_path_start
    /\ 0 <= iterations (result out) <= Z.max 0 (max_iter strict_config)
    /\ 0 <= final_obj (result out) <= obj star_path_start.
Proof.
  apply (@run_tabu_search_result_bounds (SeededScript star_path_tapes)
           star_path strict_config (fun _ => false) 1 star_path_start).
  - apply star_path_simple.
  - apply star_path_start_reachable.
Defined.

Lemma solved_run_is_proper_equitable_witness :
  obj (final_state star_path_out) = 0
  /\ final_obj (result star_path_out) = 0
  /\ (forall e, In e (edges star_path) ->
        vget 0 (color (final_state star_path_out)) (fst e)
        <> vget 0 (color (final_state star_path_out)) (snd e))
  /\ (forall v, 0 <= v < n (final_state star_path_out) ->
        0 <= vget 0 (color (final_state star_path_out)) v
        < k (final_state star_path_out))
  /\ (forall c c', 0 <= c < k (final_state star_path_out) ->
        0 <= c' < k (final_state star_path_out) ->
        -1 <= vget 0 (classSize (final_state star_path_out)) c
              - vget 0 (classSize (final_state star_path_out)) c' <= 1).
Proof.
  apply (@solved_run_is_proper_equitable (SeededScript star_path_tapes)
           star_path strict_config (fun _ => false) 1 star_path_start
           star_path_out).
  - apply star_path_simple.
  - apply star_path_start_reachable.
  - apply star_path_run.
  - reflexivity.
Defined.


(** ** Perturbation and class sizes *)

Section PerturbSizes.
Context {RE : RandomEngine}.
Variable inst : Instance.
Hypothesis SG : simple_graph inst.

Lemma perturb_attempt_classSize s g :
  Good inst s -> 1 <= n s ->
  classSize (fst (perturb_attempt inst (s, g))) = classSize s.
Proof.
  intros HG Hn. unfold perturb_attempt.
  pose proof (@uniform_int_range RE 0 (n s - 1) g ltac:(lia)) as H1.
  destruct (uniform_int 0 (n s - 1) g) as [v1 g1]. cbn [fst] in H1.
  pose proof (@uniform_int_range RE 0 (n s - 1) g1 ltac:(lia)) as H2.
  destruct (uniform_int 0 (n s - 1) g1) as [v2 g2]. cbn [fst] in H2.
  destruct (Z.eqb_spec v1 v2) as [|Hne]; cbn [negb andb fst]; [reflexivity|].
  destruct (Z.eqb_spec (vget 0 (color s) v1) (vget 0 (color s) v2))
    as [|Hc]; cbn [negb fst]; [reflexivity|].
  destruct (good_sizes HG) as [Hsz _].
  apply (apply_swap_safe_classSize SG); auto; rewrite Hsz;
    apply (good_colored HG); lia.
Qed.

Lemma perturb_attempts_classSize m : forall s g,
  Good inst s -> 1 <= n s ->
  classSize (fst (Nat.iter m (perturb_attempt inst) (s, g))) = classSize s.
Proof.
  induction m as [|m IH]; intros s g HG Hn; [reflexivity|].
  rewrite Nat.iter_succ.
  destruct (perturb_attempts_Good SG m g HG Hn) as [HG1 En1].
  specialize (IH s g HG Hn).
  destruct (Nat.iter m (perturb_attempt inst) (s, g)) as [s1 g1].
  cbn [fst] in *. rewrite perturb_attempt_classSize by (auto; lia).
  exact IH.
Qed.

End PerturbSizes.

(** On an instance without self-loops, the perturbation of a reachable state
    leaves [classSize] as it is, entry by entry (its swaps exchange the
    colours of two vertices), and leaves a reachable state. *)
Theorem perturbation_keeps_class_sizes {RE : RandomEngine} inst cfg s g :
  simple_graph inst -> reachable inst s ->
  classSize (fst (perturb inst cfg s g)) = classSize s
  /\ reachable inst (fst (perturb inst cfg s g)).
Proof.
  intros SG Hr. pose proof (reachable_Good SG Hr) as HG. unfold perturb.
  pose proof (eq_n (good_equity HG)) as Hn.
  destruct (Z.eq_dec (n s) 0) as [E|E].
  - rewrite E, perturbation_attempts_zero. split; [reflexivity|exact Hr].
  - split.
    + apply perturb_attempts_classSize; auto. lia.
    + apply perturb_attempts_reachable; auto. lia.
Qed.

Lemma perturbation_keeps_class_sizes_witness :
  classSize
    (fst (perturb (RE := Scripted []) triangle eager_config triangle_start []))
  = classSize triangle_start
  /\ reachable (RE := Scripted []) triangle
       (fst (perturb (RE := Scripted []) triangle eager_config triangle_start
               [])).
Proof.
  apply (@perturbation_keeps_class_sizes (Scripted []) triangle eager_config
           triangle_start []).
  - apply triangle_simple.
  - apply triangle_start_reachable.
Defined.

(** ** Symmetry of the swap evaluation *)

Section SwapSymmetry.
Variable inst : Instance.

(** [get_swap_delta] gives the same value for a pair in either order,
    whatever the state and the graph. *)
Theorem get_swap_delta_symmetric s v u :
  get_swap_delta inst s v u = get_swap_delta inst s u v.
Proof.
  unfold get_swap_delta.
  destruct (Z.eqb_spec (vget 0 (color s) v) (vget 0 (color s) u)) as [E|Hne].
  - rewrite E, Z.eqb_refl. reflexivity.
  - destruct (Z.eqb_spec (vget 0 (color s) u) (vget 0 (color s) v));
      [congruence|].
    rewrite !(swap_delta_fold (fun w => vget 0 (color s) w)) by auto.
    lia.
Qed.

End SwapSymmetry.


(** ** What the neighbourhood scan selects *)

Lemma fold_left_flat_map {A B C} (f : A -> C -> A) (g : B -> list C) l :
  forall a,
  fold_left f (flat_map g l) a
  = fold_left (fun a x => fold_left f (g x) a) l a.
Proof.
  induction l as [|x l IH]; intros a; [reflexivity|].
  cbn [flat_map fold_left]. rewrite fold_left_app. apply IH.
Qed.

Lemma fold_left_pointwise {A B} (f h : A -> B -> A) l :
  (forall a x, f a x = h a x) ->
  forall a, fold_left f l a = fold_left h l a.
Proof.
  intros E. induction l as [|x l IH]; intros a; [reflexivity|].
  cbn [fold_left]. rewrite E. apply IH.
Qed.

(** One candidate with its delta, as the scan hands it to [offer]. *)
Definition offer_pair (pool : Z * list CandidateMove)
  (x : Z * CandidateMove) : Z * list CandidateMove :=
  offer (fst x) (snd x) pool.

(** A sequence of offers leaves the least delta and, in order, the candidates
    that have it. *)
Lemma offers_fold l : forall bd cs,
  fold_left offer_pair l (bd, cs)
  = (fold_left Z.min (map fst l) bd,
     (if bd =? fold_left Z.min (map fst l) bd then cs else [])
     ++ map snd
          (filter (fun x => fst x =? fold_left Z.min (map fst l) bd) l)).
Proof.
  assert (Hmin : forall (l : list Z) a, fold_left Z.min l a <= a).
  { intros l0. induction l0 as [|h t IH]; intros a; [simpl; lia|].
    cbn [fold_left]. specialize (IH (Z.min a h)). lia. }
  induction l as [|[d c] l IH]; intros bd cs.
  - cbn [fold_left map filter]. rewrite Z.eqb_refl, app_nil_r. reflexivity.
  - cbn [fold_left map filter fst snd]. unfold offer_pair at 2.
    cbn [fst snd]. unfold offer.
    destruct (Z.ltb_spec d bd) as [Hlt|Hge].
    + rewrite IH, (Z.min_r bd d) by lia.
      pose proof (Hmin (map fst l) d) as Hm.
      destruct (Z.eqb_spec bd (fold_left Z.min (map fst l) d)); [lia|].
      destruct (Z.eqb_spec d (fold_left Z.min (map fst l) d)); reflexivity.
    + destruct (Z.eqb_spec d bd) as [->|Hne].
      * rewrite IH, (Z.min_l bd bd) by lia.
        destruct (Z.eqb_spec bd (fold_left Z.min (map fst l) bd));
          [|reflexivity].
        cbn [map]. now rewrite <- app_assoc.
      * rewrite IH, (Z.min_l bd d) by lia.
        pose proof (Hmin (map fst l) bd) as Hm.
        destruct (Z.eqb_spec d (fold_left Z.min (map fst l) bd));
          [lia|reflexivity].
Qed.

Lemma fold_min_le_start (l : list Z) : forall a, fold_left Z.min l a <= a.
Proof.
  induction l as [|h t IH]; intros a; [simpl; lia|].
  cbn [fold_left]. specialize (IH (Z.min a h)). lia.
Qed.

Lemma fold_min_attained (l : list Z) : forall a,
  fold_left Z.min l a = a \/ In (fold_left Z.min l a) l.
Proof.
  induction l as [|h t IH]; intros a; [now left|].
  cbn [fold_left]. destruct (IH (Z.min a h)) as [E|Hin].
  - rewrite E. destruct (Z.min_spec a h) as [[_ ->]|[_ ->]];
      [now left|right; now left].
  - right. now right.
Qed.

Section ScanPool.
Variable inst : Instance.

(** The delta that the scan computes for a candidate. *)
Definition candidate_delta (s : SolutionManager) (c : CandidateMove) : Z :=
  if cm_type c =? 0
  then get_move_delta inst s (cm_v c) (vget 0 (color s) (cm_v c))
         (cm_target c)
  else get_swap_delta inst s (cm_v c) (cm_target c).

(** The transfers that pass the tests in front of the pool, in scan order. *)
Definition transfer_offers (cfg : TabuConfig) (s : SolutionManager)
  (it best : Z) : list (Z * CandidateMove) :=
  flat_map
    (fun v =>
       if vget 0 (classSize s) (vget 0 (color s) v) =? big_size s then
         flat_map
           (fun j =>
              if (vget 0 (classSize s) j =? floor_size s)
                 && transfer_admitted inst cfg s it best v j
              then [(get_move_delta inst s v (vget 0 (color s) v) j,
                     mkCandidate 0 v j)]
              else [])
           (range (k s))
       else [])
    (conflictingVertices s).

(** The swaps that pass the tests in front of the pool, in scan order. *)
Definition swap_offers (cfg : TabuConfig) (s : SolutionManager)
  (it best : Z) : list (Z * CandidateMove) :=
  flat_map
    (fun v =>
       flat_map
         (fun u =>
            if swap_considered s v u && swap_admitted inst cfg s it best v u
            then [(get_swap_delta inst s v u, mkCandidate 1 v u)]
            else [])
         (range (n s)))
    (conflictingVertices s).

End ScanPool.

Section ScanPoolFacts.
Context {RE : RandomEngine}.
Variable inst : Instance.

(** Everything one scan hands to [offer], in order. *)
Definition all_offers (cfg : TabuConfig) (L : LoopState)
  : list (Z * CandidateMove) :=
  (if negb (Z.rem (n (st L)) (k (st L)) =? 0)
   then transfer_offers inst cfg (st L) (iter L) (best_obj_found L)
   else [])
  ++ swap_offers inst cfg (st L) (iter L) (best_obj_found L).

Lemma scan_transfers_as_offers cfg s it best pool :
  scan_transfers inst cfg s it best pool
  = fold_left offer_pair (transfer_offers inst cfg s it best) pool.
Proof.
  unfold scan_transfers, transfer_offers.
  rewrite fold_left_flat_map. revert pool. apply fold_left_pointwise.
  intros pool v. cbv zeta.
  destruct (vget 0 (classSize s) (vget 0 (color s) v) =? big_size s);
    [|reflexivity].
  rewrite fold_left_flat_map. revert pool. apply fold_left_pointwise.
  intros pool j.
  destruct (vget 0 (classSize s) j =? floor_size s); [|reflexivity].
  cbn [andb]. destruct (transfer_admitted inst cfg s it best v j);
    reflexivity.
Qed.

Lemma scan_swaps_as_offers cfg s it best pool :
  scan_swaps inst cfg s it best pool
  = fold_left offer_pair (swap_offers inst cfg s it best) pool.
Proof.
  unfold scan_swaps, swap_offers.
  rewrite fold_left_flat_map. revert pool. apply fold_left_pointwise.
  intros pool v.
  rewrite fold_left_flat_map. revert pool. apply fold_left_pointwise.
  intros pool u.
  destruct (swap_considered s v u); [|reflexivity].
  cbn [andb]. destruct (swap_admitted inst cfg s it best v u); reflexivity.
Qed.

Lemma scan_as_offers cfg L :
  scan inst cfg L = fold_left offer_pair (all_offers cfg L) (99999999, []).
Proof.
  unfold scan, all_offers. rewrite fold_left_app, scan_swaps_as_offers.
  f_equal.
  destruct (negb (Z.rem (n (st L)) (k (st L)) =? 0)); [|reflexivity].
  apply scan_transfers_as_offers.
Qed.

(** The candidates that pass the tests of the scan: a conflicting vertex
    with, when [k] does not divide [n], a transfer from a class of size
    [big_size] to one of size [floor_size] that the tabu test admits, or a
    swap with a vertex that the three [continue] tests and the tabu test
    let through. *)
Definition eligible (cfg : TabuConfig) (L : LoopState) (c : CandidateMove)
  : Prop :=
  let s := st L in
  In (cm_v c) (conflictingVertices s)
  /\ ((cm_type c = 0
       /\ Z.rem (n s) (k s) <> 0
       /\ vget 0 (classSize s) (vget 0 (color s) (cm_v c)) = big_size s
       /\ 0 <= cm_target c < k s
       /\ vget 0 (classSize s) (cm_target c) = floor_size s
       /\ transfer_admitted inst cfg s (iter L) (best_obj_found L) (cm_v c)
            (cm_target c) = true)
      \/ (cm_type c = 1
          /\ 0 <= cm_target c < n s
          /\ swap_considered s (cm_v c) (cm_target c) = true
          /\ swap_admitted inst cfg s (iter L) (best_obj_found L) (cm_v c)
               (cm_target c) = true)).

Lemma In_transfer_offers cfg s it best d c :
  In (d, c) (transfer_offers inst cfg s it best) <->
  In (cm_v c) (conflictingVertices s)
  /\ cm_type c = 0
  /\ vget 0 (classSize s) (vget 0 (color s) (cm_v c)) = big_size s
  /\ 0 <= cm_target c < k s
  /\ vget 0 (classSize s) (cm_target c) = floor_size s
  /\ transfer_admitted inst cfg s it best (cm_v c) (cm_target c) = true
  /\ d = get_move_delta inst s (cm_v c) (vget 0 (color s) (cm_v c))
           (cm_target c).
Proof.
  unfold transfer_offers. rewrite in_flat_map. split.
  - intros (v & Hv & Hin).
    destruct (Z.eqb_spec (vget 0 (classSize s) (vget 0 (color s) v))
                (big_size s)) as [Hb|]; [|destruct Hin].
    apply in_flat_map in Hin as (j & Hj & Hin). apply In_range in Hj.
    destruct (Z.eqb_spec (vget 0 (classSize s) j) (floor_size s)) as [Hf|];
      [|destruct Hin].
    cbn [andb] in Hin.
    destruct (transfer_admitted inst cfg s it best v j) eqn:Ea;
      [|destruct Hin].
    destruct Hin as [E|[]]. injection E as <- <-. cbn [cm_v cm_target cm_type].
    repeat split; auto; lia.
  - intros (Hv & Et & Hb & Hj & Hf & Ea & ->). destruct c as [t v j].
    cbn [cm_v cm_target cm_type] in *. subst t.
    exists v. split; [exact Hv|]. rewrite Hb, Z.eqb_refl.
    apply in_flat_map. exists j. split; [now apply In_range|].
    rewrite Hf, Z.eqb_refl, Ea. now left.
Qed.

Lemma In_swap_offers cfg s it best d c :
  In (d, c) (swap_offers inst cfg s it best) <->
  In (cm_v c) (conflictingVertices s)
  /\ cm_type c = 1
  /\ 0 <= cm_target c < n s
  /\ swap_considered s (cm_v c) (cm_target c) = true
  /\ swap_admitted inst cfg s it best (cm_v c) (cm_target c) = true
  /\ d = get_swap_delta inst s (cm_v c) (cm_target c).
Proof.
  unfold swap_offers. rewrite in_flat_map. split.
  - intros (v & Hv & Hin).
    apply in_flat_map in Hin as (u & Hu & Hin). apply In_range in Hu.
    destruct (swap_considered s v u) eqn:Ec; [|destruct Hin].
    cbn [andb] in Hin.
    destruct (swap_admitted inst cfg s it best v u) eqn:Ea; [|destruct Hin].
    destruct Hin as [E|[]]. injection E as <- <-. cbn [cm_v cm_target cm_type].
    repeat split; auto; lia.
  - intros (Hv & Et & Hu & Ec & Ea & ->). destruct c as [t v u].
    cbn [cm_v cm_target cm_type] in *. subst t.
    exists v. split; [exact Hv|].
    apply in_flat_map. exists u. split; [now apply In_range|].
    rewrite Ec, Ea. now left.
Qed.

Lemma In_all_offers cfg L d c :
  In (d, c) (all_offers cfg L) <->
  eligible cfg L c /\ d = candidate_delta inst (st L) c.
Proof.
  unfold all_offers, eligible, candidate_delta. cbv zeta.
  rewrite in_app_iff, In_swap_offers. split.
  - intros [Ht|(Hv & Et & Hu & Ec & Ea & ->)].
    + destruct (Z.eqb_spec (Z.rem (n (st L)) (k (st L))) 0) as [|Hr];
        [destruct Ht|]. cbn [negb] in Ht.
      apply In_transfer_offers in Ht as (Hv & Et & Hb & Hj & Hf & Ea & ->).
      rewrite Et. cbn [Z.eqb]. split; [|reflexivity].
      split; [exact Hv|]. left. repeat split; auto; lia.
    + rewrite Et. cbn [Z.eqb Pos.eqb]. split; [|reflexivity].
      split; [exact Hv|]. right. repeat split; auto; lia.
  - intros [[Hv [(Et & Hr & Hb & Hj & Hf & Ea)|(Et & Hu & Ec & Ea)]] ->];
      rewrite Et.
    + left. destruct (Z.eqb_spec (Z.rem (n (st L)) (k (st L))) 0);
        [contradiction|]. cbn [negb Z.eqb].
      apply In_transfer_offers. repeat split; auto; lia.
    + right. cbn [Z.eqb Pos.eqb]. repeat split; auto; lia.
Qed.

Lemma fold_min_le (l : list Z) : forall a d,
  In d l -> fold_left Z.min l a <= d.
Proof.
  assert (Hmin : forall (l : list Z) a, fold_left Z.min l a <= a).
  { intros l0. induction l0 as [|h t IH]; intros a; [simpl; lia|].
    cbn [fold_left]. specialize (IH (Z.min a h)). lia. }
  induction l as [|h t IH]; intros a d Hd; [destruct Hd|].
  cbn [fold_left]. destruct Hd as [->|Hd]; [|now apply IH].
  pose proof (Hmin t (Z.min a d)). lia.
Qed.

(** The pool that one scan leaves holds exactly the candidates that pass the
    tests and whose delta is the least among them, in the order of the scan.
    [best_delta] is that least delta, or its initial 99999999 where no
    candidate is below it: it is below every delta of a candidate that
    passes, and it is either 99999999 or the delta of one of them.  The pool
    is not empty as soon as a candidate with a delta of at most 99999999
    passes. *)
Theorem scan_pool_is_least_delta cfg L :
  (forall c, In c (snd (scan inst cfg L)) <->
             eligible cfg L c
             /\ candidate_delta inst (st L) c = fst (scan inst cfg L))
  /\ (forall c, eligible cfg L c ->
                fst (scan inst cfg L) <= candidate_delta inst (st L) c)
  /\ fst (scan inst cfg L) <= 99999999
  /\ (fst (scan inst cfg L) = 99999999
      \/ exists c, eligible cfg L c
                   /\ candidate_delta inst (st L) c = fst (scan inst cfg L))
  /\ ((exists c, eligible cfg L c
                 /\ candidate_delta inst (st L) c <= 99999999) ->
      snd (scan inst cfg L) <> [])
  /\ scan inst cfg L
     = (fold_left Z.min (map fst (all_offers cfg L)) 99999999,
        map snd
          (filter
             (fun x =>
                fst x
                =? fold_left Z.min (map fst (all_offers cfg L)) 99999999)
             (all_offers cfg L))).
Proof.
  assert (Hscan : scan inst cfg L
     = (fold_left Z.min (map fst (all_offers cfg L)) 99999999,
        map snd
          (filter
             (fun x =>
                fst x
                =? fold_left Z.min (map fst (all_offers cfg L)) 99999999)
             (all_offers cfg L)))).
  { rewrite scan_as_offers, offers_fold. f_equal.
    destruct (99999999 =? _); reflexivity. }
  rewrite Hscan. cbn [fst snd].
  set (m := fold_left Z.min (map fst (all_offers cfg L)) 99999999).
  assert (Hmem : forall c,
             In c (map snd (filter (fun x => fst x =? m)
                              (all_offers cfg L))) <->
             eligible cfg L c /\ candidate_delta inst (st L) c = m).
  { intros c. rewrite in_map_iff. split.
    - intros ([d c'] & E & Hin). cbn [snd] in E. subst c'.
      apply filter_In in Hin as [Hin Ed]. cbn [fst] in Ed.
      apply Z.eqb_eq in Ed. apply In_all_offers in Hin as [He ->].
      split; [exact He|exact Ed].
    - intros [He Ed]. exists (candidate_delta inst (st L) c, c).
      split; [reflexivity|]. apply filter_In. split.
      + apply In_all_offers. split; [exact He|reflexivity].
      + cbn [fst]. now apply Z.eqb_eq. }
  assert (Hlow : forall c, eligible cfg L c ->
                           m <= candidate_delta inst (st L) c).
  { intros c He. apply fold_min_le. apply in_map_iff.
    exists (candidate_delta inst (st L) c, c). split; [reflexivity|].
    apply In_all_offers. split; [exact He|reflexivity]. }
  assert (Hatt : m = 99999999
                 \/ exists c, eligible cfg L c
                              /\ candidate_delta inst (st L) c = m).
  { destruct (fold_min_attained (map fst (all_offers cfg L)) 99999999)
      as [E|Hin]; [now left|right].
    fold m in Hin. apply in_map_iff in Hin as ([d c] & Ed & Hin).
    cbn [fst] in Ed. subst d.
    apply In_all_offers in Hin as [He Ed]. exists c. auto. }
  assert (Hup : m <= 99999999) by apply fold_min_le_start.
  split; [exact Hmem|]. split; [exact Hlow|]. split; [exact Hup|].
  split; [exact Hatt|]. split; [|reflexivity].
  intros (c & He & Hc) Hnil.
  destruct Hatt as [Em|(c' & He' & Ec')].
  - pose proof (Hlow c He) as Hl.
    assert (Hin : In c (map snd (filter (fun x => fst x =? m)
                                   (all_offers cfg L)))).
    { apply Hmem. split; [exact He|lia]. }
    rewrite Hnil in Hin. destruct Hin.
  - assert (Hin : In c' (map snd (filter (fun x => fst x =? m)
                                    (all_offers cfg L)))).
    { apply Hmem. split; [exact He'|exact Ec']. }
    rewrite Hnil in Hin. destruct Hin.
Qed.

End ScanPoolFacts.


(** ** The data model on reachable states *)

Section DataModel.
Variable inst : Instance.

Lemma Good_class_total s : Good inst s -> zsum (classSize s) = n s.
Proof.
  intros HG. pose proof (good_equity HG) as He.
  pose proof (eq_size He) as Hsz. pose proof (eq_count He) as Hc.
  pose proof (eq_big He) as Eb. pose proof (eq_floor He) as Ef.
  assert (Hb : bigs (floor_size s) (classSize s)
               = n s - k s * Z.quot (n s) (k s)).
  { rewrite <- Hc, <- Hsz, Eb. unfold bigs. symmetry.
    apply (countb_range (fun x => x =? floor_size s + 1)). }
  assert (Hcap : capped (floor_size s) (classSize s)).
  { apply Forall_vget. intros c Hc'. rewrite Hsz in Hc'.
    destruct (quot_facts (eq_n He) (eq_k He)) as [HF _].
    destruct (eq_classes He Hc'); lia. }
  assert (Hlow : Forall (fun x => floor_size s <= x) (classSize s)).
  { apply Forall_vget. intros c Hc'. rewrite Hsz in Hc'.
    destruct (eq_classes He Hc'); lia. }
  pose proof (zsum_upper Hcap) as Hu. pose proof (zsum_lower Hlow) as Hl.
  rewrite Hsz, Hb, Ef in *. lia.
Qed.

End DataModel.

(** On an instance without self-loops, in every reachable state every
    vertex has a colour of [0 .. k-1], [classSize] has [k] entries,
    [classSize[c]] is the number of vertices of colour [c], and the class
    sizes add up to [n]. *)
Theorem class_sizes_count_the_classes {RE : RandomEngine} inst s :
  simple_graph inst -> reachable inst s ->
  (forall v, 0 <= v < n s -> 0 <= vget 0 (color s) v < k s)
  /\ vsize (color s) = n s
  /\ vsize (classSize s) = k s
  /\ (forall c, 0 <= c < k s ->
        vget 0 (classSize s) c
        = countb (fun v => vget 0 (color s) v =? c) (range (n s)))
  /\ zsum (classSize s) = n s.
Proof.
  intros SG Hr. pose proof (reachable_Good SG Hr) as HG.
  split; [apply (good_colored HG)|].
  split; [apply (cs_color_size (good_consistent HG))|].
  destruct (good_sizes HG) as [Hsz Hm].
  split; [exact Hsz|]. split; [exact Hm|].
  now apply Good_class_total with (inst := inst).
Qed.

Lemma class_sizes_count_the_classes_witness :
  (forall v, 0 <= v < n triangle_start ->
     0 <= vget 0 (color triangle_start) v < k triangle_start)
  /\ vsize (color triangle_start) = n triangle_start
  /\ vsize (classSize triangle_start) = k triangle_start
  /\ (forall c, 0 <= c < k triangle_start ->
        vget 0 (classSize triangle_start) c
        = countb (fun v => vget 0 (color triangle_start) v =? c)
            (range (n triangle_start)))
  /\ zsum (classSize triangle_start) = n triangle_start.
Proof.
  apply (@class_sizes_count_the_classes (Scripted []) triangle
           triangle_start).
  - apply triangle_simple.
  - apply triangle_start_reachable.
Defined.

(** On an instance without self-loops, in every reachable state
    [conflictingVertices] lists, without repetition, exactly the vertices
    [v] with [conflicts[v] > 0]; [conflictingIndex] of a listed vertex is
    its position in the list and that of any other vertex is -1. *)
Theorem conflict_list_is_exact {RE : RandomEngine} inst s :
  simple_graph inst -> reachable inst s ->
  NoDup (conflictingVertices s)
  /\ (forall v, In v (conflictingVertices s)
                <-> 0 <= v < n s /\ vget 0 (conflicts s) v > 0)
  /\ (forall i, 0 <= i < vsize (conflictingVertices s) ->
        vget 0 (conflictingIndex s) (vget 0 (conflictingVertices s) i) = i)
  /\ (forall v, 0 <= v < n s -> ~ In v (conflictingVertices s) ->
        vget 0 (conflictingIndex s) v = -1)
  /\ vsize (conflicts s) = n s /\ vsize (conflictingIndex s) = n s.
Proof.
  intros SG Hr. pose proof (reachable_Good SG Hr) as HG.
  pose proof (cs_list (good_consistent HG)) as HL.
  split; [now apply ListInv_NoDup|].
  split; [intros v; now apply ListInv_In|].
  split; [intros i Hi; apply (li_in HL Hi)|].
  split; [|split; [apply (li_conflicts_size HL)|apply (li_index_size HL)]].
  intros v Hv Hnin.
  destruct (li_idx HL Hv) as [E|[Hi Ev]]; [exact E|].
  exfalso. apply Hnin. rewrite <- Ev. now apply vget_In.
Qed.

Lemma conflict_list_is_exact_witness :
  NoDup (conflictingVertices one_edge_start)
  /\ (forall v, In v (conflictingVertices one_edge_start)
                <-> 0 <= v < n one_edge_start
                    /\ vget 0 (conflicts one_edge_start) v > 0)
  /\ (forall i, 0 <= i < vsize (conflictingVertices one_edge_start) ->
        vget 0 (conflictingIndex one_edge_start)
          (vget 0 (conflictingVertices one_edge_start) i) = i)
  /\ (forall v, 0 <= v < n one_edge_start ->
        ~ In v (conflictingVertices one_edge_start) ->
        vget 0 (conflictingIndex one_edge_start) v = -1)
  /\ vsize (conflicts one_edge_start) = n one_edge_start
  /\ vsize (conflictingIndex one_edge_start) = n one_edge_start.
Proof.
  apply (@conflict_list_is_exact (Scripted [2; 2; 0; 0]) one_edge
           one_edge_start).
  - apply one_edge_simple.
  - apply one_edge_start_reachable.
Defined.


(** ** The warm start keeps the surviving classes *)

Section WarmStartColors.
Context {RE : RandomEngine}.
Variable inst : Instance.





End WarmStartColors.





(** * The command line *)

From Stdlib Require Import String.

(** [Arguments] of [args.hpp] with its defaults; [k] is never written nor
    read and is left out. *)
Record Arguments : Type := mkArguments {
  input_file : string;
  output_file : string;
  arg_seed : Z;
  arg_alpha : Q;
  arg_beta : Z;
  arg_aspiration : Z;
  arg_time_limit : Z;
  arg_max_iter : Z;
  arg_perturbation_limit : Z;
  arg_perturbation_strength : Q }.

Definition default_arguments : Arguments :=
  mkArguments EmptyString EmptyString 0 (6 # 10) 10 1 1000 1000000 1000
    (16 # 100).

(** What [parse_arguments] throws: its own [std::runtime_error]s, and the
    [std::invalid_argument] or [std::out_of_range] of a conversion. *)
Inductive ArgumentError : Type :=
| Usage
| MissingValue (flag : string)
| BadAspiration
| UnknownArgument (arg : string)
| BadNumber (value : string).

Inductive Parse : Type :=
| Parsed (a : Arguments)
| Throws (e : ArgumentError).

Definition known_flags : list string :=
  ["--seed"; "--alpha"; "--beta"; "--aspiration"; "--time_limit";
   "--max_iter"; "--perturbation_limit"; "--perturbation_strength"]%string.

Definition known_flag (flag : string) : bool :=
  existsb (String.eqb flag) known_flags.

Section CommandLine.
(** [std::stoi], [std::stod] and [std::stof]; [None] when they throw. *)
Variable stoi : string -> option Z.
Variables stod stof : string -> option Q.

(** The branch of the [if] chain for [flag], once its value is there. *)
Definition store (flag value : string) (a : Arguments) : Parse :=
  if String.eqb flag "--seed" then
    match stoi value with
    | Some x =>
        Parsed (mkArguments (input_file a) (output_file a) x (arg_alpha a)
                  (arg_beta a) (arg_aspiration a) (arg_time_limit a)
                  (arg_max_iter a) (arg_perturbation_limit a)
                  (arg_perturbation_strength a))
    | None => Throws (BadNumber value)
    end
  else if String.eqb flag "--alpha" then
    match stod value with
    | Some x =>
        Parsed (mkArguments (input_file a) (output_file a) (arg_seed a) x
                  (arg_beta a) (arg_aspiration a) (arg_time_limit a)
                  (arg_max_iter a) (arg_perturbation_limit a)
                  (arg_perturbation_strength a))
    | None => Throws (BadNumber value)
    end
  else if String.eqb flag "--beta" then
    match stod value with
    | Some x =>
        Parsed (mkArguments (input_file a) (output_file a) (arg_seed a)
                  (arg_alpha a) (Qtrunc x) (arg_aspiration a)
                  (arg_time_limit a) (arg_max_iter a)
                  (arg_perturbation_limit a) (arg_perturbation_strength a))
    | None => Throws (BadNumber value)
    end
  else if String.eqb flag "--aspiration" then
    match stoi value with
    | Some x =>
        if negb (x =? 0) && negb (x =? 1) then Throws BadAspiration
        else
          Parsed (mkArguments (input_file a) (output_file a) (arg_seed a)
                    (arg_alpha a) (arg_beta a) x (arg_time_limit a)
                    (arg_max_iter a) (arg_perturbation_limit a)
                    (arg_perturbation_strength a))
    | None => Throws (BadNumber value)
    end
  else if String.eqb flag "--time_limit" then
    match stoi value with
    | Some x =>
        Parsed (mkArguments (input_file a) (output_file a) (arg_seed a)
                  (arg_alpha a) (arg_beta a) (arg_aspiration a) x
                  (arg_max_iter a) (arg_perturbation_limit a)
                  (arg_perturbation_strength a))
    | None => Throws (BadNumber value)
    end
  else if String.eqb flag "--max_iter" then
    match stoi value with
    | Some x =>
        Parsed (mkArguments (input_file a) (output_file a) (arg_seed a)
                  (arg_alpha a) (arg_beta a) (arg_aspiration a)
                  (arg_time_limit a) x (arg_perturbation_limit a)
                  (arg_perturbation_strength a))
    | None => Throws (BadNumber value)
    end
  else if String.eqb flag "--perturbation_limit" then
    match stoi value with
    | Some x =>
        Parsed (mkArguments (input_file a) (output_file a) (arg_seed a)
                  (arg_alpha a) (arg_beta a) (arg_aspiration a)
                  (arg_time_limit a) (arg_max_iter a) x
                  (arg_perturbation_strength a))
    | None => Throws (BadNumber value)
    end
  else if String.eqb flag "--perturbation_strength" then
    match stof value with
    | Some x =>
        Parsed (mkArguments (input_file a) (output_file a) (arg_seed a)
                  (arg_alpha a) (arg_beta a) (arg_aspiration a)
                  (arg_time_limit a) (arg_max_iter a)
                  (arg_perturbation_limit a) x)
    | None => Throws (BadNumber value)
    end
  else Throws (UnknownArgument flag).

(** The loop [for (int i = 3; i < argc; i++)] over the tokens that are
    left. *)
Fixpoint parse_options (rest : list string) (a : Arguments) : Parse :=
  match rest with
  | [] => Parsed a
  | flag :: rest' =>
      if known_flag flag then
        match rest' with
        | [] => Throws (MissingValue flag)
        | value :: rest'' =>
            match store flag value a with
            | Parsed a' => parse_options rest'' a'
            | Throws e => Throws e
            end
        end
      else Throws (UnknownArgument flag)
  end.

(** [parse_arguments]; [argv] holds the program name first. *)
Definition parse_arguments (argv : list string) : Parse :=
  match argv with
  | _ :: out :: inp :: rest =>
      parse_options rest
        (mkArguments inp out (arg_seed default_arguments)
           (arg_alpha default_arguments) (arg_beta default_arguments)
           (arg_aspiration default_arguments)
           (arg_time_limit default_arguments)
           (arg_max_iter default_arguments)
           (arg_perturbation_limit default_arguments)
           (arg_perturbation_strength default_arguments))
  | _ => Throws Usage
  end.

(** The configuration that [main] hands to the engine. *)
Definition tabu_config (a : Arguments) : TabuConfig :=
  mkTabuConfig (arg_max_iter a) (arg_alpha a) (arg_beta a)
    (arg_perturbation_limit a) (16 # 100) (arg_aspiration a).

End CommandLine.

Section CommandLineFacts.
Variable stoi : string -> option Z.
Variables stod stof : string -> option Q.

Lemma store_keeps flag value a a' :
  store stoi stod stof flag value a = Parsed a' ->
  input_file a' = input_file a /\ output_file a' = output_file a
  /\ (arg_aspiration a = 0 \/ arg_aspiration a = 1 ->
      arg_aspiration a' = 0 \/ arg_aspiration a' = 1).
Proof.
  unfold store.
  repeat match goal with
         | |- context [if String.eqb ?x ?y then _ else _] =>
             destruct (String.eqb x y)
         end;
    try discriminate;
    try (destruct (stoi value) as [x|]; [|discriminate]);
    try (destruct (stod value) as [x|]; [|discriminate]);
    try (destruct (stof value) as [x|]; [|discriminate]);
    try (destruct (Z.eqb_spec x 0); destruct (Z.eqb_spec x 1);
         cbn [negb andb]; try discriminate);
    intros E; injection E as <-; cbn; auto.
Qed.

(** Options are read from left to right, two tokens at a time. *)
Lemma parse_options_steps (m : nat) : forall rest a a',
  (List.length rest <= m)%nat ->
  parse_options stoi stod stof rest a = Parsed a' ->
  input_file a' = input_file a /\ output_file a' = output_file a
  /\ Nat.Even (List.length rest)
  /\ (arg_aspiration a = 0 \/ arg_aspiration a = 1 ->
      arg_aspiration a' = 0 \/ arg_aspiration a' = 1)
  /\ forall more,
       parse_options stoi stod stof (rest ++ more) a
       = parse_options stoi stod stof more a'.
Proof.
  induction m as [|m IH]; intros rest a a' Hlen E.
  - destruct rest; [|simpl in Hlen; lia].
    simpl in E. injection E as <-.
    repeat split; auto. exists 0%nat. reflexivity.
  - destruct rest as [|flag [|value rest]].
    + simpl in E. injection E as <-.
      repeat split; auto. exists 0%nat. reflexivity.
    + simpl in E. destruct (known_flag flag); discriminate.
    + cbn [parse_options] in E.
      destruct (known_flag flag) eqn:Ek; [|discriminate].
      destruct (store stoi stod stof flag value a) as [a1|] eqn:Es;
        [|discriminate].
      destruct (@store_keeps _ _ _ _ Es) as (F1 & F2 & F3).
      apply IH in E; [|simpl in Hlen; lia].
      destruct E as (G1 & G2 & [j Ej] & G3 & G4).
      split; [congruence|]. split; [congruence|]. split.
      { exists (S j). simpl List.length. lia. }
      split; [auto|].
      intros more. cbn [app parse_options]. rewrite Ek, Es. apply G4.
Qed.

End CommandLineFacts.

(** When [parse_arguments] returns, the token after the program name is the
    output file and the next one the input file, the remaining tokens come
    in pairs, and [aspiration] is 0 or 1.  The statement holds whatever the
    numeric conversions return. *)
Theorem parse_arguments_accepts stoi stod stof argv a :
  parse_arguments stoi stod stof argv = Parsed a ->
  (exists prog rest,
      argv = prog :: output_file a :: input_file a :: rest
      /\ Nat.Even (List.length rest))
  /\ (arg_aspiration a = 0 \/ arg_aspiration a = 1).
Proof.
  unfold parse_arguments.
  destruct argv as [|prog [|out [|inp rest]]]; try discriminate.
  intros E.
  destruct (@parse_options_steps stoi stod stof (List.length rest) rest _
              _ (le_n _) E) as (F1 & F2 & F3 & F4 & _).
  cbn [input_file output_file arg_aspiration default_arguments] in *.
  split; [|apply F4; now right].
  exists prog, rest. split; [congruence|exact F3].
Qed.

Lemma parse_arguments_accepts_witness :
  (exists prog rest,
      ["eqcol"; "out.csv"; "graph.txt"; "--aspiration"; "0"]%string
      = prog
        :: output_file
             (mkArguments "graph.txt" "out.csv" 0 (6 # 10) 10 0 1000 1000000
                1000 (16 # 100))
        :: input_file
             (mkArguments "graph.txt" "out.csv" 0 (6 # 10) 10 0 1000 1000000
                1000 (16 # 100))
        :: rest
      /\ Nat.Even (List.length rest))
  /\ (arg_aspiration
        (mkArguments "graph.txt" "out.csv" 0 (6 # 10) 10 0 1000 1000000 1000
           (16 # 100)) = 0
      \/ arg_aspiration
           (mkArguments "graph.txt" "out.csv" 0 (6 # 10) 10 0 1000 1000000
              1000 (16 # 100)) = 1).
Proof.
  apply (@parse_arguments_accepts (fun _ => Some 0) (fun _ => None)
           (fun _ => None)
           ["eqcol"; "out.csv"; "graph.txt"; "--aspiration"; "0"]%string).
  reflexivity.
Defined.

(** Parsing goes from left to right: when a command line is accepted, what
    [parse_arguments] makes of it with more tokens appended is what the
    option loop makes of those tokens, started from the accepted values.  A
    later occurrence of an option therefore replaces an earlier one. *)
Theorem parse_arguments_appends stoi stod stof argv a more :
  parse_arguments stoi stod stof argv = Parsed a ->
  parse_arguments stoi stod stof (argv ++ more)
  = parse_options stoi stod stof more a.
Proof.
  unfold parse_arguments.
  destruct argv as [|prog [|out [|inp rest]]]; try discriminate.
  intros E. cbn [app].
  destruct (@parse_options_steps stoi stod stof (List.length rest) rest _
              _ (le_n _) E) as (_ & _ & _ & _ & F).
  apply F.
Qed.

Lemma parse_arguments_appends_witness :
  parse_arguments (fun _ => Some 0) (fun _ => None) (fun _ => None)
    (["eqcol"; "out.csv"; "graph.txt"; "--aspiration"; "0"]%string
     ++ ["--seed"; "7"]%string)
  = parse_options (fun _ => Some 0) (fun _ => None) (fun _ => None)
      ["--seed"; "7"]%string
      (mkArguments "graph.txt" "out.csv" 0 (6 # 10) 10 0 1000 1000000 1000
         (16 # 100)).
Proof.
  apply (@parse_arguments_appends (fun _ => Some 0) (fun _ => None)
           (fun _ => None)
           ["eqcol"; "out.csv"; "graph.txt"; "--aspiration"; "0"]%string).
  reflexivity.
Defined.

(** The option [--perturbation_strength] is read and checked but never
    used: added to an accepted command line it leaves the search
    configuration, the seed, the time limit and the two file names as they
    were; the search keeps the strength 0.16 of [TabuConfig]. *)
Theorem perturbation_strength_option_is_ignored stoi stod stof argv a v x :
  parse_arguments stoi stod stof argv = Parsed a ->
  stof v = Some x ->
  exists a',
    parse_arguments stoi stod stof
      (argv ++ ["--perturbation_strength"%string; v]) = Parsed a'
    /\ tabu_config a' = tabu_config a
    /\ perturbation_strength (tabu_config a') = 16 # 100
    /\ arg_seed a' = arg_seed a
    /\ arg_time_limit a' = arg_time_limit a
    /\ input_file a' = input_file a
    /\ output_file a' = output_file a.
Proof.
  unfold parse_arguments.
  destruct argv as [|prog [|out [|inp rest]]]; try discriminate.
  intros E Hx. cbn [app].
  destruct (@parse_options_steps stoi stod stof (List.length rest) rest _
              _ (le_n _) E) as (_ & _ & _ & _ & F).
  rewrite F.
  cbn [parse_options]. unfold known_flag, store. cbn. rewrite Hx.
  eexists. split; [reflexivity|].
  repeat split.
Qed.

Lemma perturbation_strength_option_is_ignored_witness :
  exists a',
    parse_arguments (fun _ => Some 0) (fun _ => None)
      (fun _ => Some (9 # 10))
      (["eqcol"; "out.csv"; "graph.txt"; "--aspiration"; "0"]%string
       ++ ["--perturbation_strength"; "0.9"]%string) = Parsed a'
    /\ tabu_config a'
       = tabu_config
           (mkArguments "graph.txt" "out.csv" 0 (6 # 10) 10 0 1000 1000000
              1000 (16 # 100))
    /\ perturbation_strength (tabu_config a') = 16 # 100
    /\ arg_seed a'
       = arg_seed
           (mkArguments "graph.txt" "out.csv" 0 (6 # 10) 10 0 1000 1000000
              1000 (16 # 100))
    /\ arg_time_limit a'
       = arg_time_limit
           (mkArguments "graph.txt" "out.csv" 0 (6 # 10) 10 0 1000 1000000
              1000 (16 # 100))
    /\ input_file a'
       = input_file
           (mkArguments "graph.txt" "out.csv" 0 (6 # 10) 10 0 1000 1000000
              1000 (16 # 100))
    /\ output_file a'
       = output_file
           (mkArguments "graph.txt" "out.csv" 0 (6 # 10) 10 0 1000 1000000
              1000 (16 # 100)).
Proof.
  apply (@perturbation_strength_option_is_ignored (fun _ => Some 0)
           (fun _ => None) (fun _ => Some (9 # 10))
           ["eqcol"; "out.csv"; "graph.txt"; "--aspiration"; "0"]%string
           _ "0.9"%string (9 # 10)).
  - reflexivity.
  - reflexivity.
Defined.


(** * The descent of [main] *)

Section ConstructionFrames.
Context {RE : RandomEngine}.
Variable inst : Instance.
Hypothesis SG : simple_graph inst.

(** The first construction keeps the number of colours of the manager. *)
Lemma construct_greedy_initial_k K seed :
  K = -1 \/ 1 <= K ->
  k (construct_greedy_initial inst (init inst K) seed) = k (init inst K).
Proof.
  intros HK. unfold construct_greedy_initial.
  set (s := init inst K).
  pose proof (sg_n SG) as Hn. pose proof (sg_degree SG) as Hd.
  assert (Hk : 1 <= k s).
  { unfold s, init. sm_simpl. destruct (Z.eqb_spec K (-1)); lia. }
  assert (En : n s = inst_n inst) by reflexivity.
  assert (E0n : n (clear_state s) = n s) by reflexivity.
  assert (E0k : k (clear_state s) = k s) by reflexivity.
  rewrite E0n, E0k.
  pose proof (@shuffle_perm RE (range (n s)) (mt19937 seed)) as Hperm.
  destruct (shuffle (range (n s)) (mt19937 seed)) as [vertices g1].
  simpl fst in Hperm.
  destruct (quot_facts (n0 := n s) (k0 := k s)) as [HF HR]; try lia.
  set (F := Z.quot (n s) (k s)) in *.
  set (R := n s - k s * F) in *.
  assert (HG0 : GreedyInv inst F R vertices (clear_state s) 0).
  { apply cleared_GreedyInv; auto; try lia; unfold s, init; sm_simpl;
      rewrite vsize_repeat; try lia.
    destruct (Z.eqb_spec K (-1)); lia. }
  pose proof (@greedy_fold RE inst SG (smallest_class) F R vertices
                (clear_state s) 0 g1) as Hfold.
  rewrite E0n, E0k in Hfold.
  specialize (Hfold Hk ltac:(lia) eq_refl eq_refl HG0).
  destruct (fold_left (greedy_place inst smallest_class F R) vertices
              (clear_state s, 0, g1)) as [[s' cr'] g'].
  destruct Hfold as (HG'&E1&E2&E3&E4&E5). simpl fst.
  rewrite E2. exact E0k.
Qed.

(** The warm start yields a manager with one colour less than the state it
    starts from. *)
Lemma construct_greedy_from_previous_k prevSol seed :
  Good inst prevSol -> 2 <= k prevSol ->
  k (construct_greedy_from_previous inst (init inst (k prevSol - 1)) prevSol
       seed) = k prevSol - 1.
Proof.
  intros Hprev Hk2. pose proof (sg_n SG) as Hn.
  unfold construct_greedy_from_previous.
  set (s0 := clear_state (init inst (k prevSol - 1))).
  assert (E0n : n s0 = inst_n inst) by reflexivity.
  assert (E0k : k s0 = k prevSol - 1).
  { unfold s0, clear_state, init. sm_simpl.
    destruct (Z.eqb_spec (k prevSol - 1) (-1)); lia. }
  rewrite E0n, E0k.
  pose proof (@shuffle_perm RE (range (k prevSol)) (mt19937 seed)) as Hperm.
  destruct (shuffle (range (k prevSol)) (mt19937 seed)) as [perm g1].
  cbn [fst] in Hperm.
  set (removed_color := vget 0 perm (k prevSol - 1)).
  set (color_map := fold_left _ (range (k prevSol - 1)) _).
  pose proof (@transfer_all inst SG prevSol perm Hprev Hk2 Hperm
                removed_color color_map eq_refl eq_refl) as HT.
  unfold warm_base in HT. fold s0 in HT.
  destruct (fold_left (transfer_vertex prevSol removed_color color_map)
              (range (inst_n inst)) (s0, [])) as [s1 unc].
  destruct (transferred_base Hk2 HT) as (En&Ek&_&_&_&Efl&Ebg).
  destruct (transferred_ListInv SG Hk2 HT) as [HL1 Hz1].
  pose proof (@inherit_all inst SG prevSol removed_color s1 En HL1 Hz1) as HI.
  rewrite En in HI.
  set (s3 := fold_left (inherit_conflicts inst prevSol removed_color)
               (range (inst_n inst)) (set_obj s1 (obj prevSol))) in *.
  pose proof (@shuffle_perm RE unc g1) as Hord.
  destruct (shuffle unc g1) as [order g2]. cbn [fst] in Hord.
  pose proof (warm_GreedyInv SG Hprev Hk2 Hperm eq_refl eq_refl HT HI Hord)
    as HG.
  set (F := Z.quot (inst_n inst) (k prevSol - 1)) in *.
  set (R := inst_n inst - (k prevSol - 1) * F) in *.
  set (cr := countb _ (range (k prevSol - 1))) in *.
  assert (En3 : n s3 = inst_n inst) by (rewrite (ih_n HI); exact En).
  assert (Ek3 : k s3 = k prevSol - 1) by (rewrite (ih_k HI); exact Ek).
  pose proof (@greedy_fold RE inst SG class_zero F R order s3 cr g2) as Hfold.
  rewrite En3, Ek3 in Hfold.
  specialize (Hfold ltac:(lia) Hn eq_refl eq_refl HG).
  destruct (fold_left (greedy_place inst class_zero F R) order (s3, cr, g2))
    as [[s' cr'] g'].
  destruct Hfold as (HG'&E1&E2&E3&E4&E5). cbn [fst].
  exact E2.
Qed.

End ConstructionFrames.

(** What the descent leaves for the report: the manager [bestFeasibleS],
    [best_k_found] and [total_iterations]. *)
Record Descent : Type := mkDescent {
  bestFeasibleS : SolutionManager;
  best_k_found : Z;
  total_iterations : Z }.

Section Driver.
Context {RE : RandomEngine}.
Variable inst : Instance.
Variable cfg : TabuConfig.
Variable seed : Z.

(** The clock: [header_poll r] is [globalStop.is_time_up()] in the header of
    the descent loop before round [r]; [search_poll r] is the clock the
    search of round [r] sees. *)
Variable header_poll : nat -> bool.
Variable search_poll : nat -> Z -> bool.

(** The [while] loop of [main]; [None] only when the fuel runs out. *)
Fixpoint descent_loop (fuel round : nat) (currentS : SolutionManager)
  (d : Descent) : option Descent :=
  if header_poll round then Some d
  else
    match fuel with
    | O => None
    | S fuel' =>
        match run_tabu_search inst cfg (search_poll round) seed currentS with
        | None => None
        | Some out =>
            let currentS' := final_state out in
            let total := total_iterations d + iterations (result out) in
            if solved (result out) then
              if k currentS' =? 1
              then Some (mkDescent currentS' (k currentS') total)
              else
                let next_k := k currentS' - 1 in
                let nextS :=
                  construct_greedy_from_previous inst (init inst next_k)
                    currentS' seed in
                descent_loop fuel' (S round) nextS
                  (mkDescent currentS' (k currentS') total)
            else Some (mkDescent (bestFeasibleS d) (best_k_found d) total)
        end
    end.

(** [currentS(inst, -1)] after [construct_greedy_initial(args.seed)]. *)
Definition initial_solution : SolutionManager :=
  construct_greedy_initial inst (init inst (-1)) seed.

(** The descent of [main], from the initial construction to the values that
    are reported. *)
Definition descent : option Descent :=
  let currentS := initial_solution in
  descent_loop (Z.to_nat (k currentS)) 0 currentS
    (mkDescent currentS (k currentS) 0).

End Driver.

Section DriverFacts.
Context {RE : RandomEngine}.
Variable inst : Instance.
Variable cfg : TabuConfig.
Variable seed : Z.
Variable header_poll : nat -> bool.
Variable search_poll : nat -> Z -> bool.
Hypothesis SG : simple_graph inst.

Let M := Z.max 0 (max_iter cfg).
Let start := initial_solution inst seed.

Lemma descent_loop_facts k0 fuel : forall round currentS d,
  reachable inst currentS ->
  (Z.to_nat (k currentS) <= fuel)%nat ->
  reachable inst (bestFeasibleS d) ->
  k (bestFeasibleS d) = best_k_found d ->
  k currentS <= best_k_found d <= k currentS + 1 ->
  best_k_found d <= k0 ->
  0 <= total_iterations d <= (k0 - k currentS) * M ->
  (bestFeasibleS d = start /\ best_k_found d = k0
   \/ obj (bestFeasibleS d) = 0) ->
  exists r,
    descent_loop inst cfg seed header_poll search_poll fuel round currentS d
    = Some r
    /\ reachable inst (bestFeasibleS r)
    /\ k (bestFeasibleS r) = best_k_found r
    /\ 1 <= best_k_found r <= k0
    /\ 0 <= total_iterations r <= (k0 - best_k_found r + 2) * M
    /\ (bestFeasibleS r = start /\ best_k_found r = k0
        \/ obj (bestFeasibleS r) = 0).
Proof.
  assert (HM : 0 <= M) by (unfold M; lia).
  induction fuel as [|fuel IH]; intros round cur d Hc Hf Hb Hbk Hk Hk0 Ht Ho;
    pose proof (eq_k (good_equity (reachable_Good SG Hc))) as Hk1.
  - lia.
  - cbn [descent_loop]. destruct (header_poll round).
    + exists d. split; [reflexivity|]. split; [exact Hb|].
      split; [exact Hbk|]. split; [lia|]. split; [nia|exact Ho].
    + destruct (run_tabu_search_returns inst cfg (search_poll round) seed cur)
        as [out E].
      rewrite E.
      pose proof (run_tabu_search_reachable SG _ _ _ Hc E) as Hr'.
      destruct (run_tabu_search_facts SG _ _ _ (reachable_Good SG Hc) E)
        as (HG' & Ek & Hi & _ & Hz).
      fold M in Hi. cbv zeta.
      destruct (solved (result out)) eqn:Es.
      * destruct (Hz eq_refl) as [Hobj _].
        destruct (Z.eqb_spec (k (final_state out)) 1) as [E1|E1].
        -- eexists. split; [reflexivity|].
           cbn [bestFeasibleS best_k_found total_iterations].
           split; [exact Hr'|]. split; [reflexivity|]. split; [lia|].
           split; [nia|now right].
        -- assert (Hk2 : 2 <= k (final_state out)) by lia.
           apply IH; cbn [bestFeasibleS best_k_found total_iterations];
             rewrite ?(construct_greedy_from_previous_k SG seed HG' Hk2);
             try (apply reach_warm; [exact Hr'|exact Hk2]);
             auto; try lia; try nia.
      * eexists. split; [reflexivity|].
        cbn [bestFeasibleS best_k_found total_iterations].
        split; [exact Hb|]. split; [exact Hbk|]. split; [lia|].
        split; [nia|exact Ho].
Qed.

End DriverFacts.

(** On an instance without self-loops the descent of [main] ends, whatever
    the clock and the random engine do.  The manager it keeps as
    [bestFeasibleS] is a reachable state with [best_k_found] colours,
    [best_k_found] lies between 1 and the initial [max_degree + 1], and
    [total_iterations] is at most [max_iter] for each round that can have
    been run.  Either no round was solved below the initial number of
    colours and [bestFeasibleS] is the initial construction, or
    [bestFeasibleS] has no conflict and no edge joins two vertices of one
    class. *)
Theorem descent_result {RE : RandomEngine} inst cfg seed
  (header_poll : nat -> bool) (search_poll : nat -> Z -> bool) :
  simple_graph inst ->
  exists r,
    descent inst cfg seed header_poll search_poll = Some r
    /\ reachable inst (bestFeasibleS r)
    /\ k (bestFeasibleS r) = best_k_found r
    /\ 1 <= best_k_found r <= max_degree inst + 1
    /\ 0 <= total_iterations r
       <= (max_degree inst + 1 - best_k_found r + 2) * Z.max 0 (max_iter cfg)
    /\ (bestFeasibleS r = initial_solution inst seed
        /\ best_k_found r = max_degree inst + 1
        \/ obj (bestFeasibleS r) = 0
           /\ forall e, In e (edges inst) ->
                vget 0 (color (bestFeasibleS r)) (fst e)
                <> vget 0 (color (bestFeasibleS r)) (snd e)).
Proof.
  intros SG. unfold descent.
  assert (Hr0 : reachable inst (initial_solution inst seed)).
  { apply reach_initial. now left. }
  assert (Ek0 : k (initial_solution inst seed) = max_degree inst + 1).
  { unfold initial_solution.
    rewrite (construct_greedy_initial_k SG); [|now left]. reflexivity. }
  destruct (@descent_loop_facts RE inst cfg seed header_poll search_poll SG
              (max_degree inst + 1)
              (Z.to_nat (k (initial_solution inst seed))) 0%nat
              (initial_solution inst seed)
              (mkDescent (initial_solution inst seed)
                 (k (initial_solution inst seed)) 0))
    as (r & E & Hr & Hk & Hb & Ht & Ho);
    cbn [bestFeasibleS best_k_found total_iterations]; auto; try lia.
  exists r. split; [exact E|]. split; [exact Hr|]. split; [exact Hk|].
  split; [exact Hb|]. split; [exact Ht|].
  destruct Ho as [Ho|Ho]; [now left|right].
  split; [exact Ho|].
  intros e He Ec.
  pose proof (Good_monochromatic SG (reachable_Good SG Hr)) as Em.
  rewrite Ho in Em. symmetry in Em.
  pose proof (countb_zero_all _ _ Em e He) as Hf. cbv beta in Hf.
  apply Z.eqb_neq in Hf. contradiction.
Qed.

Lemma descent_result_witness :
  exists r,
    descent (RE := Scripted []) triangle eager_config 0 (fun _ => false)
      (fun _ _ => false) = Some r
    /\ reachable (RE := Scripted []) triangle (bestFeasibleS r)
    /\ k (bestFeasibleS r) = best_k_found r
    /\ 1 <= best_k_found r <= max_degree triangle + 1
    /\ 0 <= total_iterations r
       <= (max_degree triangle + 1 - best_k_found r + 2)
          * Z.max 0 (max_iter eager_config)
    /\ (bestFeasibleS r = initial_solution (RE := Scripted []) triangle 0
        /\ best_k_found r = max_degree triangle + 1
        \/ obj (bestFeasibleS r) = 0
           /\ forall e, In e (edges triangle) ->
                vget 0 (color (bestFeasibleS r)) (fst e)
                <> vget 0 (color (bestFeasibleS r)) (snd e)).
Proof.
  apply (@descent_result (Scripted []) triangle eager_config 0
           (fun _ => false) (fun _ _ => false)).
  exact triangle_simple.
Defined.
